(** * A shallow embedding of the configuration-language translator

    The development follows the three stages of the repository:
    [src/lexer.py] (text to tokens), [src/parser.py] (tokens to AST) and
    [src/evaluator.py] (AST to resolved values), glued by
    [Translator.translate] of [src/translator.py] up to the point where the
    result mapping is handed to the YAML writer.

    Conventions of the embedding.
    - A Python [str] is a [string]; the lexer cursor [(text, pos)] is kept as
      the unread suffix [text[pos:]], a [list ascii].  An [ascii] stands
      for the code point of the same number, so the texts of the embedding
      are the Python strings whose code points are below 256, and the
      character classes ([isdigit], [islower], [isupper], [isalnum]) are
      those of [str] on these code points, Latin-1 letters and superscript
      digits included.
    - A Python [float] is a binary64 [float] of the kernel, so [+], [-], [<]
      and [==] are the IEEE operations Python uses.
    - Exceptions are values of an error type; every function that can raise
      returns a [result].
    - [while] loops whose trip count is bounded by the unread input take a
      fuel argument; the entry points supply enough of it.
    - The recursive methods of the parser and of the evaluator are followed
      to any depth: the recursion limit of the interpreter, which stops them
      with [RecursionError] at some hundreds of nested brackets, is not part
      of the embedding. *)

From Stdlib Require Import Floats ZArith Ascii String List Bool Arith Lia DecimalString.
From stdpp Require Import base option strings gmap.
Import ListNotations.

Set Warnings "-register-all".
Open Scope string_scope.
Open Scope list_scope.

(** ** Results of fallible code *)

Inductive result (E A : Type) : Type :=
| Ok (a : A)
| Err (e : E).
Arguments Ok {E A} a.
Arguments Err {E A} e.

Definition rbind {E A B} (r : result E A) (k : A -> result E B) : result E B :=
  match r with Ok a => k a | Err e => Err e end.

Definition rmap {E A B} (f : A -> B) (r : result E A) : result E B :=
  match r with Ok a => Ok (f a) | Err e => Err e end.

Definition map_err {E E' A} (f : E -> E') (r : result E A) : result E' A :=
  match r with Ok a => Ok a | Err e => Err (f e) end.

Notation "'let*' x ':=' r 'in' k" := (rbind r (fun x => k))
  (at level 10, x pattern, r at level 100, k at level 200).

(** ** Characters ([str] methods on one-character strings)

    The classes are those of the Unicode database on the code points 0 to
    255.  Besides the ASCII digits, [isdigit] holds of the superscripts two,
    three (178, 179) and one (185); [islower] of the ordinal indicators (170,
    186), the micro sign (181) and the small Latin-1 letters (223 to 246,
    248 to 255); [isupper] of the capital Latin-1 letters (192 to 214, 216
    to 222); [isalnum] of all of these and of the vulgar fractions (188 to
    190).  [isdecimal] holds of the ASCII digits only. *)

Definition chr (c : ascii) : nat := nat_of_ascii c.

Definition between (lo hi n : nat) : bool := Nat.leb lo n && Nat.leb n hi.

Definition isdecimal (c : ascii) : bool := between 48 57 (chr c).

Definition isdigit (c : ascii) : bool :=
  let n := chr c in
  between 48 57 n || between 178 179 n || Nat.eqb n 185.

Definition islower (c : ascii) : bool :=
  let n := chr c in
  between 97 122 n || Nat.eqb n 170 || Nat.eqb n 181 || Nat.eqb n 186
  || between 223 246 n || between 248 255 n.

Definition isupper (c : ascii) : bool :=
  let n := chr c in
  between 65 90 n || between 192 214 n || between 216 222 n.

Definition isalnum (c : ascii) : bool :=
  let n := chr c in
  between 48 57 n || between 65 90 n || between 97 122 n
  || Nat.eqb n 170 || between 178 179 n || Nat.eqb n 181
  || between 185 186 n || between 188 190 n
  || between 192 214 n || between 216 246 n || between 248 255 n.

(** [c in ' \t\r\n'] *)
Definition is_space (c : ascii) : bool :=
  Nat.eqb (chr c) 32 || Nat.eqb (chr c) 9 || Nat.eqb (chr c) 13
  || Nat.eqb (chr c) 10.

Definition newline : ascii := ascii_of_nat 10.

Definition ascii_eqb (a b : ascii) : bool := Ascii.eqb a b.

(** ** [float(num_str)] on the strings [read_number] builds

    [read_number] only ever passes characters of [isdigit], optionally
    followed by a dot and more of them.  When they are all decimal digits
    CPython's [float] returns the binary64 value nearest to the decimal
    value (ties to even, overflow to infinity).  A superscript digit is no
    part of a float literal: on a string that holds one [float] raises
    [ValueError], which is [None] here. *)

Definition digit_val (c : ascii) : Z := Z.of_nat (chr c) - 48.

Fixpoint digits_value (acc : Z) (ds : list ascii) : Z :=
  match ds with
  | [] => acc
  | d :: ds' => digits_value (10 * acc + digit_val d) ds'
  end.

(** The binary64 nearest to the rational [n / d], for [0 <= n] and [0 < d]. *)
Definition nearest_float (n d : Z) : float :=
  if (n =? 0)%Z then 0%float
  else
    let e0 := (Z.log2 n - Z.log2 d)%Z in
    let ge := if (0 <=? e0)%Z then (d * 2 ^ e0 <=? n)%Z
              else (d <=? n * 2 ^ (- e0))%Z in
    let e := if ge then e0 else (e0 - 1)%Z in
    let s := Z.max (e - 52) (-1074) in
    let num := if (s <? 0)%Z then (n * 2 ^ (- s))%Z else n in
    let den := if (s <? 0)%Z then d else (d * 2 ^ s)%Z in
    let q := (num / den)%Z in
    let r := (num mod den)%Z in
    let q' := if (den <? 2 * r)%Z then (q + 1)%Z
              else if (2 * r =? den)%Z && Z.odd q then (q + 1)%Z else q in
    Z.ldexp (PrimFloat.of_uint63 (Uint63.of_Z q')) s.

(** Splits at the first character that is not a decimal digit. *)
Fixpoint span_digits (s : list ascii) : list ascii * list ascii :=
  match s with
  | c :: s' =>
      if isdecimal c then
        let '(ds, rest) := span_digits s' in (c :: ds, rest)
      else ([], s)
  | [] => ([], [])
  end.

Definition py_float (num_str : string) : option float :=
  let '(ip, rest) := span_digits (list_ascii_of_string num_str) in
  match ip with
  | [] => None
  | _ :: _ =>
      match rest with
      | [] => Some (nearest_float (digits_value 0 ip) 1)
      | c :: rest' =>
          if ascii_eqb c "." then
            let '(fp, rest'') := span_digits rest' in
            match rest'' with
            | [] => Some (nearest_float (digits_value 0 (ip ++ fp))
                                        (10 ^ Z.of_nat (length fp)))
            | _ :: _ => None
            end
          else None
      end
  end.

(** ** Tokens ([src/lexer.py]) *)

Inductive TokenType : Set :=
| NUMBER | NAME
| LBRACKET | RBRACKET | LBRACE | RBRACE | LPAREN | RPAREN
| SEMICOLON | EQUALS | ASSIGN | DOT
| PLUS | MINUS
| SORT
| EOF | NEWLINE.

Definition TokenType_eqb (a b : TokenType) : bool :=
  match a, b with
  | NUMBER, NUMBER | NAME, NAME | LBRACKET, LBRACKET | RBRACKET, RBRACKET
  | LBRACE, LBRACE | RBRACE, RBRACE | LPAREN, LPAREN | RPAREN, RPAREN
  | SEMICOLON, SEMICOLON | EQUALS, EQUALS | ASSIGN, ASSIGN | DOT, DOT
  | PLUS, PLUS | MINUS, MINUS | SORT, SORT | EOF, EOF | NEWLINE, NEWLINE => true
  | _, _ => false
  end.

(** [Token.value] is declared [any]; the lexer stores a float in a NUMBER
    token, a str in every other token it scans, and [None] in EOF. *)
Inductive TokenValue : Type :=
| TNum (f : float)
| TStr (s : string)
| TNone.

Record Token : Type := mkToken {
  type : TokenType;
  value : TokenValue;
  line : nat;
  column : nat
}.

(** ** Exceptions

    One constructor per [raise] site, so that the message of the source is
    recoverable from the constructor; the position or token the exception
    carries is an argument. *)

Inductive LexMessage : Type :=
| UnterminatedComment                 (* "Незакрытый многострочный комментарий" *)
| InvalidCharacter (c : ascii)        (* "Недопустимый символ в имени: 'c'" *)
| UnexpectedCharacter (c : ascii).    (* "Неожиданный символ: 'c'" *)

Inductive ParseMessage : Type :=
| Expected (expected actual : TokenType)      (* eat *)
| UnexpectedTokenInValue (actual : TokenType) (* parse_value *)
| ExpectedSemicolonOrRBracket (actual : TokenType)
| ExpectedKeyName (actual : TokenType)
| ExpectedSemicolonOrRBrace (actual : TokenType)
| ExpectedDotAfterExpression.

(** The classes [type(a)] can print in the messages of [+] and [-]. *)
Inductive PyType : Set := float_t | list_t | dict_t.

Inductive EvalMessage : Type :=
| SortUnderflow                       (* "Недостаточно операндов для sort()" *)
| SortExpectsArray                    (* "sort() ожидает массив" *)
| UnknownConstant (name : string)     (* "Неизвестная константа: name" *)
| PlusUnderflow                       (* "Недостаточно операндов для +" *)
| PlusTypes (ta tb : PyType)          (* "Несовместимые типы для +: ta и tb" *)
| MinusUnderflow                      (* "Недостаточно операндов для -" *)
| MinusTypes (ta tb : PyType)         (* "Несовместимые типы для -: ta и tb" *)
| UnexpectedToken (ty : TokenType)    (* "Неожиданный токен в выражении: ty" *)
| MalformedExpression (n : nat)       (* "... осталось n значений в стеке" *)
| UnknownNodeType.                    (* "Неизвестный тип узла: ..." *)

Inductive Exception : Type :=
| LexerError (message : LexMessage) (line column : nat)
| ParseError (message : ParseMessage) (token : option Token)
| EvaluationError (message : EvalMessage) (token : option Token)
| ValueError       (* float() on a malformed literal *)
| TypeError        (* '<' between values that do not compare, in sorted() *)
| AttributeError   (* an attribute of None: the parser past its last token *)
| NameError (name : string)
                   (* a global name that is bound neither in the module nor
                      among the builtins: "name 'name' is not defined" *)
| IllTypedToken    (* a NUMBER token without a float, a NAME token without a
                      str: no such token leaves the lexer *)
| OutOfFuel.       (* the fuel of a loop ran out: ruled out at the entry
                      points by [tokenize_fuel_enough] and [parse_fuel_enough] *)

Definition res (A : Type) : Type := result Exception A.

(** ** The lexer *)

Record Lexer : Type := mkLexer {
  rest : list ascii;       (* text[pos:] *)
  cur_line : nat;
  cur_column : nat
}.

Definition Lexer_init (text : string) : Lexer :=
  mkLexer (list_ascii_of_string text) 1 1.

(** [Lexer.error]: raises at the current position. *)
Definition lexer_error {A} (lx : Lexer) (m : LexMessage) : res A :=
  Err (LexerError m (cur_line lx) (cur_column lx)).

Definition peek (lx : Lexer) (offset : nat) : option ascii :=
  nth_error (rest lx) offset.

Definition advance (lx : Lexer) : option ascii * Lexer :=
  match rest lx with
  | [] => (None, lx)
  | c :: r =>
      if ascii_eqb c newline
      then (Some c, mkLexer r (S (cur_line lx)) 1)
      else (Some c, mkLexer r (cur_line lx) (S (cur_column lx)))
  end.

Definition advance_ (lx : Lexer) : Lexer := snd (advance lx).

(** The loops below recurse on the unread text; each iteration that goes on
    has just looked at its head [c] and calls [advance]. *)

Fixpoint skip_whitespace_loop (s : list ascii) (ln col : nat) : Lexer :=
  match s with
  | c :: s' =>
      if is_space c
      then let lx := advance_ (mkLexer s ln col) in
           skip_whitespace_loop s' (cur_line lx) (cur_column lx)
      else mkLexer s ln col
  | [] => mkLexer s ln col
  end.

Definition skip_whitespace (lx : Lexer) : Lexer :=
  skip_whitespace_loop (rest lx) (cur_line lx) (cur_column lx).

Fixpoint skip_to_eol (s : list ascii) (ln col : nat) : Lexer :=
  match s with
  | c :: s' =>
      if negb (ascii_eqb c newline)
      then let lx := advance_ (mkLexer s ln col) in
           skip_to_eol s' (cur_line lx) (cur_column lx)
      else mkLexer s ln col
  | [] => mkLexer s ln col
  end.

Definition skip_single_line_comment (lx : Lexer) : Lexer :=
  let lx := advance_ lx in
  let lx := advance_ lx in
  skip_to_eol (rest lx) (cur_line lx) (cur_column lx).

Fixpoint skip_to_close (s : list ascii) (ln col : nat) : res Lexer :=
  match s with
  | [] => lexer_error (mkLexer s ln col) UnterminatedComment
  | c :: s' =>
      if ascii_eqb c "#" && match nth_error s 1 with
                            | Some c1 => ascii_eqb c1 ">"
                            | None => false
                            end
      then Ok (advance_ (advance_ (mkLexer s ln col)))
      else let lx := advance_ (mkLexer s ln col) in
           skip_to_close s' (cur_line lx) (cur_column lx)
  end.

Definition skip_multi_line_comment (lx : Lexer) : res Lexer :=
  let lx := advance_ lx in
  let lx := advance_ lx in
  skip_to_close (rest lx) (cur_line lx) (cur_column lx).

(** [while self.peek() and self.peek().isdigit(): num_str += self.advance()] *)
Fixpoint read_digits (s : list ascii) (ln col : nat) : list ascii * Lexer :=
  match s with
  | c :: s' =>
      if isdigit c
      then let lx := advance_ (mkLexer s ln col) in
           let '(ds, lx') := read_digits s' (cur_line lx) (cur_column lx) in
           (c :: ds, lx')
      else ([], mkLexer s ln col)
  | [] => ([], mkLexer s ln col)
  end.

Definition read_number (lx : Lexer) : res (Token * Lexer) :=
  let start_line := cur_line lx in
  let start_column := cur_column lx in
  let '(ip, lx1) := read_digits (rest lx) (cur_line lx) (cur_column lx) in
  let '(num_str, lx2) :=
    match peek lx1 0 with
    | Some c =>
        if ascii_eqb c "."
        then let lx' := advance_ lx1 in
             let '(fp, lx'') :=
               read_digits (rest lx') (cur_line lx') (cur_column lx') in
             (ip ++ c :: fp, lx'')
        else (ip, lx1)
    | None => (ip, lx1)
    end in
  match py_float (string_of_list_ascii num_str) with
  | Some f => Ok (mkToken NUMBER (TNum f) start_line start_column, lx2)
  | None => Err ValueError
  end.

Fixpoint read_name_loop (s : list ascii) (ln col : nat)
  : res (list ascii * Lexer) :=
  match s with
  | c :: s' =>
      if isalnum c || ascii_eqb c "_"
      then if isupper c
           then lexer_error (mkLexer s ln col) (InvalidCharacter c)
           else let lx := advance_ (mkLexer s ln col) in
                let* (cs, lx') :=
                  read_name_loop s' (cur_line lx) (cur_column lx) in
                Ok (c :: cs, lx')
      else Ok ([], mkLexer s ln col)
  | [] => Ok ([], mkLexer s ln col)
  end.

Definition read_name (lx : Lexer) : res (Token * Lexer) :=
  let start_line := cur_line lx in
  let start_column := cur_column lx in
  match advance lx with
  | (None, _) => Err TypeError            (* name += None *)
  | (Some c0, lx1) =>
      let* (cs, lx2) :=
        read_name_loop (rest lx1) (cur_line lx1) (cur_column lx1) in
      let name := string_of_list_ascii (c0 :: cs) in
      if String.eqb name "sort"
      then Ok (mkToken SORT (TStr name) start_line start_column, lx2)
      else Ok (mkToken NAME (TStr name) start_line start_column, lx2)
  end.

(** The single-character tokens of the [if/elif] chain of [tokenize]. *)
Definition punctuation (c : ascii) : option (TokenType * string) :=
  if ascii_eqb c "[" then Some (LBRACKET, "[")
  else if ascii_eqb c "]" then Some (RBRACKET, "]")
  else if ascii_eqb c "{" then Some (LBRACE, "{")
  else if ascii_eqb c "}" then Some (RBRACE, "}")
  else if ascii_eqb c "(" then Some (LPAREN, "(")
  else if ascii_eqb c ")" then Some (RPAREN, ")")
  else if ascii_eqb c ";" then Some (SEMICOLON, ";")
  else if ascii_eqb c "=" then Some (EQUALS, "=")
  else if ascii_eqb c "." then Some (DOT, ".")
  else if ascii_eqb c "+" then Some (PLUS, "+")
  else if ascii_eqb c "-" then Some (MINUS, "-")
  else None.

Definition peek_is (lx : Lexer) (offset : nat) (c : ascii) : bool :=
  match peek lx offset with
  | Some c' => ascii_eqb c' c
  | None => false
  end.

(** One pass through the body of the [while] loop of [tokenize], entered
    after [skip_whitespace] with [char = self.peek()]: the token appended to
    [self.tokens], if any, and the lexer after it. *)
Definition scan_item (lx : Lexer) (char : ascii) : res (option Token * Lexer) :=
  if ascii_eqb char ":" && peek_is lx 1 ":" then
    Ok (None, skip_single_line_comment lx)
  else if ascii_eqb char "<" && peek_is lx 1 "#" then
    let* lx' := skip_multi_line_comment lx in Ok (None, lx')
  else if isdigit char then
    let* (t, lx') := read_number lx in Ok (Some t, lx')
  else if islower char then
    let* (t, lx') := read_name lx in Ok (Some t, lx')
  else
    let start_line := cur_line lx in
    let start_column := cur_column lx in
    if ascii_eqb char "<" && peek_is lx 1 "-" then
      Ok (Some (mkToken ASSIGN (TStr "<-") start_line start_column),
          advance_ (advance_ lx))
    else
      match punctuation char with
      | Some (ty, v) =>
          Ok (Some (mkToken ty (TStr v) start_line start_column), advance_ lx)
      | None => lexer_error lx (UnexpectedCharacter char)
      end.

Definition push_token (tokens : list Token) (t : option Token) : list Token :=
  match t with
  | Some t => tokens ++ [t]
  | None => tokens
  end.

Definition eof_token (lx : Lexer) : Token :=
  mkToken EOF TNone (cur_line lx) (cur_column lx).

Fixpoint tokenize_loop (fuel : nat) (lx : Lexer) (tokens : list Token)
  : res (list Token) :=
  match fuel with
  | O => Err OutOfFuel
  | S fuel' =>
      match rest lx with
      | [] => Ok (tokens ++ [eof_token lx])
      | _ :: _ =>
          let lx := skip_whitespace lx in
          match peek lx 0 with
          | None => Ok (tokens ++ [eof_token lx])
          | Some char =>
              let* (t, lx') := scan_item lx char in
              tokenize_loop fuel' lx' (push_token tokens t)
          end
      end
  end.

Definition tokenize_from (lx : Lexer) (tokens : list Token) : res (list Token) :=
  tokenize_loop (S (length (rest lx))) lx tokens.

Definition tokenize (text : string) : res (list Token) :=
  tokenize_from (Lexer_init text) [].

(** ** Python dicts with str keys

    A dict keeps its keys in insertion order and assigning to a key that is
    present overwrites the value in place. *)

Definition dict (V : Type) : Type := list (string * V).

Fixpoint dict_set {V} (d : dict V) (k : string) (v : V) : dict V :=
  match d with
  | [] => [(k, v)]
  | (k', v') :: d' =>
      if String.eqb k' k then (k, v) :: d' else (k', v') :: dict_set d' k v
  end.

Fixpoint dict_get {V} (d : dict V) (k : string) : option V :=
  match d with
  | [] => None
  | (k', v') :: d' => if String.eqb k' k then Some v' else dict_get d' k
  end.

(** ** The AST ([src/parser.py]) *)

Inductive ASTNode : Type :=
| NumberNode (value : float)
| NameNode (name : string)
| ArrayNode (elements : list ASTNode)
| DictNode (pairs : dict ASTNode)
| ConstDeclarationNode (name : string) (value : ASTNode)
| ConstExpressionNode (tokens : list Token).

(** ** The parser

    [Parser] keeps [tokens], [pos] and [current_token = tokens[pos]] (or
    [None] past the end); here the state is the suffix [tokens[pos:]], whose
    head is [current_token].  Reading [.type] of a [None] current token is
    Python's [AttributeError]. *)

Definition parse_error {A} (ts : list Token) (m : ParseMessage) : res A :=
  Err (ParseError m (hd_error ts)).

Definition current_type (ts : list Token) : res TokenType :=
  match ts with
  | [] => Err AttributeError
  | t :: _ => Ok (type t)
  end.

Definition eat (token_type : TokenType) (ts : list Token)
  : res (Token * list Token) :=
  match ts with
  | [] => Err AttributeError
  | t :: ts' =>
      if TokenType_eqb (type t) token_type then Ok (t, ts')
      else parse_error ts (Expected token_type (type t))
  end.

Definition token_str (t : Token) : res string :=
  match value t with
  | TStr s => Ok s
  | _ => Err IllTypedToken
  end.

Definition token_float (t : Token) : res float :=
  match value t with
  | TNum f => Ok f
  | _ => Err IllTypedToken
  end.

(** The [while] loop of [parse_const_expression], after [.(] was eaten. *)
Fixpoint collect_expression (ts : list Token) (paren_count : nat)
    (expr_tokens : list Token) : res (list Token * list Token) :=
  match ts with
  | [] => Ok (expr_tokens, ts)
  | t :: ts' =>
      let paren_count :=
        if TokenType_eqb (type t) LPAREN then S paren_count
        else if TokenType_eqb (type t) RPAREN then Nat.pred paren_count
        else paren_count in
      if Nat.ltb 0 paren_count
      then collect_expression ts' paren_count (expr_tokens ++ [t])
      else let* (_, ts'') := eat RPAREN ts in Ok (expr_tokens, ts'')
  end.

Definition parse_const_expression (ts : list Token)
  : res (ASTNode * list Token) :=
  let* (_, ts) := eat DOT ts in
  let* (_, ts) := eat LPAREN ts in
  let* (expr_tokens, ts) := collect_expression ts 1 [] in
  match ts with
  | t :: _ =>
      if TokenType_eqb (type t) DOT
      then let* (_, ts) := eat DOT ts in
           Ok (ConstExpressionNode expr_tokens, ts)
      else parse_error ts ExpectedDotAfterExpression
  | [] => parse_error ts ExpectedDotAfterExpression
  end.

Fixpoint parse_value (fuel : nat) (ts : list Token) {struct fuel}
  : res (ASTNode * list Token) :=
  match fuel with
  | O => Err OutOfFuel
  | S fuel' =>
      match ts with
      | [] => Err AttributeError
      | token :: ts' =>
          match type token with
          | NUMBER =>
              let* f := token_float token in Ok (NumberNode f, ts')
          | NAME =>
              let* s := token_str token in Ok (NameNode s, ts')
          | LBRACKET => parse_array fuel' ts
          | LBRACE => parse_dict fuel' ts
          | DOT => parse_const_expression ts
          | ty => parse_error ts (UnexpectedTokenInValue ty)
          end
      end
  end

with parse_array (fuel : nat) (ts : list Token) {struct fuel}
  : res (ASTNode * list Token) :=
  match fuel with
  | O => Err OutOfFuel
  | S fuel' =>
      let* (_, ts) := eat LBRACKET ts in
      let* ty := current_type ts in
      if TokenType_eqb ty RBRACKET then
        let* (_, ts) := eat RBRACKET ts in Ok (ArrayNode [], ts)
      else
        let* (elements, ts) := parse_array_loop fuel' ts [] in
        let* (_, ts) := eat RBRACKET ts in
        Ok (ArrayNode elements, ts)
  end

with parse_array_loop (fuel : nat) (ts : list Token) (elements : list ASTNode)
    {struct fuel} : res (list ASTNode * list Token) :=
  match fuel with
  | O => Err OutOfFuel
  | S fuel' =>
      let* (v, ts) := parse_value fuel' ts in
      let elements := elements ++ [v] in
      let* ty := current_type ts in
      if TokenType_eqb ty SEMICOLON then
        let* (_, ts) := eat SEMICOLON ts in
        let* ty := current_type ts in
        if TokenType_eqb ty RBRACKET then Ok (elements, ts)
        else parse_array_loop fuel' ts elements
      else if TokenType_eqb ty RBRACKET then Ok (elements, ts)
      else parse_error ts (ExpectedSemicolonOrRBracket ty)
  end

with parse_dict (fuel : nat) (ts : list Token) {struct fuel}
  : res (ASTNode * list Token) :=
  match fuel with
  | O => Err OutOfFuel
  | S fuel' =>
      let* (_, ts) := eat LBRACE ts in
      let* ty := current_type ts in
      if TokenType_eqb ty RBRACE then
        let* (_, ts) := eat RBRACE ts in Ok (DictNode [], ts)
      else
        let* (pairs, ts) := parse_dict_loop fuel' ts [] in
        let* (_, ts) := eat RBRACE ts in
        Ok (DictNode pairs, ts)
  end

with parse_dict_loop (fuel : nat) (ts : list Token) (pairs : dict ASTNode)
    {struct fuel} : res (dict ASTNode * list Token) :=
  match fuel with
  | O => Err OutOfFuel
  | S fuel' =>
      let* ty := current_type ts in
      if negb (TokenType_eqb ty NAME) then parse_error ts (ExpectedKeyName ty)
      else
        let* (key_token, ts) := eat NAME ts in
        let* key_name := token_str key_token in
        let* (_, ts) := eat EQUALS ts in
        let* (v, ts) := parse_value fuel' ts in
        let pairs := dict_set pairs key_name v in
        let* ty := current_type ts in
        if TokenType_eqb ty SEMICOLON then
          let* (_, ts) := eat SEMICOLON ts in
          let* ty := current_type ts in
          if TokenType_eqb ty RBRACE then Ok (pairs, ts)
          else parse_dict_loop fuel' ts pairs
        else if TokenType_eqb ty RBRACE then Ok (pairs, ts)
        else parse_error ts (ExpectedSemicolonOrRBrace ty)
  end.

Definition parse_statement (fuel : nat) (ts : list Token)
  : res (ASTNode * list Token) :=
  let* ty := current_type ts in
  if TokenType_eqb ty NAME then
    let* (name_token, ts1) := eat NAME ts in
    let* ty1 := current_type ts1 in
    if TokenType_eqb ty1 ASSIGN then
      let* (_, ts2) := eat ASSIGN ts1 in
      let* (v, ts3) := parse_value fuel ts2 in
      let* name := token_str name_token in
      Ok (ConstDeclarationNode name v, ts3)
    else
      (* self.pos -= 1; self.current_token = name_token *)
      parse_value fuel ts
  else parse_value fuel ts.

Fixpoint parse_loop (fuel : nat) (ts : list Token) (statements : list ASTNode)
  : res (list ASTNode) :=
  match fuel with
  | O => Err OutOfFuel
  | S fuel' =>
      match ts with
      | [] => Ok statements
      | t :: _ =>
          if TokenType_eqb (type t) EOF then Ok statements
          else
            let* (s, ts1) := parse_statement (3 * length ts) ts in
            let statements := statements ++ [s] in
            match ts1 with
            | t1 :: _ =>
                if TokenType_eqb (type t1) SEMICOLON
                then let* (_, ts2) := eat SEMICOLON ts1 in
                     parse_loop fuel' ts2 statements
                else parse_loop fuel' ts1 statements
            | [] => parse_loop fuel' ts1 statements
            end
      end
  end.

(** [Parser(tokens).parse()] *)
Definition parse (tokens : list Token) : res (list ASTNode) :=
  parse_loop (S (length tokens)) tokens [].

Definition parse_text (text : string) : res (list ASTNode) :=
  let* tokens := tokenize text in
  parse tokens.

(** ** Resolved values ([src/evaluator.py]) *)

Inductive Value : Type :=
| VNum (x : float)
| VList (items : list Value)
| VDict (entries : dict Value).

Definition type_of (v : Value) : PyType :=
  match v with
  | VNum _ => float_t
  | VList _ => list_t
  | VDict _ => dict_t
  end.

(** *** [sorted]

    [sorted] is a stable comparison sort that only ever asks [x < y].  On
    floats that is the IEEE comparison, on lists the lexicographic one (the
    first pair of unequal items decides), and for any other pair of classes
    Python raises [TypeError].

    The embedding of [sorted] is an insertion sort, and it is the function
    of the interpreter on the lists that hold no NaN: there [<] orders the
    items it compares, and a stable sort has one result whatever comparisons
    it makes.  On a list with a NaN inside, the result of the interpreter
    depends on the comparisons its merge sort happens to make and on which
    items are one object (an object is taken to be equal to itself, NaN
    included); the embedding keeps neither, and what is stated about the
    result of [sorted] is stated of lists without NaN ([not_nan] below). *)

Fixpoint py_eq (a b : Value) {struct a} : bool :=
  match a, b with
  | VNum x, VNum y => PrimFloat.eqb x y
  | VList l1, VList l2 =>
      (fix items_eq (l1 l2 : list Value) {struct l1} : bool :=
         match l1, l2 with
         | [], [] => true
         | x :: l1', y :: l2' => py_eq x y && items_eq l1' l2'
         | _, _ => false
         end) l1 l2
  | VDict d1, VDict d2 =>
      Nat.eqb (length d1) (length d2)
      && (fix entries_in (d : dict Value) {struct d} : bool :=
            match d with
            | [] => true
            | (k, v) :: d' =>
                match dict_get d2 k with
                | Some w => py_eq v w
                | None => false
                end && entries_in d'
            end) d1
  | _, _ => false
  end.

Fixpoint py_lt (a b : Value) {struct a} : res bool :=
  match a, b with
  | VNum x, VNum y => Ok (PrimFloat.ltb x y)
  | VList l1, VList l2 =>
      (fix items_lt (l1 l2 : list Value) {struct l1} : res bool :=
         match l1, l2 with
         | [], [] => Ok false
         | [], _ :: _ => Ok true
         | _ :: _, [] => Ok false
         | x :: l1', y :: l2' =>
             if py_eq x y then items_lt l1' l2' else py_lt x y
         end) l1 l2
  | _, _ => Err TypeError
  end.

(** Puts [x] in front of the first item of the sorted list [l] that is not
    smaller than it; [x] stood before every item of [l] in the input. *)
Fixpoint sorted_insert (x : Value) (l : list Value) : res (list Value) :=
  match l with
  | [] => Ok [x]
  | y :: l' =>
      let* smaller := py_lt y x in
      if smaller
      then let* r := sorted_insert x l' in Ok (y :: r)
      else Ok (x :: l)
  end.

Fixpoint sorted (l : list Value) : res (list Value) :=
  match l with
  | [] => Ok []
  | x :: l' => let* r := sorted l' in sorted_insert x r
  end.

(** *** The postfix evaluator

    [self.stack] is kept with its top first: [append] is a cons, [pop] takes
    the head, and [self.stack[0]] is the last item. *)

Abbreviation Env := (gmap string Value).

Definition eval_error {A} (m : EvalMessage) (token : Token) : res A :=
  Err (EvaluationError m (Some token)).

(** The body of the [for token in expr_tokens] loop. *)
Definition eval_token (constants : Env) (token : Token) (stack : list Value)
  : res (list Value) :=
  match type token with
  | NUMBER =>
      let* f := token_float token in Ok (VNum f :: stack)
  | NAME =>
      let* name := token_str token in
      if String.eqb name "sort" then
        match stack with
        | [] => eval_error SortUnderflow token
        | operand :: stack' =>
            match operand with
            | VList items =>
                let* r := sorted items in Ok (VList r :: stack')
            | _ => eval_error SortExpectsArray token
            end
        end
      else
        match constants !! name with
        | None => eval_error (UnknownConstant name) token
        | Some v => Ok (v :: stack)
        end
  | PLUS =>
      match stack with
      | b :: a :: stack' =>
          match a, b with
          | VNum x, VNum y => Ok (VNum (x + y) :: stack')
          | VList l1, VList l2 => Ok (VList (l1 ++ l2) :: stack')
          | _, _ => eval_error (PlusTypes (type_of a) (type_of b)) token
          end
      | _ => eval_error PlusUnderflow token
      end
  | MINUS =>
      match stack with
      | b :: a :: stack' =>
          match a, b with
          | VNum x, VNum y => Ok (VNum (x - y) :: stack')
          | _, _ => eval_error (MinusTypes (type_of a) (type_of b)) token
          end
      | _ => eval_error MinusUnderflow token
      end
  | ty => eval_error (UnexpectedToken ty) token
  end.

Fixpoint eval_tokens (constants : Env) (expr_tokens : list Token)
    (stack : list Value) : res (list Value) :=
  match expr_tokens with
  | [] => Ok stack
  | token :: expr_tokens' =>
      let* stack := eval_token constants token stack in
      eval_tokens constants expr_tokens' stack
  end.

(** The check after the loop: [len(self.stack) != 1], then [self.stack[0]]. *)
Definition final_stack (stack : list Value) : res Value :=
  match stack with
  | [v] => Ok v
  | _ => Err (EvaluationError (MalformedExpression (length stack)) None)
  end.

Definition evaluate_expression (constants : Env) (expr_tokens : list Token)
  : res Value :=
  let* stack := eval_tokens constants expr_tokens [] in
  final_stack stack.

(** *** Nodes *)

Fixpoint evaluate_node (constants : Env) (node : ASTNode) {struct node}
  : res Value :=
  match node with
  | NumberNode v => Ok (VNum v)
  | NameNode name =>
      match constants !! name with
      | None => Err (EvaluationError (UnknownConstant name) None)
      | Some v => Ok v
      end
  | ArrayNode elements =>
      rmap VList
        ((fix each (l : list ASTNode) : res (list Value) :=
            match l with
            | [] => Ok []
            | elem :: l' =>
                let* v := evaluate_node constants elem in
                let* vs := each l' in Ok (v :: vs)
            end) elements)
  | DictNode pairs =>
      (* the keys of a dict are distinct: the comprehension keeps them all *)
      rmap VDict
        ((fix each (l : dict ASTNode) : res (dict Value) :=
            match l with
            | [] => Ok []
            | (key, val) :: l' =>
                let* v := evaluate_node constants val in
                let* vs := each l' in Ok ((key, v) :: vs)
            end) pairs)
  | ConstExpressionNode tokens => evaluate_expression constants tokens
  | ConstDeclarationNode _ _ => Err (EvaluationError UnknownNodeType None)
  end.

(** [str(len(results))] *)
Definition str_of_nat (n : nat) : string :=
  NilEmpty.string_of_uint (Nat.to_uint n).

(** *** The global names of the module

    A global name is looked up each time the expression that reads it is
    evaluated, in the namespace of the module and then among the builtins,
    and [NameError] is raised when it is in neither.  [evaluator_globals]
    lists what the namespace of [src/evaluator.py] holds once the module is
    loaded, besides the names every module has: the names of its import
    statements (lines 5 to 10) and its two classes.  Every class the method
    bodies read is among them but one: [ConstDeclarationNode], read by
    [evaluate_all] at line 118, is not imported, and is no builtin either.
    That lookup is the one the embedding writes out; the namespace is an
    argument of the functions that depend on it, and the functions under the
    names of the source take the namespace the module has.  A namespace that
    lists a class of [src/parser.py] binds the name to that class.

    Annotations are no part of the embedding: they are evaluated when a
    function is defined, not when it runs. *)

Definition evaluator_globals : list string :=
  ["Any"; "Dict"; "Token"; "TokenType";
   "ASTNode"; "NumberNode"; "NameNode"; "ArrayNode"; "DictNode";
   "ConstExpressionNode"; "ParseError";
   "EvaluationError"; "Evaluator"].

Definition lookup_global (globals : list string) (name : string) : res unit :=
  if existsb (String.eqb name) globals then Ok tt else Err (NameError name).

(** One iteration of the loop of [evaluate_all] over [self.constants] and
    [results]: [isinstance(node, ConstDeclarationNode)] evaluates its second
    argument first, then tells the declarations from the other nodes. *)
Definition evaluate_statement_in (globals : list string)
    (st : Env * dict Value) (node : ASTNode) : res (Env * dict Value) :=
  let '(constants, results) := st in
  let* _ := lookup_global globals "ConstDeclarationNode" in
  match node with
  | ConstDeclarationNode name val =>
      let* v := evaluate_node constants val in
      Ok (<[name := v]> constants, dict_set results name v)
  | _ =>
      let* v := evaluate_node constants node in
      let key := "unnamed_" +:+ str_of_nat (length results) in
      Ok (constants, dict_set results key v)
  end.

Fixpoint evaluate_statements_in (globals : list string)
    (st : Env * dict Value) (nodes : list ASTNode) : res (Env * dict Value) :=
  match nodes with
  | [] => Ok st
  | node :: nodes' =>
      let* st := evaluate_statement_in globals st node in
      evaluate_statements_in globals st nodes'
  end.

(** [Evaluator(constants).evaluate_all(nodes)] in a module whose namespace
    is [globals] *)
Definition evaluate_all_in (globals : list string) (constants : Env)
    (nodes : list ASTNode) : res (dict Value) :=
  rmap snd (evaluate_statements_in globals (constants, []) nodes).

(** [Evaluator(constants).evaluate_all(nodes)] *)
Definition evaluate_all (constants : Env) (nodes : list ASTNode)
  : res (dict Value) :=
  evaluate_all_in evaluator_globals constants nodes.

(** ** The translator ([src/translator.py])

    [translate] wraps whatever a stage raises in a [TranslationError] whose
    message starts with the name of the stage, chosen by the class of the
    exception; what is no [LexerError], [ParseError] or [EvaluationError]
    is caught by [except Exception] and called unexpected.  The embedding
    stops at [results], the mapping that [translate] hands to [yaml.dump]. *)

Inductive Stage : Set := Lexical | Syntactic | Evaluation | Unexpected.

Definition stage_of (e : Exception) : Stage :=
  match e with
  | LexerError _ _ _ => Lexical
  | ParseError _ _ => Syntactic
  | EvaluationError _ _ => Evaluation
  | _ => Unexpected
  end.

Record TranslationError : Type := mkTranslationError {
  stage : Stage;
  cause : Exception
}.

(** [translate], with the evaluator in a module whose namespace is
    [globals] *)
Definition translate_in (globals : list string) (text : string)
  : result TranslationError (dict Value) :=
  map_err (fun e => mkTranslationError (stage_of e) e)
    (let* tokens := tokenize text in
     let* ast_nodes := parse_text text in
     evaluate_all_in globals ∅ ast_nodes).

Definition translate (text : string) : result TranslationError (dict Value) :=
  translate_in evaluator_globals text.

(** * The vocabulary of the statements *)

(** ** Tokens and values written out in statements *)

(** A NUMBER and a NAME token as the lexer builds them; the evaluator does
    not read their position. *)
Definition number_token (f : float) : Token := mkToken NUMBER (TNum f) 0 0.
Definition name_token (s : string) : Token := mkToken NAME (TStr s) 0 0.


(** ** Identifiers and numeric literals *)

(** What can go on inside an identifier: a letter, digit or underscore that
    is not an uppercase letter. *)
Definition ident_char (c : ascii) : bool :=
  (isalnum c || ascii_eqb c "_") && negb (isupper c).

(** The characters the loop of [read_name] looks at. *)
Definition name_char (c : ascii) : bool := isalnum c || ascii_eqb c "_".

(** One or more decimal digits, optionally followed by a dot and further
    decimal digits. *)
Definition is_numeric_literal (N : string) : bool :=
  let '(ip, rest) := span_digits (list_ascii_of_string N) in
  negb (Nat.eqb (length ip) 0)
  && match rest with
     | [] => true
     | c :: fp => ascii_eqb c "." && forallb isdecimal fp
     end.

(** [t] does not start with a character of class [P]. *)
Definition stops (P : ascii -> bool) (t : list ascii) : Prop :=
  match t with
  | [] => True
  | ch :: _ => P ch = false
  end.

(** ** Declarations *)

(** The names declared by a statement sequence, in statement order. *)
Fixpoint declared (nodes : list ASTNode) : list string :=
  match nodes with
  | [] => []
  | ConstDeclarationNode name _ :: nodes' => name :: declared nodes'
  | _ :: nodes' => declared nodes'
  end.

Definition is_declaration (node : ASTNode) : bool :=
  match node with
  | ConstDeclarationNode _ _ => true
  | _ => false
  end.

(** ** Tokens, nodes and exceptions without their positions *)

Definition erase (t : Token) : Token := mkToken (type t) (value t) 0 0.

Fixpoint erase_node (node : ASTNode) : ASTNode :=
  match node with
  | NumberNode v => NumberNode v
  | NameNode name => NameNode name
  | ArrayNode elements => ArrayNode (map erase_node elements)
  | DictNode pairs =>
      DictNode (map (fun kv => (fst kv, erase_node (snd kv))) pairs)
  | ConstDeclarationNode name val => ConstDeclarationNode name (erase_node val)
  | ConstExpressionNode tokens => ConstExpressionNode (map erase tokens)
  end.

Abbreviation erase_pairs :=
  (map (fun kv : string * ASTNode => (fst kv, erase_node (snd kv)))).

Definition erase_exception (e : Exception) : Exception :=
  match e with
  | LexerError m _ _ => LexerError m 0 0
  | ParseError m t => ParseError m (option_map erase t)
  | EvaluationError m t => EvaluationError m (option_map erase t)
  | e => e
  end.

(** A result with its payload mapped and the positions of its error erased. *)
Definition emap {A B} (f : A -> B) (r : res A) : res B :=
  match r with
  | Ok a => Ok (f a)
  | Err e => Err (erase_exception e)
  end.

Definition erase_parsed {A B} (f : A -> B) (p : A * list Token)
  : B * list Token :=
  (f (fst p), map erase (snd p)).

(** ** Induction on nodes, through the lists of an array and of a dict *)

Section ASTNode_induction.
Variable P : ASTNode -> Prop.
Hypothesis P_number : forall v, P (NumberNode v).
Hypothesis P_name : forall name, P (NameNode name).
Hypothesis P_array : forall elements, Forall P elements -> P (ArrayNode elements).
Hypothesis P_dict :
  forall pairs, Forall (fun kv => P (snd kv)) pairs -> P (DictNode pairs).
Hypothesis P_declaration :
  forall name val, P val -> P (ConstDeclarationNode name val).
Hypothesis P_expression : forall tokens, P (ConstExpressionNode tokens).

Fixpoint ASTNode_nested_ind (node : ASTNode) : P node :=
  match node with
  | NumberNode v => P_number v
  | NameNode name => P_name name
  | ArrayNode elements =>
      P_array elements
        ((fix each (l : list ASTNode) : Forall P l :=
            match l with
            | [] => List.Forall_nil P
            | x :: l' => List.Forall_cons P x l' (ASTNode_nested_ind x) (each l')
            end) elements)
  | DictNode pairs =>
      P_dict pairs
        ((fix each (l : dict ASTNode) : Forall (fun kv => P (snd kv)) l :=
            match l with
            | [] => List.Forall_nil _
            | kv :: l' =>
                List.Forall_cons _ kv l' (ASTNode_nested_ind (snd kv)) (each l')
            end) pairs)
  | ConstDeclarationNode name val =>
      P_declaration name val (ASTNode_nested_ind val)
  | ConstExpressionNode tokens => P_expression tokens
  end.
End ASTNode_induction.

(** ** Comments and the places where white space is legal *)

Definition not_newline (c : ascii) : bool := negb (ascii_eqb c newline).

(** The body of a block comment: no [#>] inside it. *)
Fixpoint no_close (body : list ascii) : bool :=
  match body with
  | [] => true
  | c :: body' =>
      negb (ascii_eqb c "#" && match body' with
                               | c1 :: _ => ascii_eqb c1 ">"
                               | [] => false
                               end)
      && no_close body'
  end.

(** [comment_before s2 c]: [c] is a comment when put in front of [s2]: a
    single-line comment with the line break that ends it, a single-line
    comment in front of a line break or of the end of the text, or a block
    comment closed by the first [#>]. *)
Inductive comment_before (s2 : list ascii) : list ascii -> Prop :=
| line_comment_newline body :
    forallb not_newline body = true ->
    comment_before s2 (":" :: ":" :: body ++ [newline])%char
| line_comment_at_eol body :
    forallb not_newline body = true -> stops not_newline s2 ->
    comment_before s2 (":" :: ":" :: body)%char
| block_comment body :
    no_close body = true ->
    comment_before s2 ("<" :: "#" :: body ++ ["#"; ">"])%char.

(** The text starts with the two colons of a single-line comment. *)
Definition line_comment_start (s : list ascii) : bool :=
  match s with
  | c1 :: c2 :: _ => ascii_eqb c1 ":" && ascii_eqb c2 ":"
  | _ => false
  end.

(** [ws_legal s1 s2]: in the text [s1 ++ s2] white space may stand between
    [s1] and [s2].  The main loop of the lexer gets there from the start of
    the text by skipping white space and by scanning whole items (tokens and
    comments), and it does not get there by a single-line comment, whose
    text runs up to that point and would take in whatever is put there. *)
Inductive ws_legal : list ascii -> list ascii -> Prop :=
| legal_here s2 : ws_legal [] s2
| legal_space c r s2 :
    is_space c = true -> ws_legal r s2 -> ws_legal (c :: r) s2
| legal_item u r s2 c s0 tok lx' :
    u ++ r ++ s2 = c :: s0 -> is_space c = false ->
    scan_item (mkLexer (u ++ r ++ s2) 1 1) c = Ok (tok, lx') ->
    rest lx' = r ++ s2 ->
    (line_comment_start (u ++ r ++ s2) = true -> r <> []) ->
    ws_legal r s2 -> ws_legal (u ++ r) s2.

(** Text that starts like a comment continues no token. *)
Definition neutral (t : list ascii) : Prop :=
  exists c r, t = c :: r /\ (c = ":"%char \/ c = "<"%char).

(** [t'] may replace [t] after an item: it starts with the same character,
    or, unless the item is a single-line comment, like a comment. *)
Definition follows (lc : bool) (t t' : list ascii) : Prop :=
  hd_error t' = hd_error t \/ (lc = false /\ neutral t').

(** Text that starts with white space. *)
Definition blank (t : list ascii) : Prop :=
  exists c r, t = c :: r /\ is_space c = true.

(** [t'] may stand after an item in the place of [t]: it [follows] [t], or,
    unless the item is a single-line comment, it starts with white space. *)
Definition continues (lc : bool) (t t' : list ascii) : Prop :=
  follows lc t t' \/ (lc = false /\ blank t').

(** ** Positions in a text *)

(** The line and column after one more character, as [advance] counts
    them. *)
Definition step_position (p : nat * nat) (c : ascii) : nat * nat :=
  if ascii_eqb c newline then (S (fst p), 1) else (fst p, S (snd p)).

Definition move (u : list ascii) (p : nat * nat) : nat * nat :=
  fold_left step_position u p.

(** The 1-based line and column of the character that follows [s] in a text
    that starts with [s]. *)
Definition position_after (s : list ascii) : nat * nat := move s (1, 1).

Definition position (lx : Lexer) : nat * nat := (cur_line lx, cur_column lx).

(** [lx'] is [lx] after the characters [u]. *)
Definition reaches (u : list ascii) (lx lx' : Lexer) : Prop :=
  rest lx = u ++ rest lx' /\ position lx' = move u (position lx).

(** ** What the lexer puts in a token *)

(** The text of the tokens that are neither numbers nor names. *)
Definition symbol (ty : TokenType) : option string :=
  match ty with
  | LBRACKET => Some "["
  | RBRACKET => Some "]"
  | LBRACE => Some "{"
  | RBRACE => Some "}"
  | LPAREN => Some "("
  | RPAREN => Some ")"
  | SEMICOLON => Some ";"
  | EQUALS => Some "="
  | ASSIGN => Some "<-"
  | DOT => Some "."
  | PLUS => Some "+"
  | MINUS => Some "-"
  | _ => None
  end.

(** A lowercase letter followed by letters, digits and underscores, none of
    them an uppercase letter. *)
Definition is_identifier (s : string) : bool :=
  match list_ascii_of_string s with
  | c :: cs => islower c && forallb ident_char cs
  | [] => false
  end.

(** The value goes with the type: a float in a NUMBER, an identifier other
    than [sort] in a NAME, [sort] in a SORT, the text of the symbol in a
    symbol, [None] in the EOF; there is no NEWLINE token. *)
Definition token_ok (t : Token) : bool :=
  match type t, value t with
  | NUMBER, TNum _ => true
  | NAME, TStr s => is_identifier s && negb (String.eqb s "sort")
  | SORT, TStr s => String.eqb s "sort"
  | EOF, TNone => true
  | ty, TStr s =>
      match symbol ty with
      | Some s' => String.eqb s s'
      | None => false
      end
  | _, _ => false
  end.

Definition token_position (t : Token) : nat * nat := (line t, column t).

(** Positions in reading order. *)
Definition position_lt (p q : nat * nat) : Prop :=
  fst p < fst q \/ (fst p = fst q /\ snd p < snd q).

Definition position_le (p q : nat * nat) : Prop :=
  fst p < fst q \/ (fst p = fst q /\ snd p <= snd q).

(** Each token stands before the next one. *)
Fixpoint increasing (ts : list Token) : Prop :=
  match ts with
  | t1 :: ts' =>
      match ts' with
      | t2 :: _ => position_lt (token_position t1) (token_position t2)
      | [] => True
      end /\ increasing ts'
  | [] => True
  end.

(** A character, with the text after it, that begins a token or a
    comment. *)
Definition starts_item (c : ascii) (r : list ascii) : bool :=
  isdigit c || islower c
  || match punctuation c with Some _ => true | None => false end
  || (ascii_eqb c ":" && match r with c1 :: _ => ascii_eqb c1 ":" | [] => false end)
  || (ascii_eqb c "<"
      && match r with
         | c1 :: _ => ascii_eqb c1 "#" || ascii_eqb c1 "-"
         | [] => false
         end).

(** A digit of [str.isdigit] that is no decimal digit: one of the
    superscripts one, two and three.  [float] takes none of them. *)
Definition superscript (c : ascii) : bool := isdigit c && negb (isdecimal c).

(** ** What a stage returns or raises *)

(** [r] is a result in [P] or an exception in [E]. *)
Definition within {A} (E : Exception -> Prop) (P : A -> Prop) (r : res A)
  : Prop :=
  match r with
  | Ok x => P x
  | Err e => E e
  end.

(** The last token is an EOF. *)
Fixpoint ends_with_eof (ts : list Token) : bool :=
  match ts with
  | [] => false
  | t :: ts' =>
      match ts' with
      | [] => TokenType_eqb (type t) EOF
      | _ :: _ => ends_with_eof ts'
      end
  end.

(** Tokens as the lexer returns them, or what is left of them while no EOF
    has been taken. *)
Definition lexed (ts : list Token) : Prop :=
  ends_with_eof ts = true /\ forallb token_ok ts = true.

(** The tokens kept in the constant expressions of a node are well
    formed. *)
Fixpoint node_ok (node : ASTNode) : bool :=
  match node with
  | NumberNode _ | NameNode _ => true
  | ArrayNode elements => forallb node_ok elements
  | DictNode pairs => forallb (fun kv => node_ok (snd kv)) pairs
  | ConstDeclarationNode _ val => node_ok val
  | ConstExpressionNode tokens => forallb token_ok tokens
  end.

(** What the parser raises on the tokens of the lexer: a ParseError with the
    token it stands at, or without a token when a constant expression has
    taken every token.  (That the fuel of the model is enough is shown
    apart.) *)
Definition parser_stop (e : Exception) : Prop :=
  match e with
  | ParseError ExpectedDotAfterExpression None => True
  | ParseError _ (Some _) => True
  | OutOfFuel => True
  | _ => False
  end.

(** What the evaluator raises on the tokens of the lexer: an
    EvaluationError, and not one of [sort]. *)
Definition evaluator_stop (e : Exception) : Prop :=
  match e with
  | EvaluationError SortUnderflow _ => False
  | EvaluationError SortExpectsArray _ => False
  | EvaluationError _ _ => True
  | _ => False
  end.

(** ** Sequences in order *)

(** The floats other than NaN: the ones equal to themselves. *)
Definition not_nan (x : float) : bool := PrimFloat.eqb x x.



Section Orders.
Context {A : Type} (lt : A -> A -> bool).

(** No item is greater than the one after it. *)
Fixpoint ascending (l : list A) : bool :=
  match l with
  | x :: l' =>
      match l' with
      | y :: _ => negb (lt y x)
      | [] => true
      end && ascending l'
  | [] => true
  end.

(** The insertion sort that [sorted] is, on items compared by [lt]. *)
Fixpoint insert_by (x : A) (l : list A) : list A :=
  match l with
  | [] => [x]
  | y :: l' => if lt y x then y :: insert_by x l' else x :: l
  end.

Fixpoint sort_by (l : list A) : list A :=
  match l with
  | [] => []
  | x :: l' => insert_by x (sort_by l')
  end.

End Orders.

(** ** The names a node refers to *)

Definition token_name (t : Token) : list string :=
  match type t, value t with
  | NAME, TStr s => [s]
  | _, _ => []
  end.

(** The names read in the environment when a node is evaluated. *)
Fixpoint mentions (node : ASTNode) : list string :=
  match node with
  | NumberNode _ => []
  | NameNode name => [name]
  | ArrayNode elements => concat (map mentions elements)
  | DictNode pairs => concat (map (fun kv => mentions (snd kv)) pairs)
  | ConstDeclarationNode _ _ => []
  | ConstExpressionNode tokens => concat (map token_name tokens)
  end.

(** ** Nodes written out as tokens *)

(** The token of a symbol, as the lexer builds it but for the position. *)
Definition sym (ty : TokenType) : Token :=
  mkToken ty (match symbol ty with Some s => TStr s | None => TNone end) 0 0.

(** Items separated by semicolons, with or without one after the last. *)
Fixpoint separated (trailing : bool) (items : list (list Token))
  : list Token :=
  match items with
  | [] => []
  | item :: items' =>
      match items' with
      | [] => item ++ (if trailing then [sym SEMICOLON] else [])
      | _ :: _ => item ++ sym SEMICOLON :: separated trailing items'
      end
  end.

(** A node in the concrete syntax, token by token. *)
Fixpoint tokens_of (trailing : bool) (node : ASTNode) : list Token :=
  match node with
  | NumberNode v => [number_token v]
  | NameNode name => [name_token name]
  | ArrayNode elements =>
      sym LBRACKET :: separated trailing (map (tokens_of trailing) elements)
      ++ [sym RBRACKET]
  | DictNode pairs =>
      sym LBRACE
      :: separated trailing
           (map (fun kv => name_token (fst kv) :: sym EQUALS
                           :: tokens_of trailing (snd kv)) pairs)
      ++ [sym RBRACE]
  | ConstDeclarationNode name val =>
      name_token name :: sym ASSIGN :: tokens_of trailing val
  | ConstExpressionNode tokens =>
      sym DOT :: sym LPAREN :: tokens ++ [sym RPAREN; sym DOT]
  end.

(** Every RPAREN of the run closes an LPAREN of the run, [depth] of which
    are open at its start, and none is left open at its end. *)
Fixpoint balanced (depth : nat) (ts : list Token) : bool :=
  match ts with
  | [] => Nat.eqb depth 0
  | t :: ts' =>
      match type t with
      | LPAREN => balanced (S depth) ts'
      | RPAREN =>
          match depth with
          | O => false
          | S depth' => balanced depth' ts'
          end
      | _ => balanced depth ts'
      end
  end.

Fixpoint keys_distinct {V} (d : dict V) : bool :=
  match d with
  | [] => true
  | (k, _) :: d' =>
      match dict_get d' k with
      | None => keys_distinct d'
      | Some _ => false
      end
  end.

(** The values the grammar writes: a dict has no key twice, a constant
    expression is a balanced run, and a declaration is no value. *)
Fixpoint is_value (node : ASTNode) : bool :=
  match node with
  | NumberNode _ | NameNode _ => true
  | ArrayNode elements => forallb is_value elements
  | DictNode pairs =>
      keys_distinct pairs && forallb (fun kv => is_value (snd kv)) pairs
  | ConstDeclarationNode _ _ => false
  | ConstExpressionNode tokens => balanced 0 tokens
  end.

Definition is_statement (node : ASTNode) : bool :=
  match node with
  | ConstDeclarationNode _ val => is_value val
  | _ => is_value node
  end.

(** The statements of a program, each followed by a semicolon or none of
    them, and the EOF token. *)
Definition program_tokens (trailing semicolons : bool)
    (nodes : list ASTNode) : list Token :=
  concat (map (fun node => tokens_of trailing node
                           ++ (if semicolons then [sym SEMICOLON] else []))
              nodes)
  ++ [mkToken EOF TNone 0 0].

(** The types of the tokens a value begins with. *)
Definition value_start (ty : TokenType) : bool :=
  match ty with
  | NUMBER | NAME | LBRACKET | LBRACE | DOT => true
  | _ => false
  end.

(** With three units of fuel for each token ahead, the parser reads the
    tokens of [node] back as [node] and stops behind them. *)
Definition reads_back (trailing : bool) (node : ASTNode) : Prop :=
  is_value node = true ->
  forall fuel rest,
    3 * length (tokens_of trailing node ++ rest) <= fuel ->
    parse_value fuel (tokens_of trailing node ++ rest) = Ok (node, rest).

(** No RPAREN of the run closes the parenthesis that was open before it,
    [depth] more being open at its start. *)
Fixpoint never_closes (depth : nat) (ts : list Token) : bool :=
  match ts with
  | [] => true
  | t :: ts' =>
      match type t with
      | LPAREN => never_closes (S depth) ts'
      | RPAREN =>
          match depth with
          | O => false
          | S depth' => never_closes depth' ts'
          end
      | _ => never_closes depth ts'
      end
  end.

(** The types of the tokens the postfix evaluator takes. *)
Definition expression_token (ty : TokenType) : bool :=
  match ty with
  | NUMBER | NAME | PLUS | MINUS => true
  | _ => false
  end.

(** * Properties *)

(** ** The empty program *)

(** C10: the empty text lexes to the single token EOF at line 1, column 1,
    parses to no statement, evaluates to the empty mapping, and the whole
    translation succeeds with the empty mapping. *)
Theorem empty_input_translates :
  tokenize "" = Ok [mkToken EOF TNone 1 1]
  /\ parse [mkToken EOF TNone 1 1] = Ok []
  /\ parse_text "" = Ok []
  /\ evaluate_all ∅ [] = Ok []
  /\ translate "" = Ok [].
Proof. repeat split; reflexivity. Qed.

(** ** The global names of the evaluator *)

Lemma lookup_global_cases (globals : list string) (name : string) :
  lookup_global globals name = Ok tt
  \/ lookup_global globals name = Err (NameError name).
Proof.
  unfold lookup_global; destruct (existsb _ globals); [left | right];
    reflexivity.
Qed.

(** [ConstDeclarationNode] is not bound in [src/evaluator.py]. *)
Lemma declaration_class_unbound :
  lookup_global evaluator_globals "ConstDeclarationNode"
  = Err (NameError "ConstDeclarationNode").
Proof. reflexivity. Qed.

(** Where the name is not bound the loop of [evaluate_all] stops at its
    first node, whatever the node. *)
Lemma evaluate_statements_in_unbound (globals : list string)
    (st : Env * dict Value) (node : ASTNode) (nodes : list ASTNode) :
  lookup_global globals "ConstDeclarationNode"
  = Err (NameError "ConstDeclarationNode") ->
  evaluate_statements_in globals st (node :: nodes)
  = Err (NameError "ConstDeclarationNode").
Proof.
  intros Hg; destruct st as [constants results].
  cbn [evaluate_statements_in]; unfold evaluate_statement_in.
  rewrite Hg; reflexivity.
Qed.

Lemma evaluate_all_in_unbound (globals : list string) (constants : Env)
    (node : ASTNode) (nodes : list ASTNode) :
  lookup_global globals "ConstDeclarationNode"
  = Err (NameError "ConstDeclarationNode") ->
  evaluate_all_in globals constants (node :: nodes)
  = Err (NameError "ConstDeclarationNode").
Proof.
  intros Hg; unfold evaluate_all_in.
  rewrite (evaluate_statements_in_unbound _ _ _ _ Hg); reflexivity.
Qed.

Lemma evaluate_all_nonempty (constants : Env) (node : ASTNode)
    (nodes : list ASTNode) :
  evaluate_all constants (node :: nodes)
  = Err (NameError "ConstDeclarationNode").
Proof.
  exact (evaluate_all_in_unbound _ _ _ _ declaration_class_unbound).
Qed.

(** Where the name is bound the lookup is all the namespace is read for. *)
Lemma evaluate_statement_in_bound (globals : list string)
    (st : Env * dict Value) (node : ASTNode) :
  lookup_global globals "ConstDeclarationNode" = Ok tt ->
  evaluate_statement_in globals st node
  = (let '(constants, results) := st in
     match node with
     | ConstDeclarationNode name val =>
         let* v := evaluate_node constants val in
         Ok (<[name := v]> constants, dict_set results name v)
     | _ =>
         let* v := evaluate_node constants node in
         let key := "unnamed_" +:+ str_of_nat (length results) in
         Ok (constants, dict_set results key v)
     end).
Proof.
  intros Hg; destruct st as [constants results].
  unfold evaluate_statement_in; rewrite Hg; reflexivity.
Qed.

Lemma evaluate_statements_in_bound (globals globals' : list string)
    (st : Env * dict Value) (nodes : list ASTNode) :
  lookup_global globals "ConstDeclarationNode" = Ok tt ->
  lookup_global globals' "ConstDeclarationNode" = Ok tt ->
  evaluate_statements_in globals st nodes
  = evaluate_statements_in globals' st nodes.
Proof.
  intros Hg Hg'; revert st; induction nodes as [|node nodes IH]; intros st;
    [reflexivity|].
  cbn [evaluate_statements_in].
  rewrite (evaluate_statement_in_bound globals st node Hg).
  rewrite (evaluate_statement_in_bound globals' st node Hg').
  destruct st as [constants results].
  destruct node; cbn beta iota;
    match goal with
    | |- rbind ?r _ = rbind ?r _ => destruct r; cbn [rbind];
                                    [apply IH | reflexivity]
    end.
Qed.

Lemma translate_in_bound (globals globals' : list string) (text : string) :
  lookup_global globals "ConstDeclarationNode" = Ok tt ->
  lookup_global globals' "ConstDeclarationNode" = Ok tt ->
  translate_in globals text = translate_in globals' text.
Proof.
  intros Hg Hg'; unfold translate_in, evaluate_all_in.
  destruct (tokenize text); [|reflexivity]; cbn [rbind].
  destruct (parse_text text); [|reflexivity]; cbn [rbind].
  rewrite (evaluate_statements_in_bound globals globals' _ _ Hg Hg');
    reflexivity.
Qed.

(** What [translate] returns, read off the parsed statements. *)
Lemma translate_parsed (text : string) (node : ASTNode)
    (nodes : list ASTNode) :
  parse_text text = Ok (node :: nodes) ->
  translate text
  = Err (mkTranslationError Unexpected (NameError "ConstDeclarationNode")).
Proof.
  intros Hp; unfold translate, translate_in.
  assert (Ht : exists tokens, tokenize text = Ok tokens).
  { unfold parse_text in Hp; destruct (tokenize text) as [tokens|e];
      [exists tokens; reflexivity | discriminate]. }
  destruct Ht as [tokens Ht]; rewrite Ht, Hp; cbn [rbind].
  fold (evaluate_all ∅ (node :: nodes)).
  rewrite evaluate_all_nonempty; reflexivity.
Qed.

(** ** The end of a postfix expression *)

Lemma final_stack_single (stack : list Value) (v : Value) :
  final_stack stack = Ok v <-> stack = [v].
Proof.
  split.
  - destruct stack as [|a [|b stack]]; simpl; intros H; inversion H; reflexivity.
  - intros ->; reflexivity.
Qed.

(** C7: once the loop over the captured tokens has left [stack], the
    expression fails with MalformedExpression carrying the stack size when
    that size is not one (zero included), and otherwise returns the one value
    on the stack. *)
Theorem final_stack_check (constants : Env) (expr_tokens : list Token)
    (stack : list Value) :
  eval_tokens constants expr_tokens [] = Ok stack ->
  (length stack <> 1 ->
   evaluate_expression constants expr_tokens
   = Err (EvaluationError (MalformedExpression (length stack)) None))
  /\ (length stack = 1 ->
      exists v, nth_error stack 0 = Some v
                /\ evaluate_expression constants expr_tokens = Ok v).
Proof.
  intros Hrun; unfold evaluate_expression; rewrite Hrun; simpl.
  destruct stack as [|v [|w stack]]; simpl; split; intros H;
    try reflexivity; try (exfalso; lia).
  exists v; split; reflexivity.
Qed.

Lemma final_stack_check_witness :
  evaluate_expression ∅ [number_token 1; number_token 2]
  = Err (EvaluationError (MalformedExpression 2) None)
  /\ evaluate_expression ∅ []
     = Err (EvaluationError (MalformedExpression 0) None)
  /\ exists v, nth_error [VNum 7] 0 = Some v
               /\ evaluate_expression ∅ [number_token 7] = Ok v.
Proof.
  split; [|split].
  - apply (final_stack_check ∅ [number_token 1; number_token 2]
             [VNum 2; VNum 1]); [reflexivity | simpl; lia].
  - apply (final_stack_check ∅ [] []); [reflexivity | simpl; lia].
  - apply (final_stack_check ∅ [number_token 7] [VNum 7]); reflexivity.
Defined.

(** ** PLUS and MINUS *)

Lemma name_token_pushes (constants : Env) (name : string) (v : Value)
    (stack : list Value) :
  name <> "sort" -> constants !! name = Some v ->
  eval_token constants (name_token name) stack = Ok (v :: stack).
Proof.
  intros Hs Hv; unfold eval_token; simpl.
  destruct (String.eqb_spec name "sort") as [->|_]; [congruence|].
  rewrite Hv; reflexivity.
Qed.

(** C5: a PLUS token pops [b] (the top) and then [a]; two numbers give
    [a + b], two sequences give [a]'s items followed by [b]'s (so the
    lengths add up, also for [.(A B +).] over constants [A] and [B]), any
    other pair of kinds is the type error naming both kinds, and a stack
    with fewer than two values is the underflow error. *)
Theorem plus_token (constants : Env) (token : Token) :
  type token = PLUS ->
  (forall x y stack,
      eval_token constants token (VNum y :: VNum x :: stack)
      = Ok (VNum (x + y) :: stack))
  /\ (forall A B stack,
         eval_token constants token (VList B :: VList A :: stack)
         = Ok (VList (A ++ B) :: stack)
         /\ length (A ++ B) = length A + length B)
  /\ (forall a b stack,
         type_of a <> type_of b \/ type_of a = dict_t ->
         eval_token constants token (b :: a :: stack)
         = Err (EvaluationError (PlusTypes (type_of a) (type_of b))
                                (Some token)))
  /\ (forall stack,
         length stack < 2 ->
         eval_token constants token stack
         = Err (EvaluationError PlusUnderflow (Some token)))
  /\ (forall na nb A B,
         na <> "sort" -> nb <> "sort" ->
         constants !! na = Some (VList A) ->
         constants !! nb = Some (VList B) ->
         evaluate_expression constants [name_token na; name_token nb; token]
         = Ok (VList (A ++ B))).
Proof.
  intros Hty.
  assert (Hstep : forall stack,
             eval_token constants token stack
             = match stack with
               | b :: a :: stack' =>
                   match a, b with
                   | VNum x, VNum y => Ok (VNum (x + y) :: stack')
                   | VList l1, VList l2 => Ok (VList (l1 ++ l2) :: stack')
                   | _, _ => eval_error (PlusTypes (type_of a) (type_of b)) token
                   end
               | _ => eval_error PlusUnderflow token
               end)
    by (intros stack; unfold eval_token; rewrite Hty; reflexivity).
  split; [|split; [|split; [|split]]].
  - intros; rewrite Hstep; reflexivity.
  - intros A B stack; split; [rewrite Hstep; reflexivity | apply length_app].
  - intros a b stack Hk; rewrite Hstep.
    destruct a, b; simpl in *; try reflexivity;
      destruct Hk as [Hk|Hk]; congruence.
  - intros stack Hlen; rewrite Hstep.
    destruct stack as [|b [|a stack]]; simpl in *; try reflexivity; lia.
  - intros na nb A B Hna Hnb HA HB.
    unfold evaluate_expression; simpl.
    rewrite (name_token_pushes _ _ _ _ Hna HA); simpl.
    rewrite (name_token_pushes _ _ _ _ Hnb HB); simpl.
    rewrite Hstep; reflexivity.
Qed.

Lemma plus_token_witness :
  eval_token ∅ (mkToken PLUS (TStr "+") 1 9) [VNum 3; VNum 5]
  = Ok [VNum (5 + 3)].
Proof.
  exact (proj1 (plus_token ∅ (mkToken PLUS (TStr "+") 1 9) eq_refl) _ _ _).
Defined.

(** C6: a MINUS token pops [b] (the top) and then [a]; two numbers give
    [a - b], the operand pushed earlier minus the later one; any operand that
    is not a number is the type error, fewer than two operands the underflow
    error; and the expression [a b + c -] over 10, 5 and 3 is 12.  The
    program of the scenario, which declares the three constants and then the
    expression, does not get that far: [evaluate_all] stops at its first
    statement with [NameError], and [translate] reports an unexpected error.
    In a namespace that binds [ConstDeclarationNode] the same program
    resolves [result] to 12. *)
Theorem minus_token (constants : Env) (token : Token) :
  type token = MINUS ->
  (forall x y stack,
      eval_token constants token (VNum y :: VNum x :: stack)
      = Ok (VNum (x - y) :: stack))
  /\ (forall a b stack,
         type_of a <> float_t \/ type_of b <> float_t ->
         eval_token constants token (b :: a :: stack)
         = Err (EvaluationError (MinusTypes (type_of a) (type_of b))
                                (Some token)))
  /\ (forall stack,
         length stack < 2 ->
         eval_token constants token stack
         = Err (EvaluationError MinusUnderflow (Some token)))
  /\ (forall x y,
         evaluate_expression constants [number_token x; number_token y; token]
         = Ok (VNum (x - y)))
  /\ evaluate_expression
       (<["c" := VNum 3]> (<["b" := VNum 5]> (<["a" := VNum 10]> ∅)))
       [name_token "a"; name_token "b"; mkToken PLUS (TStr "+") 0 0;
        name_token "c"; token]
     = Ok (VNum 12)
  /\ translate "a<-10.0; b<-5.0; c<-3.0; result<-.(a b + c -).;"
     = Err (mkTranslationError Unexpected (NameError "ConstDeclarationNode"))
  /\ (forall globals,
         lookup_global globals "ConstDeclarationNode" = Ok tt ->
         translate_in globals "a<-10.0; b<-5.0; c<-3.0; result<-.(a b + c -).;"
         = Ok [("a", VNum 10); ("b", VNum 5); ("c", VNum 3);
               ("result", VNum 12)]).
Proof.
  intros Hty.
  assert (Hstep : forall stack,
             eval_token constants token stack
             = match stack with
               | b :: a :: stack' =>
                   match a, b with
                   | VNum x, VNum y => Ok (VNum (x - y) :: stack')
                   | _, _ => eval_error (MinusTypes (type_of a) (type_of b)) token
                   end
               | _ => eval_error MinusUnderflow token
               end)
    by (intros stack; unfold eval_token; rewrite Hty; reflexivity).
  assert (Hany : forall env stack,
             eval_token env token stack = eval_token constants token stack)
    by (intros env stack; unfold eval_token; rewrite Hty; reflexivity).
  split; [|split; [|split; [|split; [|split; [|split]]]]].
  - intros; rewrite Hstep; reflexivity.
  - intros a b stack Hk; rewrite Hstep.
    destruct a, b; simpl in *; try reflexivity;
      destruct Hk as [Hk|Hk]; congruence.
  - intros stack Hlen; rewrite Hstep.
    destruct stack as [|b [|a stack]]; simpl in *; try reflexivity; lia.
  - intros x y; unfold evaluate_expression; simpl.
    rewrite Hstep; reflexivity.
  - unfold evaluate_expression.
    change (eval_tokens ?env (?t1 :: ?t2 :: ?t3 :: ?t4 :: [token]) [])
      with (let* stack := eval_tokens env [t1; t2; t3; t4] [] in
            let* stack := eval_token env token stack in Ok stack).
    replace (eval_tokens _ [name_token "a"; name_token "b";
                            mkToken PLUS (TStr "+") 0 0; name_token "c"] [])
      with (Ok (E := Exception) [VNum 3; VNum 15])
      by (vm_compute; reflexivity).
    cbn [rbind]; rewrite Hany, Hstep; vm_compute; reflexivity.
  - vm_compute; reflexivity.
  - intros globals Hg.
    rewrite (translate_in_bound globals ["ConstDeclarationNode"] _ Hg eq_refl).
    vm_compute; reflexivity.
Qed.

Lemma minus_token_witness :
  eval_token ∅ (mkToken MINUS (TStr "-") 1 9) [VNum 7; VNum 10]
  = Ok [VNum (10 - 7)].
Proof.
  exact (proj1 (minus_token ∅ (mkToken MINUS (TStr "-") 1 9) eq_refl) _ _ _).
Defined.

(** ** [sort] in constant expressions *)

(** C2: the lexer turns the identifier [sort] into a SORT token, and the
    postfix evaluator, which looks for a NAME token whose value is [sort],
    rejects every SORT token as unexpected.  The scenario
    [arr <- [1.0; 2.0; 3.0]; r <- .(arr sort()).;] is lexed and parsed, its
    expression over the value of [arr] raises that error at the SORT token,
    and [translate] fails on it: with [NameError] at the first statement as
    the module is, and with the error of the SORT token in a namespace that
    binds [ConstDeclarationNode]. *)
Theorem sort_keyword_is_unexpected :
  tokenize "sort"
  = Ok [mkToken SORT (TStr "sort") 1 1; mkToken EOF TNone 1 5]
  /\ (forall constants v ln col stack,
         eval_token constants (mkToken SORT v ln col) stack
         = Err (EvaluationError (UnexpectedToken SORT)
                                (Some (mkToken SORT v ln col))))
  /\ parse_text "arr <- [1.0; 2.0; 3.0]; r <- .(arr sort()).;"
     = Ok [ConstDeclarationNode "arr"
             (ArrayNode [NumberNode 1; NumberNode 2; NumberNode 3]);
           ConstDeclarationNode "r"
             (ConstExpressionNode
                [mkToken NAME (TStr "arr") 1 32;
                 mkToken SORT (TStr "sort") 1 36;
                 mkToken LPAREN (TStr "(") 1 40;
                 mkToken RPAREN (TStr ")") 1 41])]
  /\ evaluate_expression {["arr" := VList [VNum 1; VNum 2; VNum 3]]}
       [mkToken NAME (TStr "arr") 1 32;
        mkToken SORT (TStr "sort") 1 36;
        mkToken LPAREN (TStr "(") 1 40;
        mkToken RPAREN (TStr ")") 1 41]
     = Err (EvaluationError (UnexpectedToken SORT)
              (Some (mkToken SORT (TStr "sort") 1 36)))
  /\ translate "arr <- [1.0; 2.0; 3.0]; r <- .(arr sort()).;"
     = Err (mkTranslationError Unexpected (NameError "ConstDeclarationNode"))
  /\ (forall globals,
         lookup_global globals "ConstDeclarationNode" = Ok tt ->
         translate_in globals "arr <- [1.0; 2.0; 3.0]; r <- .(arr sort()).;"
         = Err (mkTranslationError Evaluation
                  (EvaluationError (UnexpectedToken SORT)
                     (Some (mkToken SORT (TStr "sort") 1 36))))).
Proof.
  split; [vm_compute; reflexivity | split; [reflexivity|]].
  split; [vm_compute; reflexivity | split; [vm_compute; reflexivity|]].
  split; [vm_compute; reflexivity|].
  intros globals Hg.
  rewrite (translate_in_bound globals ["ConstDeclarationNode"] _ Hg eq_refl).
  vm_compute; reflexivity.
Qed.

(** ** Character classes *)

Ltac ascii_cases c :=
  destruct c as [[] [] [] [] [] [] [] []]; vm_compute; try discriminate;
  try reflexivity; try tauto.

Lemma isupper_class (u : ascii) :
  isupper u = true ->
  is_space u = false /\ isdigit u = false /\ islower u = false
  /\ isalnum u = true /\ punctuation u = None
  /\ ascii_eqb u ":" = false /\ ascii_eqb u "<" = false.
Proof. ascii_cases u; intros _; repeat split. Qed.

Lemma islower_class (c : ascii) :
  islower c = true ->
  is_space c = false /\ isdigit c = false /\ isupper c = false
  /\ ascii_eqb c newline = false
  /\ ascii_eqb c ":" = false /\ ascii_eqb c "<" = false.
Proof. ascii_cases c; intros _; repeat split. Qed.

Lemma isdigit_class (c : ascii) :
  isdigit c = true ->
  is_space c = false /\ ascii_eqb c newline = false
  /\ ascii_eqb c ":" = false /\ ascii_eqb c "<" = false
  /\ ascii_eqb c "." = false.
Proof. ascii_cases c; intros _; repeat split. Qed.

Lemma isdecimal_isdigit (c : ascii) : isdecimal c = true -> isdigit c = true.
Proof. ascii_cases c. Qed.

Lemma isdecimal_digits (ds : list ascii) :
  forallb isdecimal ds = true -> forallb isdigit ds = true.
Proof.
  induction ds as [|d ds IH]; [reflexivity|]; cbn [forallb].
  intros H; apply andb_prop in H as [Hd Hds].
  rewrite (isdecimal_isdigit d Hd), (IH Hds); reflexivity.
Qed.

Lemma ident_char_class (c : ascii) :
  ident_char c = true ->
  (isalnum c || ascii_eqb c "_") = true /\ isupper c = false
  /\ ascii_eqb c newline = false.
Proof. ascii_cases c; intros _; repeat split. Qed.

(** ** The lexer on one item *)

Lemma advance_not_newline (c : ascii) (s : list ascii) (ln col : nat) :
  ascii_eqb c newline = false ->
  advance_ (mkLexer (c :: s) ln col) = mkLexer s ln (S col).
Proof. intros H; unfold advance_, advance; simpl; rewrite H; reflexivity. Qed.

Lemma skip_whitespace_not_space (lx : Lexer) (c : ascii) (s : list ascii) :
  rest lx = c :: s -> is_space c = false -> skip_whitespace lx = lx.
Proof.
  destruct lx as [r ln col]; simpl; intros -> H.
  unfold skip_whitespace; simpl; rewrite H; reflexivity.
Qed.

(** The main loop at a character that is not white space. *)
Lemma tokenize_from_item (lx : Lexer) (tokens : list Token) (c : ascii)
    (s : list ascii) :
  rest lx = c :: s -> is_space c = false ->
  tokenize_from lx tokens
  = let* (t, lx') := scan_item lx c in
    tokenize_loop (S (length s)) lx' (push_token tokens t).
Proof.
  intros Hr Hc; unfold tokenize_from; rewrite Hr.
  cbn [length tokenize_loop]; rewrite Hr.
  rewrite (skip_whitespace_not_space lx c s Hr Hc).
  unfold peek; rewrite Hr; reflexivity.
Qed.

(** The main loop with fuel to spare: at the end of the text, at white
    space, and at the first character of an item. *)
Lemma tokenize_loop_end (fuel : nat) (lx : Lexer) (tokens : list Token) :
  rest lx = [] ->
  tokenize_loop (S fuel) lx tokens = Ok (tokens ++ [eof_token lx]).
Proof. intros Hr; simpl; rewrite Hr; reflexivity. Qed.

Lemma tokenize_loop_space (fuel : nat) (lx : Lexer) (tokens : list Token)
    (c : ascii) (s : list ascii) :
  rest lx = c :: s -> is_space c = true ->
  tokenize_loop (S fuel) lx tokens
  = tokenize_loop (S fuel) (advance_ lx) tokens.
Proof.
  destruct lx as [r ln col]; simpl; intros -> Hc.
  unfold skip_whitespace; cbn [rest cur_line cur_column skip_whitespace_loop].
  rewrite Hc.
  set (lx := advance_ _).
  assert (Hrest : rest lx = s)
    by (unfold lx, advance_, advance; simpl; destruct (ascii_eqb c newline);
        reflexivity).
  destruct lx as [r' ln' col']; simpl in Hrest; subst r'; simpl.
  destruct s as [|c' s]; reflexivity.
Qed.

Lemma tokenize_loop_item (fuel : nat) (lx : Lexer) (tokens : list Token)
    (c : ascii) (s : list ascii) :
  rest lx = c :: s -> is_space c = false ->
  tokenize_loop (S fuel) lx tokens
  = let* (t, lx') := scan_item lx c in
    tokenize_loop fuel lx' (push_token tokens t).
Proof.
  intros Hr Hc; cbn [tokenize_loop]; rewrite Hr.
  rewrite (skip_whitespace_not_space lx c s Hr Hc).
  unfold peek; rewrite Hr; reflexivity.
Qed.

Lemma scan_item_digit (lx : Lexer) (d : ascii) :
  isdigit d = true ->
  scan_item lx d = let* (t, lx') := read_number lx in Ok (Some t, lx').
Proof.
  intros Hd; destruct (isdigit_class d Hd) as (_ & _ & Hc & Hlt & _).
  unfold scan_item; rewrite Hc, Hlt, Hd; reflexivity.
Qed.

Lemma read_name_loop_upper (p : list ascii) (u : ascii) (r : list ascii)
    (ln col : nat) :
  forallb ident_char p = true -> isupper u = true ->
  read_name_loop (p ++ u :: r) ln col
  = Err (LexerError (InvalidCharacter u) ln (col + length p)).
Proof.
  revert col; induction p as [|a p IH]; intros col Hp Hu; simpl.
  - destruct (isupper_class u Hu) as (_ & _ & _ & Ha & _).
    rewrite Ha, Hu; simpl; unfold lexer_error; simpl.
    rewrite Nat.add_0_r; reflexivity.
  - simpl in Hp; apply andb_prop in Hp as [Ha Hp].
    destruct (ident_char_class a Ha) as (Hal & Hup & Hnl).
    rewrite Hal, Hup, (advance_not_newline a _ ln col Hnl); simpl.
    rewrite (IH (S col) Hp Hu); simpl.
    rewrite Nat.add_succ_r; reflexivity.
Qed.

(** An uppercase letter where a token would start. *)
Lemma uppercase_at_start (lx : Lexer) (tokens : list Token) (u : ascii)
    (r : list ascii) :
  isupper u = true -> rest lx = u :: r ->
  tokenize_from lx tokens
  = Err (LexerError (UnexpectedCharacter u) (cur_line lx) (cur_column lx)).
Proof.
  intros Hu Hr.
  destruct (isupper_class u Hu) as (Hsp & Hd & Hl & _ & Hp & Hc & Hlt).
  rewrite (tokenize_from_item lx tokens u r Hr Hsp).
  unfold scan_item; rewrite Hc, Hlt, Hd, Hl, Hp; reflexivity.
Qed.

(** An uppercase letter after the lowercase start [c0] and the further
    characters [p] of a name. *)
Lemma uppercase_in_name (lx : Lexer) (tokens : list Token) (u : ascii)
    (r : list ascii) (c0 : ascii) (p : list ascii) :
  isupper u = true -> rest lx = c0 :: p ++ u :: r ->
  islower c0 = true -> forallb ident_char p = true ->
  tokenize_from lx tokens
  = Err (LexerError (InvalidCharacter u) (cur_line lx)
                    (cur_column lx + 1 + length p)).
Proof.
  intros Hu Hr Hc0 Hpp.
  destruct (islower_class c0 Hc0) as (Hsp0 & Hd0 & _ & Hnl0 & Hc0' & Hlt0).
  rewrite (tokenize_from_item lx tokens c0 _ Hr Hsp0).
  unfold scan_item; rewrite Hc0', Hlt0, Hd0, Hc0; simpl.
  unfold read_name, advance; rewrite Hr, Hnl0; simpl.
  rewrite (read_name_loop_upper p u r _ _ Hpp Hu); simpl.
  do 2 f_equal; lia.
Qed.

(** ** Declarations and references *)

Lemma declared_app (a b : list ASTNode) :
  declared (a ++ b) = declared a ++ declared b.
Proof.
  induction a as [|node a IH]; simpl; [reflexivity|].
  destruct node; simpl; rewrite IH; reflexivity.
Qed.

Lemma evaluate_statements_app (globals : list string) (st : Env * dict Value)
    (a b : list ASTNode) :
  evaluate_statements_in globals st (a ++ b)
  = let* st' := evaluate_statements_in globals st a in
    evaluate_statements_in globals st' b.
Proof.
  revert st; induction a as [|node a IH]; intros st; simpl; [reflexivity|].
  destruct (evaluate_statement_in globals st node) as [st'|e]; simpl;
    [apply IH | reflexivity].
Qed.

(** A loop that gets through a node has found the class. *)
Lemma evaluate_statement_in_ok (globals : list string)
    (st st' : Env * dict Value) (node : ASTNode) :
  evaluate_statement_in globals st node = Ok st' ->
  lookup_global globals "ConstDeclarationNode" = Ok tt.
Proof.
  destruct st as [constants results]; unfold evaluate_statement_in.
  destruct (lookup_global_cases globals "ConstDeclarationNode") as [H|H];
    rewrite H; [reflexivity | discriminate].
Qed.

Lemma evaluate_statement_declaration (globals : list string) (constants : Env)
    (results : dict Value) (name : string) (val : ASTNode) :
  lookup_global globals "ConstDeclarationNode" = Ok tt ->
  evaluate_statement_in globals (constants, results)
    (ConstDeclarationNode name val)
  = let* v := evaluate_node constants val in
    Ok (<[name := v]> constants, dict_set results name v).
Proof. intros Hg; unfold evaluate_statement_in; rewrite Hg; reflexivity. Qed.

Lemma evaluate_statement_bare (globals : list string) (constants : Env)
    (results : dict Value) (node : ASTNode) :
  lookup_global globals "ConstDeclarationNode" = Ok tt ->
  is_declaration node = false ->
  evaluate_statement_in globals (constants, results) node
  = let* v := evaluate_node constants node in
    Ok (constants,
        dict_set results ("unnamed_" +:+ str_of_nat (length results)) v).
Proof.
  intros Hg; unfold evaluate_statement_in; rewrite Hg.
  destruct node; intros H; try reflexivity; discriminate.
Qed.

(** A statement changes the constants only at the name it declares. *)
Lemma evaluate_statement_constants (globals : list string)
    (st st' : Env * dict Value) (node : ASTNode) (n : string) :
  evaluate_statement_in globals st node = Ok st' ->
  ~ In n (declared [node]) -> fst st' !! n = fst st !! n.
Proof.
  intros Hev Hn.
  pose proof (evaluate_statement_in_ok _ _ _ _ Hev) as Hg.
  destruct st as [constants results].
  destruct (is_declaration node) eqn:Hd.
  - destruct node; try discriminate.
    rewrite (evaluate_statement_declaration _ _ _ _ _ Hg) in Hev.
    destruct (evaluate_node constants node) as [v|e]; simpl in Hev;
      inversion Hev; subst; simpl.
    apply lookup_insert_ne; intros ->; apply Hn; left; reflexivity.
  - rewrite (evaluate_statement_bare _ _ _ _ Hg Hd) in Hev.
    destruct (evaluate_node constants node) as [v|e]; simpl in Hev;
      inversion Hev; subst; reflexivity.
Qed.

Lemma evaluate_statements_constants (globals : list string)
    (st st' : Env * dict Value) (nodes : list ASTNode) (n : string) :
  evaluate_statements_in globals st nodes = Ok st' ->
  ~ In n (declared nodes) -> fst st' !! n = fst st !! n.
Proof.
  revert st; induction nodes as [|node nodes IH]; intros st Hev Hn;
    simpl in Hev.
  - inversion Hev; reflexivity.
  - destruct (evaluate_statement_in globals st node) as [st1|e] eqn:H1;
      simpl in Hev; [|discriminate].
    change (node :: nodes) with ([node] ++ nodes) in Hn.
    rewrite declared_app in Hn.
    rewrite (IH st1 Hev) by (intros Hin; apply Hn, in_or_app; right; exact Hin).
    apply (evaluate_statement_constants globals st st1 node n H1).
    intros Hin; apply Hn, in_or_app; left; exact Hin.
Qed.

(** Every name declared so far is bound. *)
Lemma evaluate_statements_declared (globals : list string)
    (st st' : Env * dict Value) (nodes : list ASTNode) (n : string) :
  evaluate_statements_in globals st nodes = Ok st' ->
  In n (declared nodes) -> is_Some (fst st' !! n).
Proof.
  revert st; induction nodes as [|node nodes IH]; intros st Hev Hn;
    simpl in Hev; [destruct Hn|].
  destruct (evaluate_statement_in globals st node) as [st1|e] eqn:H1;
    simpl in Hev; [|discriminate].
  destruct (in_dec String.string_dec n (declared nodes)) as [Hin|Hout];
    [exact (IH st1 Hev Hin)|].
  rewrite (evaluate_statements_constants globals st1 st' nodes n Hev Hout).
  destruct node; simpl in Hn; try contradiction.
  destruct Hn as [->|Hn]; [|contradiction].
  pose proof (evaluate_statement_in_ok _ _ _ _ H1) as Hg.
  destruct st as [constants results].
  rewrite (evaluate_statement_declaration _ _ _ _ _ Hg) in H1.
  destruct (evaluate_node constants node) as [v|e]; simpl in H1;
    inversion H1; subst; simpl.
  rewrite lookup_insert_eq; eexists; reflexivity.
Qed.

(** The value a reference resolves to after the last declaration of [n]. *)
Lemma evaluate_statements_latest (globals : list string)
    (st st' : Env * dict Value) (p1 p2 : list ASTNode) (n : string)
    (e : ASTNode) :
  evaluate_statements_in globals st (p1 ++ ConstDeclarationNode n e :: p2)
  = Ok st' ->
  ~ In n (declared p2) ->
  exists st1 v,
    evaluate_statements_in globals st p1 = Ok st1
    /\ evaluate_node (fst st1) e = Ok v
    /\ fst st' !! n = Some v.
Proof.
  intros Hev Hn; rewrite evaluate_statements_app in Hev.
  destruct (evaluate_statements_in globals st p1) as [[constants results]|err];
    cbn [rbind evaluate_statements_in] in Hev; [|discriminate].
  destruct (evaluate_statement_in globals (constants, results)
              (ConstDeclarationNode n e)) as [st1|err] eqn:H1;
    cbn [rbind] in Hev; [|discriminate].
  pose proof (evaluate_statement_in_ok _ _ _ _ H1) as Hg.
  rewrite (evaluate_statement_declaration _ _ _ _ _ Hg) in H1.
  destruct (evaluate_node constants e) as [v|err] eqn:He; simpl in H1;
    [|discriminate].
  inversion H1; subst st1; clear H1.
  exists (constants, results), v; repeat split; [exact He|].
  rewrite (evaluate_statements_constants _ _ st' p2 n Hev Hn); simpl.
  apply lookup_insert_eq.
Qed.

(** C4: [evaluate_all] resolves no reference: the class it tells the
    declarations by, [ConstDeclarationNode], is not bound in the module, so
    that the loop stops at the first node of any program with [NameError].
    What the claim says is what the loop does in a namespace [globals] that
    binds the class.  After the statements [pre] have been evaluated from
    the empty environment, a reference to [n] (a Name node, or a NAME token
    of a constant expression) fails with UnknownConstant exactly when no
    statement of [pre] declares [n]; a program that refers to [n] before any
    declaration of it fails with that error; and when [pre] declares [n],
    the reference resolves to the value of the last declaration of [n]. *)
Theorem reference_resolution (globals : list string) (pre : list ASTNode)
    (constants : Env) (results : dict Value) (n : string) :
  evaluate_statements_in globals (∅, []) pre = Ok (constants, results) ->
  (forall env node nodes,
      evaluate_all env (node :: nodes)
      = Err (NameError "ConstDeclarationNode"))
  /\ (pre <> [] -> lookup_global globals "ConstDeclarationNode" = Ok tt)
  /\ (evaluate_node constants (NameNode n)
      = Err (EvaluationError (UnknownConstant n) None)
      <-> ~ In n (declared pre))
  /\ (forall token stack,
         type token = NAME -> value token = TStr n -> n <> "sort" ->
         (eval_token constants token stack
          = Err (EvaluationError (UnknownConstant n) (Some token))
          <-> ~ In n (declared pre)))
  /\ (forall post,
         lookup_global globals "ConstDeclarationNode" = Ok tt ->
         ~ In n (declared pre) ->
         evaluate_all_in globals ∅ (pre ++ NameNode n :: post)
         = Err (EvaluationError (UnknownConstant n) None))
  /\ (forall p1 e p2,
         pre = p1 ++ ConstDeclarationNode n e :: p2 ->
         ~ In n (declared p2) ->
         exists constants1 results1 v,
           evaluate_statements_in globals (∅, []) p1
           = Ok (constants1, results1)
           /\ evaluate_node constants1 e = Ok v
           /\ evaluate_node constants (NameNode n) = Ok v
           /\ forall token stack,
               type token = NAME -> value token = TStr n -> n <> "sort" ->
               eval_token constants token stack = Ok (v :: stack)).
Proof.
  intros Hev.
  assert (Hlook : constants !! n = None <-> ~ In n (declared pre)).
  { split.
    - intros Hnone Hin.
      destruct (evaluate_statements_declared _ _ _ pre n Hev Hin) as [v Hv].
      simpl in Hv; congruence.
    - intros Hout.
      rewrite <- (lookup_empty (M := gmap string) (A := Value) n).
      exact (evaluate_statements_constants _ _ _ pre n Hev Hout). }
  assert (Htok : forall token stack,
             type token = NAME -> value token = TStr n -> n <> "sort" ->
             eval_token constants token stack
             = match constants !! n with
               | None => eval_error (UnknownConstant n) token
               | Some v => Ok (v :: stack)
               end).
  { intros token stack Hty Hval Hs; unfold eval_token, token_str.
    rewrite Hty, Hval; simpl.
    destruct (String.eqb_spec n "sort"); [contradiction | reflexivity]. }
  split; [|split; [|split; [|split; [|split]]]].
  - intros env node nodes; apply evaluate_all_nonempty.
  - intros Hne; destruct pre as [|node pre]; [contradiction|].
    cbn [evaluate_statements_in] in Hev.
    destruct (evaluate_statement_in globals (∅, []) node) as [st1|e] eqn:H1;
      [|discriminate].
    exact (evaluate_statement_in_ok _ _ _ _ H1).
  - rewrite <- Hlook; simpl.
    destruct (constants !! n); split; intros H;
      try reflexivity; discriminate.
  - intros token stack Hty Hval Hs.
    rewrite (Htok token stack Hty Hval Hs), <- Hlook.
    destruct (constants !! n); split; intros H;
      try reflexivity; discriminate.
  - intros post Hg Hout; unfold evaluate_all_in.
    rewrite evaluate_statements_app, Hev; cbn [rbind evaluate_statements_in].
    rewrite (evaluate_statement_bare _ _ _ (NameNode n) Hg eq_refl).
    cbn [evaluate_node]; rewrite (proj2 Hlook Hout); reflexivity.
  - intros p1 e p2 -> Hout.
    destruct (evaluate_statements_latest _ _ _ p1 p2 n e Hev Hout)
      as ([constants1 results1] & v & H1 & He & Hv); simpl in *.
    exists constants1, results1, v; repeat split; try assumption.
    + rewrite Hv; reflexivity.
    + intros token stack Hty Hval Hs.
      rewrite (Htok token stack Hty Hval Hs), Hv; reflexivity.
Qed.

Lemma reference_resolution_witness :
  evaluate_all ∅ [ConstDeclarationNode "x" (NumberNode 1); NameNode "x"]
  = Err (NameError "ConstDeclarationNode")
  /\ evaluate_all_in ("ConstDeclarationNode" :: evaluator_globals) ∅
       ([ConstDeclarationNode "x" (NumberNode 1)]
        ++ NameNode "y" :: [ConstDeclarationNode "y" (NumberNode 2)])
     = Err (EvaluationError (UnknownConstant "y") None)
  /\ exists constants1 results1 v,
       evaluate_statements_in ("ConstDeclarationNode" :: evaluator_globals)
         (∅, []) [ConstDeclarationNode "x" (NumberNode 1)]
       = Ok (constants1, results1)
       /\ evaluate_node constants1 (NumberNode 2) = Ok v
       /\ evaluate_node (<["x" := VNum 2]> (<["x" := VNum 1]> ∅))
            (NameNode "x") = Ok v
       /\ forall token stack,
           type token = NAME -> value token = TStr "x" -> "x" <> "sort" ->
           eval_token (<["x" := VNum 2]> (<["x" := VNum 1]> ∅)) token stack
           = Ok (v :: stack).
Proof.
  split; [|split].
  - apply (proj1 (reference_resolution evaluator_globals [] ∅ [] "x" eq_refl)).
  - apply (proj1 (proj2 (proj2 (proj2 (proj2 (reference_resolution
             ("ConstDeclarationNode" :: evaluator_globals)
             [ConstDeclarationNode "x" (NumberNode 1)]
             (<["x" := VNum 1]> ∅) [("x", VNum 1)] "y" eq_refl)))))).
    + reflexivity.
    + simpl; intros [H|[]]; discriminate.
  - apply (proj2 (proj2 (proj2 (proj2 (proj2 (reference_resolution
             ("ConstDeclarationNode" :: evaluator_globals)
             [ConstDeclarationNode "x" (NumberNode 1);
              ConstDeclarationNode "x" (NumberNode 2)]
             (<["x" := VNum 2]> (<["x" := VNum 1]> ∅))
             [("x", VNum 2)] "x" eq_refl)))))
             [ConstDeclarationNode "x" (NumberNode 1)] (NumberNode 2) []);
      [reflexivity | simpl; tauto].
Defined.

(** ** Numeric literals *)

Lemma span_digits_spec (s : list ascii) :
  let '(ds, r) := span_digits s in
  s = ds ++ r /\ forallb isdecimal ds = true /\ stops isdecimal r.
Proof.
  induction s as [|c s IH]; simpl; [repeat split|].
  destruct (isdecimal c) eqn:Hc.
  - destruct (span_digits s) as [ds r]; destruct IH as (-> & Hds & Hr).
    simpl; rewrite Hc; repeat split; assumption.
  - simpl; repeat split; assumption.
Qed.

Lemma span_digits_app (ds t : list ascii) :
  forallb isdecimal ds = true -> stops isdecimal t ->
  span_digits (ds ++ t) = (ds, t).
Proof.
  intros Hds Ht; induction ds as [|d ds IH]; simpl.
  - destruct t as [|c t]; simpl in *; [reflexivity | rewrite Ht; reflexivity].
  - simpl in Hds; apply andb_prop in Hds as [Hd Hds].
    rewrite Hd, (IH Hds); reflexivity.
Qed.

Lemma read_digits_app (ds t : list ascii) (ln col : nat) :
  forallb isdigit ds = true -> stops isdigit t ->
  read_digits (ds ++ t) ln col = (ds, mkLexer t ln (col + length ds)).
Proof.
  revert col; induction ds as [|d ds IH]; intros col Hds Ht; simpl.
  - rewrite Nat.add_0_r.
    destruct t as [|c t]; simpl in *; [reflexivity | rewrite Ht; reflexivity].
  - simpl in Hds; apply andb_prop in Hds as [Hd Hds].
    destruct (isdigit_class d Hd) as (_ & Hnl & _).
    rewrite Hd, (advance_not_newline d _ ln col Hnl); simpl.
    rewrite (IH (S col) Hds Ht), Nat.add_succ_r; reflexivity.
Qed.

(** The shape of a numeric literal: [ip] or [ip ++ "." ++ fp]. *)
Lemma is_numeric_literal_shape (N : string) :
  is_numeric_literal N = true ->
  exists d ip tail,
    list_ascii_of_string N = (d :: ip) ++ tail
    /\ forallb isdecimal (d :: ip) = true
    /\ (tail = [] \/ exists fp, tail = "."%char :: fp
                                /\ forallb isdecimal fp = true).
Proof.
  unfold is_numeric_literal; intros H.
  pose proof (span_digits_spec (list_ascii_of_string N)) as Hs.
  destruct (span_digits (list_ascii_of_string N)) as [ip r].
  destruct Hs as (HN & Hip & _).
  apply andb_prop in H as [Hne Hr].
  destruct ip as [|d ip]; [discriminate|].
  exists d, ip, r; split; [exact HN | split; [exact Hip|]].
  destruct r as [|c fp]; [left; reflexivity | right].
  apply andb_prop in Hr as [Hc Hfp].
  apply Ascii.eqb_eq in Hc as ->.
  exists fp; split; [reflexivity | exact Hfp].
Qed.

Lemma string_of_list_ascii_app (a b : list ascii) :
  string_of_list_ascii (a ++ b)
  = string_of_list_ascii a +:+ string_of_list_ascii b.
Proof. induction a as [|c a IH]; simpl; [|rewrite IH]; reflexivity. Qed.

Lemma list_ascii_of_string_app (a b : string) :
  list_ascii_of_string (a +:+ b)
  = list_ascii_of_string a ++ list_ascii_of_string b.
Proof. induction a as [|c a IH]; simpl; [|rewrite IH]; reflexivity. Qed.

(** [float] on the two shapes of a literal. *)
Lemma py_float_integer (ip : list ascii) :
  ip <> [] -> forallb isdecimal ip = true ->
  py_float (string_of_list_ascii ip)
  = Some (nearest_float (digits_value 0 ip) 1).
Proof.
  intros Hne Hip; unfold py_float.
  rewrite list_ascii_of_string_of_list_ascii.
  rewrite <- (app_nil_r ip) at 1.
  rewrite (span_digits_app ip [] Hip I).
  destruct ip; [contradiction | reflexivity].
Qed.

Lemma py_float_fraction (ip fp : list ascii) :
  ip <> [] -> forallb isdecimal ip = true -> forallb isdecimal fp = true ->
  py_float (string_of_list_ascii (ip ++ "."%char :: fp))
  = Some (nearest_float (digits_value 0 (ip ++ fp))
                        (10 ^ Z.of_nat (length fp))).
Proof.
  intros Hne Hip Hfp; unfold py_float.
  rewrite list_ascii_of_string_of_list_ascii.
  rewrite (span_digits_app ip ("."%char :: fp) Hip) by reflexivity.
  destruct ip; [contradiction|].
  cbn [ascii_eqb Ascii.eqb Bool.eqb].
  rewrite <- (app_nil_r fp) at 1.
  rewrite (span_digits_app fp [] Hfp I); reflexivity.
Qed.

(** [read_number] on the two shapes of a literal, followed by text that
    cannot continue it. *)
Lemma read_number_integer (ip t : list ascii) (ln col : nat) (v : float) :
  forallb isdigit ip = true ->
  stops (fun c => isdigit c || ascii_eqb c ".") t ->
  py_float (string_of_list_ascii ip) = Some v ->
  read_number (mkLexer (ip ++ t) ln col)
  = Ok (mkToken NUMBER (TNum v) ln col, mkLexer t ln (col + length ip)).
Proof.
  intros Hip Ht Hv; unfold read_number; cbn [rest cur_line cur_column].
  assert (Hd : stops isdigit t)
    by (destruct t; simpl in *; [exact I | apply orb_false_elim in Ht; tauto]).
  rewrite (read_digits_app ip t ln col Hip Hd).
  unfold peek; cbn [rest].
  destruct t as [|c t]; cbn [nth_error].
  - rewrite Hv; reflexivity.
  - simpl in Ht; apply orb_false_elim in Ht as [_ Hdot].
    rewrite Hdot, Hv; reflexivity.
Qed.

Lemma read_number_fraction (ip fp t : list ascii) (ln col : nat) (v : float) :
  forallb isdigit ip = true -> forallb isdigit fp = true ->
  stops isdigit t ->
  py_float (string_of_list_ascii (ip ++ "."%char :: fp)) = Some v ->
  read_number (mkLexer (ip ++ "."%char :: fp ++ t) ln col)
  = Ok (mkToken NUMBER (TNum v) ln col,
        mkLexer t ln (col + length (ip ++ "."%char :: fp))).
Proof.
  intros Hip Hfp Ht Hv; unfold read_number; cbn [rest cur_line cur_column].
  rewrite (read_digits_app ip _ ln col Hip) by reflexivity.
  unfold peek; cbn [rest nth_error].
  cbn [ascii_eqb Ascii.eqb Bool.eqb].
  rewrite (advance_not_newline "." _ ln _ eq_refl).
  cbn [rest cur_line cur_column].
  rewrite (read_digits_app fp t ln _ Hfp Ht), Hv.
  do 3 f_equal; rewrite length_app; simpl; lia.
Qed.

Lemma length_list_ascii_of_string (s : string) :
  length (list_ascii_of_string s) = String.length s.
Proof. induction s as [|c s IH]; simpl; [|rewrite IH]; reflexivity. Qed.

(** [read_number] at a numeric literal followed by a semicolon. *)
Lemma read_number_literal (N : string) (r : list ascii) (ln col : nat) :
  is_numeric_literal N = true ->
  exists v,
    py_float N = Some v
    /\ read_number (mkLexer (list_ascii_of_string N ++ ";"%char :: r) ln col)
       = Ok (mkToken NUMBER (TNum v) ln col,
             mkLexer (";"%char :: r) ln (col + String.length N)).
Proof.
  intros HN.
  destruct (is_numeric_literal_shape N HN) as (d & ip & tail & HNl & Hip & Ht).
  rewrite <- (length_list_ascii_of_string N).
  pose proof (string_of_list_ascii_of_string N) as HNs.
  rewrite HNl in *; clear HNl HN; subst N.
  destruct Ht as [->|(fp & -> & Hfp)].
  - rewrite app_nil_r.
    exists (nearest_float (digits_value 0 (d :: ip)) 1).
    assert (Hv := py_float_integer (d :: ip) ltac:(discriminate) Hip).
    split; [exact Hv|].
    apply read_number_integer;
      [exact (isdecimal_digits _ Hip) | reflexivity | exact Hv].
  - eexists.
    assert (Hv := py_float_fraction (d :: ip) fp ltac:(discriminate) Hip Hfp).
    split; [exact Hv|].
    rewrite <- (read_number_fraction (d :: ip) fp (";"%char :: r) ln col _
                  (isdecimal_digits _ Hip) (isdecimal_digits _ Hfp)
                  eq_refl Hv).
    rewrite <- app_assoc; reflexivity.
Qed.

(** C1: for every numeric literal [N] (decimal digits, optionally a dot and
    further digits, a trailing dot included), [float(N)] is defined and the
    program [x <- N;] lexes to NAME, ASSIGN, NUMBER, SEMICOLON, EOF and
    parses to the declaration of [x] with that float.  It is not evaluated:
    [evaluate_all] raises [NameError] at the declaration, because
    [ConstDeclarationNode] is not bound in the module, and [translate]
    reports an unexpected error.  In a namespace that binds the class the
    program translates to the mapping of [x] to [float(N)]. *)
Theorem numeric_literal_declaration (N : string) :
  is_numeric_literal N = true ->
  exists v,
    py_float N = Some v
    /\ tokenize ("x <- " +:+ N +:+ ";")
       = Ok [mkToken NAME (TStr "x") 1 1;
             mkToken ASSIGN (TStr "<-") 1 3;
             mkToken NUMBER (TNum v) 1 6;
             mkToken SEMICOLON (TStr ";") 1 (6 + String.length N);
             mkToken EOF TNone 1 (7 + String.length N)]
    /\ parse_text ("x <- " +:+ N +:+ ";")
       = Ok [ConstDeclarationNode "x" (NumberNode v)]
    /\ translate ("x <- " +:+ N +:+ ";")
       = Err (mkTranslationError Unexpected
                (NameError "ConstDeclarationNode"))
    /\ (forall globals,
           lookup_global globals "ConstDeclarationNode" = Ok tt ->
           translate_in globals ("x <- " +:+ N +:+ ";") = Ok [("x", VNum v)]).
Proof.
  intros HN.
  destruct (read_number_literal N [] 1 6 HN) as (v & Hv & Hread).
  exists v; split; [exact Hv|].
  assert (Hd : exists d l, list_ascii_of_string N = d :: l
                           /\ isdigit d = true).
  { destruct (is_numeric_literal_shape N HN) as (d & ip & tail & HNl & Hip & _).
    exists d, (ip ++ tail); split; [exact HNl|].
    simpl in Hip; apply andb_prop in Hip as [Hd _].
    exact (isdecimal_isdigit d Hd). }
  destruct Hd as (d & l & Hl & Hdig).
  destruct (isdigit_class d Hdig) as (Hsp & _ & Hc & Hlt & _).
  assert (Htok : tokenize ("x <- " +:+ N +:+ ";")
                 = Ok [mkToken NAME (TStr "x") 1 1;
                       mkToken ASSIGN (TStr "<-") 1 3;
                       mkToken NUMBER (TNum v) 1 6;
                       mkToken SEMICOLON (TStr ";") 1 (6 + String.length N);
                       mkToken EOF TNone 1 (7 + String.length N)]).
  { unfold tokenize, tokenize_from, Lexer_init.
    rewrite !list_ascii_of_string_app.
    change (list_ascii_of_string ";") with [";"%char].
    change (list_ascii_of_string "x <- ")
      with ["x"; " "; "<"; "-"; " "]%char.
    cbn [app rest length].
    set (t := list_ascii_of_string N ++ [";"%char]).
    (* x *)
    rewrite (tokenize_loop_item _ _ _ "x" (" " :: "<" :: "-" :: " " :: t)%char)
      by reflexivity.
    change (scan_item _ "x")
      with (Ok (E := Exception)
              (Some (mkToken NAME (TStr "x") 1 1),
               mkLexer (" " :: "<" :: "-" :: " " :: t)%char 1 2)).
    cbn [rbind push_token app].
    rewrite (tokenize_loop_space _ _ _ " " ("<" :: "-" :: " " :: t)%char)
      by reflexivity.
    change (advance_ _) with (mkLexer ("<" :: "-" :: " " :: t)%char 1 3).
    (* <- *)
    rewrite (tokenize_loop_item _ _ _ "<" ("-" :: " " :: t)%char)
      by reflexivity.
    change (scan_item _ "<")
      with (Ok (E := Exception)
              (Some (mkToken ASSIGN (TStr "<-") 1 3),
               mkLexer (" "%char :: t) 1 5)).
    cbn [rbind push_token app].
    rewrite (tokenize_loop_space _ _ _ " " t) by reflexivity.
    change (advance_ _) with (mkLexer t 1 6).
    (* the literal *)
    unfold t; rewrite Hl; cbn [app].
    rewrite (tokenize_loop_item _ _ _ d (l ++ [";"%char])) by auto.
    rewrite (scan_item_digit _ d Hdig).
    change (d :: l ++ [";"%char]) with ((d :: l) ++ [";"%char]).
    rewrite <- Hl, Hread; cbn [rbind push_token app].
    (* ; *)
    rewrite (tokenize_loop_item _ _ _ ";" []) by reflexivity.
    change (scan_item _ ";")
      with (Ok (E := Exception)
              (Some (mkToken SEMICOLON (TStr ";") 1 (6 + String.length N)),
               mkLexer [] 1 (S (6 + String.length N)))).
    cbn [rbind push_token app].
    rewrite length_app; cbn [length]; rewrite Nat.add_1_r.
    rewrite tokenize_loop_end by reflexivity.
    reflexivity. }
  assert (Hparse : parse_text ("x <- " +:+ N +:+ ";")
                   = Ok [ConstDeclarationNode "x" (NumberNode v)])
    by (unfold parse_text; rewrite Htok; reflexivity).
  split; [exact Htok | split; [exact Hparse | split]].
  - exact (translate_parsed _ _ _ Hparse).
  - intros globals Hg; unfold translate_in; rewrite Htok, Hparse.
    cbn [rbind]; unfold evaluate_all_in; cbn [evaluate_statements_in].
    rewrite (evaluate_statement_declaration _ _ _ _ _ Hg); reflexivity.
Qed.

Lemma numeric_literal_declaration_witness :
  is_numeric_literal "42.0" = true
  /\ is_numeric_literal "10." = true
  /\ parse_text "x <- 42.0;" = Ok [ConstDeclarationNode "x" (NumberNode 42)]
  /\ translate "x <- 42.0;"
     = Err (mkTranslationError Unexpected (NameError "ConstDeclarationNode"))
  /\ translate_in ("ConstDeclarationNode" :: evaluator_globals) "x <- 42.0;"
     = Ok [("x", VNum 42)]
  /\ translate_in ("ConstDeclarationNode" :: evaluator_globals) "x <- 10.;"
     = Ok [("x", VNum 10)].
Proof.
  split; [reflexivity | split; [reflexivity|]].
  destruct (numeric_literal_declaration "42.0" eq_refl)
    as (v & Hv & _ & Hp & Ht & Hin).
  vm_compute in Hv; injection Hv as <-.
  split; [exact Hp | split; [exact Ht | split; [|]]].
  { exact (Hin ("ConstDeclarationNode" :: evaluator_globals) eq_refl). }
  destruct (numeric_literal_declaration "10." eq_refl)
    as (v & Hv & _ & _ & _ & Hin').
  vm_compute in Hv; injection Hv as <-.
  exact (Hin' ("ConstDeclarationNode" :: evaluator_globals) eq_refl).
Defined.

(** ** Positions do not matter after lexing

    The parser and the evaluator read the type and the value of a token and
    never its line or column, which only travel into error messages. *)

Lemma eat_erase (ty : TokenType) (ts : list Token) :
  eat ty (map erase ts) = emap (erase_parsed erase) (eat ty ts).
Proof.
  destruct ts as [|t ts]; [reflexivity|]; simpl.
  destruct (TokenType_eqb (type t) ty); reflexivity.
Qed.

Lemma current_type_erase (ts : list Token) :
  current_type (map erase ts) = emap id (current_type ts).
Proof. destruct ts; reflexivity. Qed.

Lemma token_str_erase (t : Token) : token_str (erase t) = emap id (token_str t).
Proof. unfold token_str; simpl; destruct (value t); reflexivity. Qed.

Lemma token_float_erase (t : Token) :
  token_float (erase t) = emap id (token_float t).
Proof. unfold token_float; simpl; destruct (value t); reflexivity. Qed.

Lemma parse_error_erase {A B} (f : A -> B) (ts : list Token)
    (m : ParseMessage) :
  parse_error (A := B) (map erase ts) m = emap f (parse_error ts m).
Proof. destruct ts; reflexivity. Qed.

Lemma collect_expression_erase (ts : list Token) (n : nat)
    (expr_tokens : list Token) :
  collect_expression (map erase ts) n (map erase expr_tokens)
  = emap (erase_parsed (map erase)) (collect_expression ts n expr_tokens).
Proof.
  revert n expr_tokens; induction ts as [|t ts IH]; intros n acc;
    [reflexivity|].
  cbn [map collect_expression].
  change (type (erase t)) with (type t).
  destruct (Nat.ltb 0 _).
  - rewrite <- IH, map_app; reflexivity.
  - change (erase t :: map erase ts) with (map erase (t :: ts)).
    rewrite eat_erase; destruct (eat RPAREN (t :: ts)) as [[t' ts']|e];
      reflexivity.
Qed.

Lemma parse_const_expression_erase (ts : list Token) :
  parse_const_expression (map erase ts)
  = emap (erase_parsed erase_node) (parse_const_expression ts).
Proof.
  unfold parse_const_expression.
  rewrite eat_erase; destruct (eat DOT ts) as [[t1 ts1]|e]; [|reflexivity].
  cbn [emap rbind erase_parsed fst snd].
  rewrite eat_erase; destruct (eat LPAREN ts1) as [[t2 ts2]|e]; [|reflexivity].
  cbn [emap rbind erase_parsed fst snd].
  change (@nil Token) with (map erase []) at 1.
  rewrite collect_expression_erase.
  destruct (collect_expression ts2 1 []) as [[expr ts3]|e]; [|reflexivity].
  cbn [emap rbind erase_parsed fst snd].
  destruct ts3 as [|t ts3]; [reflexivity|].
  cbn [map]; change (type (erase t)) with (type t).
  destruct (TokenType_eqb (type t) DOT); [|reflexivity].
  change (erase t :: map erase ts3) with (map erase (t :: ts3)).
  rewrite eat_erase; destruct (eat DOT (t :: ts3)) as [[t' ts']|e];
    reflexivity.
Qed.

Lemma dict_set_map {V W} (f : V -> W) (d : dict V) (k : string) (v : V) :
  dict_set (map (fun kv => (fst kv, f (snd kv))) d) k (f v)
  = map (fun kv => (fst kv, f (snd kv))) (dict_set d k v).
Proof.
  induction d as [|[k' v'] d IH]; [reflexivity|]; simpl.
  destruct (String.eqb k' k); simpl; [|rewrite IH]; reflexivity.
Qed.

Tactic Notation "erase_step" constr(r) "as" ident(x) ident(y) :=
  destruct r as [[x y]|?];
  [cbn [emap rbind erase_parsed fst snd] | reflexivity].

Tactic Notation "erase_type" constr(ts) "as" ident(ty) :=
  rewrite (current_type_erase ts);
  destruct (current_type ts) as [ty|?];
  [cbn [emap rbind id] | reflexivity].

Lemma parse_value_erase_all (fuel : nat) :
  (forall ts,
      parse_value fuel (map erase ts)
      = emap (erase_parsed erase_node) (parse_value fuel ts))
  /\ (forall ts,
         parse_array fuel (map erase ts)
         = emap (erase_parsed erase_node) (parse_array fuel ts))
  /\ (forall ts elements,
         parse_array_loop fuel (map erase ts) (map erase_node elements)
         = emap (erase_parsed (map erase_node))
             (parse_array_loop fuel ts elements))
  /\ (forall ts,
         parse_dict fuel (map erase ts)
         = emap (erase_parsed erase_node) (parse_dict fuel ts))
  /\ (forall ts pairs,
         parse_dict_loop fuel (map erase ts) (erase_pairs pairs)
         = emap (erase_parsed erase_pairs) (parse_dict_loop fuel ts pairs)).
Proof.
  induction fuel as [|fuel (IHv & IHa & IHal & IHd & IHdl)];
    [repeat split; reflexivity|].
  split; [|split; [|split; [|split]]].
  - (* parse_value *)
    intros [|t ts]; [reflexivity|].
    cbn [map parse_value]; change (type (erase t)) with (type t).
    change (erase t :: map erase ts) with (map erase (t :: ts)).
    destruct (type t); try (apply parse_error_erase).
    + rewrite token_float_erase; destruct (token_float t); reflexivity.
    + rewrite token_str_erase; destruct (token_str t); reflexivity.
    + apply IHa.
    + apply IHd.
    + apply parse_const_expression_erase.
  - (* parse_array *)
    intros ts; cbn [parse_array].
    rewrite eat_erase; erase_step (eat LBRACKET ts) as t1 ts1.
    erase_type ts1 as ty.
    destruct (TokenType_eqb ty RBRACKET).
    + rewrite eat_erase; erase_step (eat RBRACKET ts1) as t2 ts2; reflexivity.
    + change (@nil ASTNode) with (map erase_node []) at 1.
      rewrite IHal; erase_step (parse_array_loop fuel ts1 []) as els ts2.
      rewrite eat_erase; erase_step (eat RBRACKET ts2) as t3 ts3; reflexivity.
  - (* parse_array_loop *)
    intros ts elements; cbn [parse_array_loop].
    rewrite IHv; erase_step (parse_value fuel ts) as v ts1.
    erase_type ts1 as ty.
    destruct (TokenType_eqb ty SEMICOLON).
    + rewrite eat_erase; erase_step (eat SEMICOLON ts1) as t2 ts2.
      erase_type ts2 as ty2.
      destruct (TokenType_eqb ty2 RBRACKET).
      * unfold erase_parsed; simpl; rewrite map_app; reflexivity.
      * rewrite <- IHal, map_app; reflexivity.
    + destruct (TokenType_eqb ty RBRACKET).
      * unfold erase_parsed; simpl; rewrite map_app; reflexivity.
      * apply parse_error_erase.
  - (* parse_dict *)
    intros ts; cbn [parse_dict].
    rewrite eat_erase; erase_step (eat LBRACE ts) as t1 ts1.
    erase_type ts1 as ty.
    destruct (TokenType_eqb ty RBRACE).
    + rewrite eat_erase; erase_step (eat RBRACE ts1) as t2 ts2; reflexivity.
    + change (@nil (string * ASTNode)) with (erase_pairs []) at 1.
      rewrite IHdl; erase_step (parse_dict_loop fuel ts1 []) as prs ts2.
      rewrite eat_erase; erase_step (eat RBRACE ts2) as t3 ts3; reflexivity.
  - (* parse_dict_loop *)
    intros ts pairs; cbn [parse_dict_loop].
    erase_type ts as ty.
    destruct (negb (TokenType_eqb ty NAME)); [apply parse_error_erase|].
    rewrite eat_erase; erase_step (eat NAME ts) as t1 ts1.
    rewrite token_str_erase; destruct (token_str t1) as [key|e];
      [cbn [emap rbind id] | reflexivity].
    rewrite eat_erase; erase_step (eat EQUALS ts1) as t2 ts2.
    rewrite IHv; erase_step (parse_value fuel ts2) as v ts3.
    erase_type ts3 as ty3.
    rewrite (dict_set_map erase_node).
    destruct (TokenType_eqb ty3 SEMICOLON).
    + rewrite eat_erase; erase_step (eat SEMICOLON ts3) as t4 ts4.
      erase_type ts4 as ty4.
      destruct (TokenType_eqb ty4 RBRACE); [reflexivity | apply IHdl].
    + destruct (TokenType_eqb ty3 RBRACE);
        [reflexivity | apply parse_error_erase].
Qed.

Lemma parse_statement_erase (fuel : nat) (ts : list Token) :
  parse_statement fuel (map erase ts)
  = emap (erase_parsed erase_node) (parse_statement fuel ts).
Proof.
  destruct (parse_value_erase_all fuel) as (IHv & _).
  unfold parse_statement.
  erase_type ts as ty.
  destruct (TokenType_eqb ty NAME); [|apply IHv].
  rewrite eat_erase; erase_step (eat NAME ts) as t1 ts1.
  erase_type ts1 as ty1.
  destruct (TokenType_eqb ty1 ASSIGN); [|apply IHv].
  rewrite eat_erase; erase_step (eat ASSIGN ts1) as t2 ts2.
  rewrite IHv; erase_step (parse_value fuel ts2) as v ts3.
  rewrite token_str_erase; destruct (token_str t1); reflexivity.
Qed.

Lemma parse_loop_erase (fuel : nat) (ts : list Token)
    (statements : list ASTNode) :
  parse_loop fuel (map erase ts) (map erase_node statements)
  = emap (map erase_node) (parse_loop fuel ts statements).
Proof.
  revert ts statements; induction fuel as [|fuel IH]; intros ts statements;
    [reflexivity|].
  destruct ts as [|t ts]; [reflexivity|].
  cbn [map parse_loop]; change (type (erase t)) with (type t).
  destruct (TokenType_eqb (type t) EOF); [reflexivity|].
  change (erase t :: map erase ts) with (map erase (t :: ts)).
  rewrite length_map, parse_statement_erase.
  erase_step (parse_statement (3 * length (t :: ts)) (t :: ts)) as s ts1.
  change [erase_node s] with (map erase_node [s]).
  rewrite <- (map_app erase_node statements [s]).
  destruct ts1 as [|t1 ts1]; [apply IH|].
  cbn [map]; change (type (erase t1)) with (type t1).
  destruct (TokenType_eqb (type t1) SEMICOLON); [|apply (IH (t1 :: ts1))].
  change (erase t1 :: map erase ts1) with (map erase (t1 :: ts1)).
  rewrite eat_erase; erase_step (eat SEMICOLON (t1 :: ts1)) as t2 ts2.
  apply IH.
Qed.

Lemma parse_erase (tokens : list Token) :
  parse (map erase tokens) = emap (map erase_node) (parse tokens).
Proof.
  unfold parse; rewrite length_map.
  apply (parse_loop_erase _ tokens []).
Qed.

(** [sorted] raises nothing but [TypeError]. *)
Lemma py_lt_error (a b : Value) (e : Exception) :
  py_lt a b = Err e -> e = TypeError.
Proof.
  revert a b e; fix IH 1; intros [x|l1|d1] [y|l2|d2] e; simpl;
    try discriminate; try (intros H; inversion H; reflexivity).
  revert l2; induction l1 as [|a l1 IHl]; intros [|b l2];
    try discriminate.
  destruct (py_eq a b); [apply IHl | apply IH].
Qed.

Lemma sorted_insert_error (x : Value) (l : list Value) (e : Exception) :
  sorted_insert x l = Err e -> e = TypeError.
Proof.
  induction l as [|y l IH]; simpl; [discriminate|].
  destruct (py_lt y x) as [[]|e'] eqn:Hyx; simpl.
  - destruct (sorted_insert x l) as [r|e0]; simpl;
      [discriminate | intros H; inversion H; subst; apply IH; reflexivity].
  - discriminate.
  - intros H; inversion H; subst; apply (py_lt_error _ _ _ Hyx).
Qed.

Lemma sorted_error (l : list Value) (e : Exception) :
  sorted l = Err e -> e = TypeError.
Proof.
  revert e; induction l as [|x l IH]; intros e; simpl; [discriminate|].
  destruct (sorted l) as [r|e']; simpl.
  - apply sorted_insert_error.
  - intros H; inversion H; subst; apply IH; reflexivity.
Qed.

(** The evaluator on erased tokens. *)
Lemma eval_token_erase (constants : Env) (token : Token) (stack : list Value) :
  eval_token constants (erase token) stack
  = emap id (eval_token constants token stack).
Proof.
  unfold eval_token; change (type (erase token)) with (type token).
  destruct (type token); try reflexivity.
  - rewrite token_float_erase; destruct (token_float token); reflexivity.
  - rewrite token_str_erase; destruct (token_str token) as [name|e];
      [cbn [emap rbind id] | reflexivity].
    destruct (String.eqb name "sort").
    + destruct stack as [|[x|items|entries] stack]; try reflexivity.
      destruct (sorted items) as [r|e] eqn:Hs; [reflexivity|].
      rewrite (sorted_error _ _ Hs); reflexivity.
    + destruct (constants !! name); reflexivity.
  - destruct stack as [|b [|a stack]]; try reflexivity.
    destruct a, b; reflexivity.
  - destruct stack as [|b [|a stack]]; try reflexivity.
    destruct a, b; reflexivity.
Qed.

Lemma eval_tokens_erase (constants : Env) (expr_tokens : list Token)
    (stack : list Value) :
  eval_tokens constants (map erase expr_tokens) stack
  = emap id (eval_tokens constants expr_tokens stack).
Proof.
  revert stack; induction expr_tokens as [|t ts IH]; intros stack;
    [reflexivity|].
  cbn [map eval_tokens]; rewrite eval_token_erase.
  destruct (eval_token constants t stack) as [stack'|e];
    [apply IH | reflexivity].
Qed.

Lemma evaluate_expression_erase (constants : Env) (expr_tokens : list Token) :
  evaluate_expression constants (map erase expr_tokens)
  = emap id (evaluate_expression constants expr_tokens).
Proof.
  unfold evaluate_expression; rewrite eval_tokens_erase.
  destruct (eval_tokens constants expr_tokens []) as [stack|e];
    [|reflexivity].
  destruct stack as [|v [|w stack]]; reflexivity.
Qed.

Lemma evaluate_node_erase (constants : Env) (node : ASTNode) :
  evaluate_node constants (erase_node node)
  = emap id (evaluate_node constants node).
Proof.
  induction node as [v|name|elements IH|pairs IH|name val IH|tokens]
    using ASTNode_nested_ind.
  - reflexivity.
  - simpl; destruct (constants !! name); reflexivity.
  - cbn [erase_node evaluate_node].
    match goal with
    | |- rmap VList ?a = emap id (rmap VList ?b) =>
        assert (Hl : a = emap id b); [|rewrite Hl; destruct b; reflexivity]
    end.
    induction IH as [|elem elements Helem _ IHl]; [reflexivity|].
    cbn [map]; rewrite Helem.
    destruct (evaluate_node constants elem) as [v|e]; [|reflexivity].
    cbn [emap rbind id]; rewrite IHl.
    match goal with
    | |- context [emap id ?b] => destruct b; reflexivity
    end.
  - cbn [erase_node evaluate_node].
    match goal with
    | |- rmap VDict ?a = emap id (rmap VDict ?b) =>
        assert (Hl : a = emap id b); [|rewrite Hl; destruct b; reflexivity]
    end.
    induction IH as [|[key val] pairs Hval _ IHl]; [reflexivity|].
    cbn [map fst snd] in *; rewrite Hval.
    destruct (evaluate_node constants val) as [v|e]; [|reflexivity].
    cbn [emap rbind id]; rewrite IHl.
    match goal with
    | |- context [emap id ?b] => destruct b; reflexivity
    end.
  - reflexivity.
  - apply evaluate_expression_erase.
Qed.

Lemma evaluate_statement_erase (globals : list string)
    (st : Env * dict Value) (node : ASTNode) :
  evaluate_statement_in globals st (erase_node node)
  = emap id (evaluate_statement_in globals st node).
Proof.
  destruct st as [constants results].
  destruct (lookup_global_cases globals "ConstDeclarationNode") as [Hg|Hg];
    [|unfold evaluate_statement_in; rewrite Hg; reflexivity].
  destruct (is_declaration node) eqn:Hd.
  - destruct node; try discriminate; cbn [erase_node].
    rewrite !(evaluate_statement_declaration _ _ _ _ _ Hg).
    rewrite evaluate_node_erase.
    destruct (evaluate_node constants node); reflexivity.
  - rewrite !(evaluate_statement_bare _ _ _ _ Hg), evaluate_node_erase;
      [| exact Hd | destruct node; try reflexivity; discriminate].
    destruct (evaluate_node constants node); reflexivity.
Qed.

Lemma evaluate_all_erase (globals : list string) (constants : Env)
    (nodes : list ASTNode) :
  evaluate_all_in globals constants (map erase_node nodes)
  = emap id (evaluate_all_in globals constants nodes).
Proof.
  unfold evaluate_all_in; generalize (constants, @nil (string * Value)).
  induction nodes as [|node nodes IH]; intros st; [reflexivity|].
  cbn [map evaluate_statements_in]; rewrite evaluate_statement_erase.
  destruct (evaluate_statement_in globals st node) as [st'|e];
    [apply IH | reflexivity].
Qed.

(** Token lists that agree up to positions parse alike. *)
Lemma parse_erased (ts ts' : list Token) (nodes : list ASTNode) :
  map erase ts' = map erase ts ->
  parse ts = Ok nodes ->
  exists nodes',
    parse ts' = Ok nodes' /\ map erase_node nodes' = map erase_node nodes.
Proof.
  intros Heq Hts.
  pose proof (parse_erase ts) as H1; pose proof (parse_erase ts') as H2.
  rewrite Heq in H2; rewrite H1 in H2; clear H1.
  rewrite Hts in H2.
  destruct (parse ts') as [nodes'|e']; [|discriminate].
  simpl in H2; inversion H2 as [Hn].
  exists nodes'; split; [reflexivity | symmetry; exact Hn].
Qed.

(** Token lists that agree up to positions translate alike. *)
Lemma evaluate_parse_erased (globals : list string) (ts ts' : list Token)
    (results : dict Value) :
  map erase ts' = map erase ts ->
  (let* nodes := parse ts in evaluate_all_in globals ∅ nodes) = Ok results ->
  (let* nodes := parse ts' in evaluate_all_in globals ∅ nodes) = Ok results.
Proof.
  intros Heq Hts.
  destruct (parse ts) as [nodes|e] eqn:Hp; [|discriminate].
  destruct (parse_erased ts ts' nodes Heq Hp) as (nodes' & -> & Hn).
  cbn [rbind] in *.
  pose proof (evaluate_all_erase globals ∅ nodes) as H1.
  pose proof (evaluate_all_erase globals ∅ nodes') as H2.
  rewrite Hn, H1, Hts in H2.
  destruct (evaluate_all_in globals ∅ nodes') as [r|e]; [|discriminate].
  simpl in H2; inversion H2; reflexivity.
Qed.

(** ** What one item of the text depends on

    Each loop of the lexer stops at the first character that cannot go on
    with the item, and looks no further. *)

Lemma read_digits_inv (s : list ascii) (ln col : nat) :
  exists ds r,
    s = ds ++ r /\ forallb isdigit ds = true /\ stops isdigit r
    /\ read_digits s ln col = (ds, mkLexer r ln (col + length ds)).
Proof.
  assert (H : exists ds r,
             s = ds ++ r /\ forallb isdigit ds = true /\ stops isdigit r).
  { induction s as [|c s IH]; [exists [], []; repeat split|].
    destruct (isdigit c) eqn:Hc.
    - destruct IH as (ds & r & -> & Hds & Hr).
      exists (c :: ds), r; cbn [forallb app]; rewrite Hc, Hds.
      repeat split; exact Hr.
    - exists [], (c :: s); repeat split; exact Hc. }
  destruct H as (ds & r & -> & Hds & Hr).
  exists ds, r; repeat split; try assumption.
  apply read_digits_app; assumption.
Qed.

Lemma read_name_loop_app (cs t : list ascii) (ln col : nat) :
  forallb ident_char cs = true -> stops name_char t ->
  read_name_loop (cs ++ t) ln col = Ok (cs, mkLexer t ln (col + length cs)).
Proof.
  revert col; induction cs as [|a cs IH]; intros col Hcs Ht; simpl.
  - rewrite Nat.add_0_r.
    destruct t as [|c t]; simpl; [reflexivity|].
    simpl in Ht; unfold name_char in Ht; rewrite Ht; reflexivity.
  - simpl in Hcs; apply andb_prop in Hcs as [Ha Hcs].
    destruct (ident_char_class a Ha) as (Hal & Hup & Hnl).
    rewrite Hal, Hup, (advance_not_newline a _ ln col Hnl); simpl.
    rewrite (IH (S col) Hcs Ht), Nat.add_succ_r; reflexivity.
Qed.

Lemma read_name_loop_inv (s : list ascii) (ln col : nat) (cs : list ascii)
    (lx' : Lexer) :
  read_name_loop s ln col = Ok (cs, lx') ->
  s = cs ++ rest lx' /\ forallb ident_char cs = true
  /\ stops name_char (rest lx').
Proof.
  revert ln col cs lx'; induction s as [|a s IH]; intros ln col cs lx' H;
    simpl in H.
  - inversion H; subst; repeat split.
  - destruct (isalnum a || ascii_eqb a "_") eqn:Ha.
    + destruct (isupper a) eqn:Hu; [discriminate|].
      destruct (read_name_loop s _ _) as [[cs0 lx0]|e] eqn:Hrec;
        simpl in H; [|discriminate].
      inversion H; subst; clear H.
      destruct (IH _ _ _ _ Hrec) as (-> & Hcs & Hst).
      repeat split; [|exact Hst].
      simpl; unfold ident_char at 1; rewrite Ha, Hu; exact Hcs.
    + inversion H; subst; repeat split; exact Ha.
Qed.

Lemma skip_to_eol_app (u t : list ascii) (ln col : nat) :
  forallb not_newline u = true -> stops not_newline t ->
  skip_to_eol (u ++ t) ln col = mkLexer t ln (col + length u).
Proof.
  revert col; induction u as [|a u IH]; intros col Hu Ht; simpl.
  - rewrite Nat.add_0_r.
    destruct t as [|c t]; simpl; [reflexivity|].
    simpl in Ht; unfold not_newline in Ht; rewrite Ht; reflexivity.
  - simpl in Hu; apply andb_prop in Hu as [Ha Hu].
    unfold not_newline in Ha; rewrite Ha.
    apply negb_true_iff in Ha.
    rewrite (advance_not_newline a _ ln col Ha); simpl.
    rewrite (IH (S col) Hu Ht), Nat.add_succ_r; reflexivity.
Qed.

Lemma skip_to_eol_inv (s : list ascii) :
  exists u r,
    s = u ++ r /\ forallb not_newline u = true /\ stops not_newline r.
Proof.
  induction s as [|a s (u & r & -> & Hu & Hr)].
  - exists [], []; repeat split.
  - destruct (not_newline a) eqn:Ha.
    + exists (a :: u), r; repeat split; [|exact Hr].
      simpl; rewrite Ha; exact Hu.
    + exists [], (a :: u ++ r); repeat split; exact Ha.
Qed.

(** A block comment ends at the first [#>], whatever follows it. *)
Lemma skip_to_close_frame (s : list ascii) (ln col : nat) (lx' : Lexer) :
  skip_to_close s ln col = Ok lx' ->
  exists u,
    u <> [] /\ s = u ++ rest lx'
    /\ forall t' ln2 col2,
        exists lx2, skip_to_close (u ++ t') ln2 col2 = Ok lx2
                    /\ rest lx2 = t'.
Proof.
  revert ln col; induction s as [|a s IH]; intros ln col H; simpl in H;
    [discriminate|].
  destruct (ascii_eqb a "#" && _) eqn:Hclose.
  - apply andb_prop in Hclose as [Ha Hb].
    apply Ascii.eqb_eq in Ha as ->.
    destruct s as [|b s]; [discriminate|]; simpl in Hb.
    apply Ascii.eqb_eq in Hb as ->.
    inversion H; subst; clear H.
    exists ["#"; ">"]%char; split; [discriminate|]; split; [reflexivity|].
    intros t' ln2 col2; eexists; split; reflexivity.
  - destruct (IH _ _ H) as (u & Hne & Hs & Hframe).
    exists (a :: u); split; [discriminate|].
    split; [rewrite Hs at 1; reflexivity|].
    intros t' ln2 col2; specialize (Hframe t').
    destruct u as [|b u]; [contradiction|].
    rewrite Hs in Hclose; simpl in Hclose |- *; rewrite Hclose.
    apply Hframe.
Qed.

Lemma stops_follows (P : ascii -> bool) (lc : bool) (t t' : list ascii) :
  (lc = false -> P ":"%char = false /\ P "<"%char = false) ->
  stops P t -> follows lc t t' -> stops P t'.
Proof.
  intros HP Ht [Hhd|[Hlc (c & r & -> & Hc)]].
  - destruct t' as [|c' t']; [exact I|].
    destruct t as [|c t]; [discriminate|].
    simpl in *; inversion Hhd; subst; exact Ht.
  - destruct (HP Hlc) as [H1 H2]; destruct Hc as [->| ->]; assumption.
Qed.

Lemma stops_continues (P : ascii -> bool) (lc : bool) (t t' : list ascii) :
  (lc = false -> P ":"%char = false /\ P "<"%char = false) ->
  (lc = false -> forall sp, is_space sp = true -> P sp = false) ->
  stops P t -> continues lc t t' -> stops P t'.
Proof.
  intros HP Hsp Ht [Hf|[Hlc (c & r & -> & Hc)]].
  - exact (stops_follows P lc t t' HP Ht Hf).
  - exact (Hsp Hlc c Hc).
Qed.

Lemma read_number_resumes (s : list ascii) (ln col : nat) (tok : Token)
    (lx' : Lexer) (d : ascii) (s0 : list ascii) :
  s = d :: s0 -> isdigit d = true ->
  read_number (mkLexer s ln col) = Ok (tok, lx') ->
  exists u,
    u <> [] /\ s = u ++ rest lx'
    /\ forall t' ln2 col2,
        continues false (rest lx') t' ->
        exists tok2 lx2,
          read_number (mkLexer (u ++ t') ln2 col2) = Ok (tok2, lx2)
          /\ rest lx2 = t' /\ erase tok2 = erase tok.
Proof.
  intros Hs Hd H.
  destruct (read_digits_inv s ln col) as (ip & r1 & Hsplit & Hip & Hst & Hrd).
  assert (Hne : ip <> []).
  { intros ->; simpl in Hsplit; subst r1.
    rewrite Hs in Hst; simpl in Hst; congruence. }
  unfold read_number in H; cbn [rest cur_line cur_column] in H.
  rewrite Hrd in H; unfold peek in H; cbn [rest] in H.
  assert (Hint : forall v,
             stops (fun c => isdigit c || ascii_eqb c ".") r1 ->
             py_float (string_of_list_ascii ip) = Some v ->
             tok = mkToken NUMBER (TNum v) ln col -> rest lx' = r1 ->
             exists u,
               u <> [] /\ s = u ++ rest lx'
               /\ forall t' ln2 col2,
                   continues false (rest lx') t' ->
                   exists tok2 lx2,
                     read_number (mkLexer (u ++ t') ln2 col2) = Ok (tok2, lx2)
                     /\ rest lx2 = t' /\ erase tok2 = erase tok).
  { intros v Hstop Hv -> Hr; exists ip; rewrite Hr.
    split; [exact Hne | split; [exact Hsplit|]].
    intros t' ln2 col2 Hf.
    rewrite (read_number_integer ip t' ln2 col2 v Hip); [| |exact Hv].
    - eexists _, _; repeat split.
    - apply (stops_continues _ false r1 t'); [split; reflexivity
         | intros _ sp; ascii_cases sp; intros _; reflexivity | | ];
        assumption. }
  destruct r1 as [|c1 r1]; cbn [nth_error] in H.
  - destruct (py_float (string_of_list_ascii ip)) as [v|] eqn:Hv;
      [|discriminate].
    inversion H; subst tok lx'; apply (Hint v); trivial; exact I.
  - destruct (ascii_eqb c1 ".") eqn:Hdot.
    + apply Ascii.eqb_eq in Hdot as ->.
      rewrite (advance_not_newline "." _ ln _ eq_refl) in H.
      cbn [rest cur_line cur_column] in H.
      destruct (read_digits_inv r1 ln (S (col + length ip)))
        as (fp & r3 & Hr1 & Hfp & Hst3 & Hrd3).
      rewrite Hrd3 in H.
      destruct (py_float (string_of_list_ascii (ip ++ "."%char :: fp)))
        as [v|] eqn:Hv; [|discriminate].
      inversion H; subst tok lx'; cbn [rest].
      exists (ip ++ "."%char :: fp); split; [|split].
      * destruct ip; discriminate.
      * rewrite Hsplit, Hr1, <- app_assoc; reflexivity.
      * intros t' ln2 col2 Hf.
        rewrite <- app_assoc; cbn [app].
        rewrite (read_number_fraction ip fp t' ln2 col2 v Hip Hfp);
          [| |exact Hv].
        -- eexists _, _; repeat split.
        -- apply (stops_continues _ false r3 t'); [split; reflexivity
         | intros _ sp; ascii_cases sp; intros _; reflexivity | | ];
             assumption.
    + destruct (py_float (string_of_list_ascii ip)) as [v|] eqn:Hv;
        [|discriminate].
      inversion H; subst tok lx'; apply (Hint v); trivial.
      simpl in *; rewrite Hst, Hdot; reflexivity.
Qed.

Lemma read_name_resumes (s : list ascii) (ln col : nat) (tok : Token)
    (lx' : Lexer) (c0 : ascii) (s0 : list ascii) :
  s = c0 :: s0 -> islower c0 = true ->
  read_name (mkLexer s ln col) = Ok (tok, lx') ->
  exists u,
    u <> [] /\ s = u ++ rest lx'
    /\ forall t' ln2 col2,
        continues false (rest lx') t' ->
        exists tok2 lx2,
          read_name (mkLexer (u ++ t') ln2 col2) = Ok (tok2, lx2)
          /\ rest lx2 = t' /\ erase tok2 = erase tok.
Proof.
  intros -> Hc0 H.
  destruct (islower_class c0 Hc0) as (_ & _ & _ & Hnl & _).
  unfold read_name, advance in H; cbn [rest cur_line cur_column] in H.
  rewrite Hnl in H; cbn [rest cur_line cur_column] in H.
  destruct (read_name_loop s0 ln (S col)) as [[cs lx2]|e] eqn:Hloop;
    cbn [rbind] in H; [|discriminate].
  destruct (read_name_loop_inv _ _ _ _ _ Hloop) as (Hs0 & Hcs & Hst).
  assert (Hrest : rest lx' = rest lx2
                  /\ erase tok
                     = erase (if String.eqb (string_of_list_ascii (c0 :: cs))
                                            "sort"
                              then mkToken SORT
                                     (TStr (string_of_list_ascii (c0 :: cs)))
                                     0 0
                              else mkToken NAME
                                     (TStr (string_of_list_ascii (c0 :: cs)))
                                     0 0)).
  { destruct (String.eqb _ "sort"); inversion H; subst; split; reflexivity. }
  destruct Hrest as [Hr Htok]; rewrite Hr.
  exists (c0 :: cs); split; [discriminate|].
  split; [rewrite Hs0 at 1; reflexivity|].
  intros t' ln2 col2 Hf.
  unfold read_name, advance; cbn [app rest cur_line cur_column].
  rewrite Hnl; cbn [rest cur_line cur_column].
  rewrite (read_name_loop_app cs t' ln2 (S col2) Hcs).
  - cbn [rbind]; rewrite Htok.
    destruct (String.eqb _ "sort"); eexists _, _; repeat split.
  - apply (stops_continues _ false (rest lx2) t');
      [split; reflexivity
         | intros _ sp; ascii_cases sp; intros _; reflexivity | | ]; assumption.
Qed.

Lemma follows_any (lc : bool) (t t' : list ascii) :
  follows lc t t' -> follows false t t'.
Proof. intros [H|[_ H]]; [left | right; split]; trivial. Qed.

Lemma continues_any (lc : bool) (t t' : list ascii) :
  continues lc t t' -> continues false t t'.
Proof.
  intros [Hf|[_ Hb]];
    [left; exact (follows_any _ _ _ Hf) | right; split; [reflexivity | exact Hb]].
Qed.

Lemma punctuation_class (c : ascii) (p : TokenType * string) :
  punctuation c = Some p ->
  is_space c = false /\ isdigit c = false /\ islower c = false
  /\ ascii_eqb c ":" = false /\ ascii_eqb c "<" = false
  /\ ascii_eqb c newline = false.
Proof. ascii_cases c; intros _; repeat split. Qed.

(** One pass of the main loop reads a non-empty piece [u] of the text, and
    reads the same piece, with the same token, in front of any text that
    [continues] it and at any position. *)
Lemma scan_item_resumes (s : list ascii) (ln col : nat) (ch : ascii)
    (s0 : list ascii) (tok : option Token) (lx' : Lexer) :
  s = ch :: s0 ->
  scan_item (mkLexer s ln col) ch = Ok (tok, lx') ->
  exists u,
    u <> [] /\ s = u ++ rest lx'
    /\ forall t' ln2 col2,
        continues (line_comment_start s) (rest lx') t' ->
        exists tok2 lx2,
          scan_item (mkLexer (u ++ t') ln2 col2) ch = Ok (tok2, lx2)
          /\ rest lx2 = t'
          /\ option_map erase tok2 = option_map erase tok.
Proof.
  intros Hs H; unfold scan_item in H.
  destruct (ascii_eqb ch ":" && peek_is _ 1 ":") eqn:HA.
  { (* a single-line comment *)
    apply andb_prop in HA as [H1 H2]; apply Ascii.eqb_eq in H1 as ->.
    subst s; destruct s0 as [|c2 s0]; [discriminate|].
    unfold peek_is, peek in H2; cbn in H2; apply Ascii.eqb_eq in H2 as ->.
    inversion H; subst tok lx'; clear H.
    unfold skip_single_line_comment.
    rewrite !(advance_not_newline ":" _ _ _ eq_refl);
      cbn [rest cur_line cur_column].
    destruct (skip_to_eol_inv s0) as (u & r & -> & Hu & Hr).
    rewrite (skip_to_eol_app u r _ _ Hu Hr); cbn [rest].
    exists (":" :: ":" :: u)%char; split; [discriminate|].
    split; [reflexivity|].
    intros t' ln2 col2 Hf.
    assert (Ht' : stops not_newline t')
      by (apply (stops_continues _ true r t');
          [discriminate | discriminate | exact Hr | exact Hf]).
    exists None; eexists; split.
    { unfold scan_item, peek_is, peek; cbn [app rest nth_error].
      cbn [ascii_eqb Ascii.eqb Bool.eqb andb].
      unfold skip_single_line_comment.
      rewrite !(advance_not_newline ":" _ _ _ eq_refl);
        cbn [rest cur_line cur_column].
      rewrite (skip_to_eol_app u t' _ _ Hu Ht'); reflexivity. }
    split; reflexivity. }
  destruct (ascii_eqb ch "<" && peek_is _ 1 "#") eqn:HB.
  { (* a block comment *)
    apply andb_prop in HB as [H1 H2]; apply Ascii.eqb_eq in H1 as ->.
    subst s; destruct s0 as [|c2 s0]; [discriminate|].
    unfold peek_is, peek in H2; cbn in H2; apply Ascii.eqb_eq in H2 as ->.
    unfold skip_multi_line_comment in H.
    rewrite (advance_not_newline "<" _ _ _ eq_refl),
      (advance_not_newline "#" _ _ _ eq_refl) in H;
      cbn [rest cur_line cur_column] in H.
    destruct (skip_to_close s0 ln (S (S col))) as [lx1|e] eqn:Hclose;
      cbn [rbind] in H; [|discriminate].
    inversion H; subst tok lx'; clear H.
    destruct (skip_to_close_frame _ _ _ _ Hclose) as (u & _ & Hu & Hframe).
    exists ("<" :: "#" :: u)%char; split; [discriminate|].
    split; [rewrite Hu at 1; reflexivity|].
    intros t' ln2 col2 _.
    destruct (Hframe t' ln2 (S (S col2))) as (lx2 & Hlx2 & Hrest).
    exists None, lx2; split; [|split; [exact Hrest | reflexivity]].
    unfold scan_item, peek_is, peek; cbn [app rest nth_error].
    cbn [ascii_eqb Ascii.eqb Bool.eqb andb].
    unfold skip_multi_line_comment.
    rewrite (advance_not_newline "<" _ _ _ eq_refl),
      (advance_not_newline "#" _ _ _ eq_refl);
      cbn [rest cur_line cur_column].
    rewrite Hlx2; reflexivity. }
  destruct (isdigit ch) eqn:HC.
  { (* a number *)
    destruct (read_number _) as [[t lx1]|e] eqn:Hread; cbn [rbind] in H;
      [|discriminate].
    inversion H; subst tok lx'; clear H.
    destruct (read_number_resumes s ln col t lx1 ch s0 Hs HC Hread)
      as (u & Hne & Hu & Hframe).
    exists u; split; [exact Hne | split; [exact Hu|]].
    intros t' ln2 col2 Hf.
    destruct (Hframe t' ln2 col2 (continues_any _ _ _ Hf))
      as (tok2 & lx2 & Hread2 & Hrest & Htok).
    exists (Some tok2), lx2; split; [|split; [exact Hrest|]].
    - rewrite (scan_item_digit _ ch HC), Hread2; reflexivity.
    - simpl; rewrite Htok; reflexivity. }
  destruct (islower ch) eqn:HD.
  { (* a name *)
    destruct (read_name _) as [[t lx1]|e] eqn:Hread; cbn [rbind] in H;
      [|discriminate].
    inversion H; subst tok lx'; clear H.
    destruct (read_name_resumes s ln col t lx1 ch s0 Hs HD Hread)
      as (u & Hne & Hu & Hframe).
    exists u; split; [exact Hne | split; [exact Hu|]].
    intros t' ln2 col2 Hf.
    destruct (Hframe t' ln2 col2 (continues_any _ _ _ Hf))
      as (tok2 & lx2 & Hread2 & Hrest & Htok).
    exists (Some tok2), lx2; split; [|split; [exact Hrest|]].
    - destruct (islower_class ch HD) as (_ & _ & _ & _ & Hc & Hlt).
      unfold scan_item; rewrite Hc, Hlt, HC, HD; cbn [andb].
      rewrite Hread2; reflexivity.
    - simpl; rewrite Htok; reflexivity. }
  cbn zeta in H.
  destruct (ascii_eqb ch "<" && peek_is _ 1 "-") eqn:HE.
  { (* the assignment marker *)
    apply andb_prop in HE as [H1 H2]; apply Ascii.eqb_eq in H1 as ->.
    subst s; destruct s0 as [|c2 s0]; [discriminate|].
    unfold peek_is, peek in H2; cbn in H2; apply Ascii.eqb_eq in H2 as ->.
    rewrite (advance_not_newline "<" _ _ _ eq_refl),
      (advance_not_newline "-" _ _ _ eq_refl) in H.
    inversion H; subst tok lx'; clear H; cbn [rest].
    exists ["<"; "-"]%char; split; [discriminate | split; [reflexivity|]].
    intros t' ln2 col2 _; eexists _, _; split.
    { reflexivity. }
    split; reflexivity. }
  destruct (punctuation ch) as [[ty v]|] eqn:HF; [|discriminate].
  (* a single-character token *)
  destruct (punctuation_class ch _ HF) as (_ & _ & _ & Hc & Hlt & Hnl).
  rewrite Hs, (advance_not_newline ch _ _ _ Hnl) in H.
  inversion H; subst tok lx'; clear H; cbn [rest].
  exists [ch]; split; [discriminate | split; [exact Hs|]].
  intros t' ln2 col2 _.
  unfold scan_item; rewrite Hc, Hlt, HC, HD, HF; cbn [andb app].
  rewrite (advance_not_newline ch _ _ _ Hnl).
  eexists _, _; split.
  { reflexivity. }
  split; reflexivity.
Qed.

(** One pass of the main loop reads a non-empty piece [u] of the text, and
    reads the same piece, with the same token, in front of any text that
    [follows] the rest and at any position. *)
Lemma scan_item_frame (s : list ascii) (ln col : nat) (ch : ascii)
    (s0 : list ascii) (tok : option Token) (lx' : Lexer) :
  s = ch :: s0 ->
  scan_item (mkLexer s ln col) ch = Ok (tok, lx') ->
  exists u,
    u <> [] /\ s = u ++ rest lx'
    /\ forall t' ln2 col2,
        follows (line_comment_start s) (rest lx') t' ->
        exists tok2 lx2,
          scan_item (mkLexer (u ++ t') ln2 col2) ch = Ok (tok2, lx2)
          /\ rest lx2 = t'
          /\ option_map erase tok2 = option_map erase tok.
Proof.
  intros Hs H.
  destruct (scan_item_resumes s ln col ch s0 tok lx' Hs H)
    as (u & Hne & Hu & Hframe).
  exists u; split; [exact Hne | split; [exact Hu|]].
  intros t' ln2 col2 Hf; apply Hframe; left; exact Hf.
Qed.

(** ** The main loop, independently of its fuel *)

Lemma skip_whitespace_loop_length (s : list ascii) (ln col : nat) :
  length (rest (skip_whitespace_loop s ln col)) <= length s.
Proof.
  revert ln col; induction s as [|c s IH]; intros ln col; simpl; [lia|].
  destruct (is_space c); simpl; [|lia].
  etransitivity; [apply IH | lia].
Qed.

Lemma scan_item_shrinks (lx lx' : Lexer) (c : ascii) (s : list ascii)
    (tok : option Token) :
  rest lx = c :: s -> scan_item lx c = Ok (tok, lx') ->
  length (rest lx') <= length s.
Proof.
  destruct lx as [r ln col]; cbn [rest]; intros Hr H.
  destruct (scan_item_frame r ln col c s tok lx' Hr H) as (u & Hne & Hu & _).
  assert (Hlen : length r = length u + length (rest lx'))
    by (rewrite Hu at 1; apply length_app).
  rewrite Hr in Hlen; simpl in Hlen.
  destruct u; [contradiction | simpl in Hlen; lia].
Qed.

Lemma tokenize_loop_fuel (f1 f2 : nat) (lx : Lexer) (tokens : list Token) :
  length (rest lx) < f1 -> length (rest lx) < f2 ->
  tokenize_loop f1 lx tokens = tokenize_loop f2 lx tokens.
Proof.
  revert f2 lx tokens; induction f1 as [|f1 IH]; intros f2 lx tokens H1 H2;
    [lia|].
  destruct f2 as [|f2]; [lia|].
  cbn [tokenize_loop].
  destruct (rest lx) as [|c0 s0] eqn:Hr; [reflexivity|].
  pose proof (skip_whitespace_loop_length (rest lx) (cur_line lx)
                (cur_column lx)) as Hws.
  fold (skip_whitespace lx) in Hws.
  unfold peek.
  destruct (rest (skip_whitespace lx)) as [|c s] eqn:Hr1; [reflexivity|].
  cbn [nth_error].
  destruct (scan_item (skip_whitespace lx) c) as [[t lx']|e] eqn:Hscan;
    [|reflexivity].
  cbn [rbind].
  pose proof (scan_item_shrinks _ _ _ _ _ Hr1 Hscan) as Hsh.
  rewrite Hr in *; simpl in *.
  apply IH; lia.
Qed.

Lemma lexer_eta (lx : Lexer) :
  lx = mkLexer (rest lx) (cur_line lx) (cur_column lx).
Proof. destruct lx; reflexivity. Qed.

Lemma tokenize_from_end (lx : Lexer) (tokens : list Token) :
  rest lx = [] -> tokenize_from lx tokens = Ok (tokens ++ [eof_token lx]).
Proof. intros Hr; apply tokenize_loop_end; exact Hr. Qed.

Lemma tokenize_from_space (c : ascii) (s : list ascii) (ln col : nat)
    (tokens : list Token) :
  is_space c = true ->
  exists ln' col',
    tokenize_from (mkLexer (c :: s) ln col) tokens
    = tokenize_from (mkLexer s ln' col') tokens.
Proof.
  intros Hc; unfold tokenize_from at 1; cbn [rest length].
  rewrite (tokenize_loop_space _ (mkLexer (c :: s) ln col) _ c s eq_refl Hc).
  unfold advance_, advance; cbn [rest cur_line cur_column].
  destruct (ascii_eqb c newline); cbn [snd]; eexists _, _;
    apply tokenize_loop_fuel; simpl; lia.
Qed.

Lemma tokenize_from_scan (lx : Lexer) (tokens : list Token) (c : ascii)
    (s : list ascii) :
  rest lx = c :: s -> is_space c = false ->
  tokenize_from lx tokens
  = let* (t, lx') := scan_item lx c in
    tokenize_from lx' (push_token tokens t).
Proof.
  intros Hr Hc; rewrite (tokenize_from_item lx tokens c s Hr Hc).
  destruct (scan_item lx c) as [[t lx']|e] eqn:Hscan; [|reflexivity].
  cbn [rbind].
  pose proof (scan_item_shrinks _ _ _ _ _ Hr Hscan).
  apply tokenize_loop_fuel; simpl; lia.
Qed.

Lemma push_token_erase (acc acc2 : list Token) (t t2 : option Token) :
  map erase acc2 = map erase acc ->
  option_map erase t2 = option_map erase t ->
  map erase (push_token acc2 t2) = map erase (push_token acc t).
Proof.
  intros Hacc Ht; destruct t, t2; try discriminate;
    cbn [push_token option_map] in *; [|exact Hacc].
  injection Ht as Hty Hval; rewrite !map_app, Hacc; cbn [map].
  unfold erase; rewrite Hty, Hval; reflexivity.
Qed.

(** The tokens of a text do not depend on where the lexer believes it
    starts, up to their positions. *)
Lemma tokenize_from_shift (s : list ascii) :
  forall ln col acc ln2 col2 acc2 ts,
    map erase acc2 = map erase acc ->
    tokenize_from (mkLexer s ln col) acc = Ok ts ->
    exists ts2,
      tokenize_from (mkLexer s ln2 col2) acc2 = Ok ts2
      /\ map erase ts2 = map erase ts.
Proof.
  remember (length s) as n eqn:Hn; revert s Hn.
  induction n as [n IH] using lt_wf_ind.
  intros s Hn ln col acc ln2 col2 acc2 ts Hacc H.
  destruct s as [|c s].
  - rewrite tokenize_from_end in H |- * by reflexivity.
    inversion H; subst ts; eexists; split; [reflexivity|].
    rewrite !map_app, Hacc; reflexivity.
  - destruct (is_space c) eqn:Hc.
    + destruct (tokenize_from_space c s ln col acc Hc) as (l1 & c1 & E1).
      destruct (tokenize_from_space c s ln2 col2 acc2 Hc) as (l2 & c2 & E2).
      rewrite E1 in H; rewrite E2.
      refine (IH (length s) _ s eq_refl _ _ _ _ _ _ _ Hacc H).
      subst n; simpl; lia.
    + rewrite (tokenize_from_scan (mkLexer (c :: s) ln col) acc c s
                 eq_refl Hc) in H.
      rewrite (tokenize_from_scan (mkLexer (c :: s) ln2 col2) acc2 c s
                 eq_refl Hc).
      destruct (scan_item (mkLexer (c :: s) ln col) c) as [[tok lx']|e]
        eqn:Hscan; [|discriminate].
      cbn [rbind] in H.
      destruct (scan_item_frame _ _ _ _ _ _ _ eq_refl Hscan)
        as (u & Hne & Hu & Hframe).
      destruct (Hframe (rest lx') ln2 col2 (or_introl eq_refl))
        as (tok2 & lx2 & Hscan2 & Hrest & Htok).
      rewrite <- Hu in Hscan2; rewrite Hscan2; cbn [rbind].
      rewrite (lexer_eta lx') in H; rewrite (lexer_eta lx2), Hrest.
      refine (IH (length (rest lx')) _ (rest lx') eq_refl _ _ _ _ _ _ _ _ H).
      * subst n.
        pose proof (scan_item_shrinks (mkLexer (c :: s) ln col) _ _ _ _
                      eq_refl Hscan).
        simpl; lia.
      * apply push_token_erase; assumption.
Qed.

(** ** The position of the lexer *)

Lemma move_app (u v : list ascii) (p : nat * nat) :
  move (u ++ v) p = move v (move u p).
Proof. apply fold_left_app. Qed.

Lemma reaches_refl (lx : Lexer) : reaches [] lx lx.
Proof. split; reflexivity. Qed.

Lemma reaches_trans (u v : list ascii) (a b c : Lexer) :
  reaches u a b -> reaches v b c -> reaches (u ++ v) a c.
Proof.
  intros [Hr1 Hp1] [Hr2 Hp2]; split.
  - rewrite Hr1, Hr2, app_assoc; reflexivity.
  - rewrite move_app, <- Hp1; exact Hp2.
Qed.

Lemma reaches_advance (c : ascii) (s : list ascii) (ln col : nat) :
  reaches [c] (mkLexer (c :: s) ln col) (advance_ (mkLexer (c :: s) ln col)).
Proof.
  unfold reaches, position, advance_, advance, move, step_position; simpl.
  destruct (ascii_eqb c newline); split; reflexivity.
Qed.

Lemma advance_rest (c : ascii) (s : list ascii) (ln col : nat) :
  rest (advance_ (mkLexer (c :: s) ln col)) = s.
Proof.
  unfold advance_, advance; simpl; destruct (ascii_eqb c newline); reflexivity.
Qed.

Lemma reaches_step (lx : Lexer) (c : ascii) (s : list ascii) :
  rest lx = c :: s -> reaches [c] lx (advance_ lx).
Proof.
  destruct lx as [r ln col]; cbn [rest]; intros ->; apply reaches_advance.
Qed.

Lemma reaches_cons (c : ascii) (s u : list ascii) (ln col : nat)
    (lx' : Lexer) :
  (forall lx, lx = advance_ (mkLexer (c :: s) ln col) ->
              reaches u (mkLexer s (cur_line lx) (cur_column lx)) lx') ->
  reaches (c :: u) (mkLexer (c :: s) ln col) lx'.
Proof.
  intros H.
  apply (reaches_trans [c] u _ (advance_ (mkLexer (c :: s) ln col)));
    [apply reaches_advance|].
  specialize (H _ eq_refl).
  replace (advance_ (mkLexer (c :: s) ln col))
    with (mkLexer s (cur_line (advance_ (mkLexer (c :: s) ln col)))
                    (cur_column (advance_ (mkLexer (c :: s) ln col))));
    [exact H|].
  unfold advance_, advance; simpl; destruct (ascii_eqb c newline); reflexivity.
Qed.

Lemma skip_whitespace_loop_reaches (s : list ascii) (ln col : nat) :
  exists u, reaches u (mkLexer s ln col) (skip_whitespace_loop s ln col).
Proof.
  revert ln col; induction s as [|c s IH]; intros ln col; simpl.
  - exists []; apply reaches_refl.
  - destruct (is_space c); [|exists []; apply reaches_refl].
    destruct (IH (cur_line (advance_ (mkLexer (c :: s) ln col)))
                 (cur_column (advance_ (mkLexer (c :: s) ln col))))
      as [u Hu].
    exists (c :: u); apply reaches_cons; intros lx ->; exact Hu.
Qed.

Lemma skip_to_eol_reaches (s : list ascii) (ln col : nat) :
  exists u, reaches u (mkLexer s ln col) (skip_to_eol s ln col).
Proof.
  revert ln col; induction s as [|c s IH]; intros ln col; simpl.
  - exists []; apply reaches_refl.
  - destruct (negb (ascii_eqb c newline)); [|exists []; apply reaches_refl].
    destruct (IH (cur_line (advance_ (mkLexer (c :: s) ln col)))
                 (cur_column (advance_ (mkLexer (c :: s) ln col))))
      as [u Hu].
    exists (c :: u); apply reaches_cons; intros lx ->; exact Hu.
Qed.

Lemma skip_to_close_reaches (s : list ascii) (ln col : nat) (lx' : Lexer) :
  skip_to_close s ln col = Ok lx' ->
  exists u, reaches u (mkLexer s ln col) lx'.
Proof.
  revert ln col; induction s as [|c s IH]; intros ln col H;
    [discriminate|].
  cbn [skip_to_close] in H.
  destruct (ascii_eqb c "#" && _) eqn:Hclose.
  - destruct s as [|c1 s]; [rewrite andb_false_r in Hclose; discriminate|].
    inversion H; subst lx'.
    exists [c; c1]; apply reaches_cons; intros lx ->.
    pose proof (reaches_advance c1 s
                  (cur_line (advance_ (mkLexer (c :: c1 :: s) ln col)))
                  (cur_column (advance_ (mkLexer (c :: c1 :: s) ln col))))
      as Hadv.
    replace (advance_ (advance_ (mkLexer (c :: c1 :: s) ln col)))
      with (advance_
              (mkLexer (c1 :: s)
                 (cur_line (advance_ (mkLexer (c :: c1 :: s) ln col)))
                 (cur_column (advance_ (mkLexer (c :: c1 :: s) ln col)))));
      [exact Hadv|].
    unfold advance_, advance; simpl; destruct (ascii_eqb c newline);
      reflexivity.
  - destruct (IH _ _ H) as [u Hu].
    exists (c :: u); apply reaches_cons; intros lx ->; exact Hu.
Qed.

Lemma read_digits_reaches (s : list ascii) (ln col : nat) :
  exists u, reaches u (mkLexer s ln col) (snd (read_digits s ln col)).
Proof.
  revert ln col; induction s as [|c s IH]; intros ln col; simpl.
  - exists []; apply reaches_refl.
  - destruct (isdigit c); [|exists []; apply reaches_refl].
    destruct (IH (cur_line (advance_ (mkLexer (c :: s) ln col)))
                 (cur_column (advance_ (mkLexer (c :: s) ln col))))
      as [u Hu].
    destruct (read_digits s _ _) as [ds lx1]; cbn [snd] in *.
    exists (c :: u); apply reaches_cons; intros lx ->; exact Hu.
Qed.

Lemma read_name_loop_reaches (s : list ascii) (ln col : nat)
    (cs : list ascii) (lx' : Lexer) :
  read_name_loop s ln col = Ok (cs, lx') ->
  exists u, reaches u (mkLexer s ln col) lx'.
Proof.
  revert ln col cs; induction s as [|c s IH]; intros ln col cs H;
    cbn [read_name_loop] in H.
  - inversion H; exists []; apply reaches_refl.
  - destruct (isalnum c || ascii_eqb c "_");
      [|inversion H; exists []; apply reaches_refl].
    destruct (isupper c); [discriminate|].
    destruct (read_name_loop s _ _) as [[cs1 lx1]|e] eqn:Hloop;
      cbn [rbind] in H; [|discriminate].
    inversion H; subst cs lx'.
    destruct (IH _ _ _ Hloop) as [u Hu].
    exists (c :: u); apply reaches_cons; intros lx ->; exact Hu.
Qed.

(** One pass of the main loop leaves the lexer at the position behind the
    text it has read. *)
Lemma scan_item_reaches (s : list ascii) (ln col : nat) (ch : ascii)
    (s0 : list ascii) (tok : option Token) (lx' : Lexer) :
  s = ch :: s0 ->
  scan_item (mkLexer s ln col) ch = Ok (tok, lx') ->
  exists u, reaches u (mkLexer s ln col) lx'.
Proof.
  intros -> H; unfold scan_item in H.
  assert (Hadv2 : forall lx1,
             (exists u, reaches u
                          (advance_ (advance_ (mkLexer (ch :: s0) ln col)))
                          lx1) ->
             exists u, reaches u (mkLexer (ch :: s0) ln col) lx1).
  { intros lx1 [u Hu].
    destruct s0 as [|c1 s0].
    - exists ([ch] ++ u).
      apply (reaches_trans _ _ _ (advance_ (mkLexer [ch] ln col)));
        [apply reaches_advance|].
      replace (advance_ (advance_ (mkLexer [ch] ln col)))
        with (advance_ (mkLexer [ch] ln col)) in Hu; [exact Hu|].
      unfold advance_, advance; simpl; destruct (ascii_eqb ch newline);
        reflexivity.
    - exists ([ch] ++ [c1] ++ u).
      apply (reaches_trans _ _ _ (advance_ (mkLexer (ch :: c1 :: s0) ln col)));
        [apply reaches_advance|].
      apply (reaches_trans _ _ _
               (advance_ (advance_ (mkLexer (ch :: c1 :: s0) ln col))));
        [|exact Hu].
      apply (reaches_step _ c1 s0), advance_rest. }
  destruct (ascii_eqb ch ":" && peek_is _ 1 ":").
  { inversion H; subst tok lx'; apply Hadv2.
    unfold skip_single_line_comment; cbn zeta.
    destruct (advance_ (advance_ _)) as [r2 ln2 col2];
      cbn [rest cur_line cur_column].
    apply skip_to_eol_reaches. }
  destruct (ascii_eqb ch "<" && peek_is _ 1 "#").
  { unfold skip_multi_line_comment in H.
    destruct (skip_to_close _ _ _) as [lx1|e] eqn:Hclose; cbn [rbind] in H;
      [|discriminate].
    inversion H; subst tok lx'; apply Hadv2.
    destruct (advance_ (advance_ _)) as [r2 ln2 col2];
      cbn [rest cur_line cur_column] in Hclose.
    exact (skip_to_close_reaches _ _ _ _ Hclose). }
  destruct (isdigit ch).
  { unfold read_number in H; cbn [rest cur_line cur_column] in H.
    destruct (read_digits_reaches (ch :: s0) ln col) as [u1 Hu1].
    destruct (read_digits (ch :: s0) ln col) as [ip lx1]; cbn [snd] in Hu1.
    unfold peek in H.
    destruct (rest lx1) as [|c1 r1] eqn:Hr1; cbn [nth_error] in H.
    - destruct (py_float _); [|discriminate].
      inversion H; subst; exists u1; exact Hu1.
    - destruct (ascii_eqb c1 ".").
      + destruct (read_digits_reaches (rest (advance_ lx1))
                    (cur_line (advance_ lx1)) (cur_column (advance_ lx1)))
          as [u2 Hu2].
        destruct (read_digits (rest (advance_ lx1)) _ _) as [fp lx2];
          cbn [snd] in Hu2.
        destruct (py_float _); [|discriminate].
        inversion H; subst tok lx'.
        exists (u1 ++ [c1] ++ u2).
        apply (reaches_trans _ _ _ lx1 _ Hu1).
        apply (reaches_trans _ _ _ (advance_ lx1)).
        * rewrite (lexer_eta lx1), Hr1; apply reaches_advance.
        * rewrite (lexer_eta (advance_ lx1)); exact Hu2.
      + destruct (py_float _); [|discriminate].
        inversion H; subst; exists u1; exact Hu1. }
  destruct (islower ch).
  { unfold read_name, advance in H; cbn [rest cur_line cur_column] in H.
    pose proof (reaches_advance ch s0 ln col) as Hadv.
    unfold advance_, advance in Hadv; cbn [rest cur_line cur_column] in Hadv.
    destruct (ascii_eqb ch newline); cbn [snd] in Hadv;
      cbn [rest cur_line cur_column] in H;
      (destruct (read_name_loop s0 _ _) as [[cs lx2]|e] eqn:Hloop;
       cbn [rbind] in H; [|discriminate]);
      destruct (read_name_loop_reaches _ _ _ _ _ Hloop) as [u Hu];
      exists ([ch] ++ u);
      (assert (lx' = lx2) as ->
          by (destruct (String.eqb _ "sort"); inversion H; reflexivity));
      exact (reaches_trans _ _ _ _ _ Hadv Hu). }
  cbn zeta in H.
  destruct (ascii_eqb ch "<" && peek_is _ 1 "-").
  { inversion H; subst tok lx'; apply Hadv2; exists []; apply reaches_refl. }
  destruct (punctuation ch) as [[ty v]|]; [|discriminate].
  inversion H; subst tok lx'; exists [ch]; apply reaches_advance.
Qed.

Lemma tokenize_from_space_at (c : ascii) (s : list ascii) (ln col : nat)
    (tokens : list Token) :
  is_space c = true ->
  tokenize_from (mkLexer (c :: s) ln col) tokens
  = tokenize_from (mkLexer s (fst (step_position (ln, col) c))
                             (snd (step_position (ln, col) c))) tokens.
Proof.
  intros Hc; unfold tokenize_from at 1; cbn [rest length].
  rewrite (tokenize_loop_space _ (mkLexer (c :: s) ln col) _ c s eq_refl Hc).
  unfold advance_, advance, step_position; cbn [rest cur_line cur_column].
  destruct (ascii_eqb c newline); cbn [fst snd];
    apply tokenize_loop_fuel; simpl; lia.
Qed.

(** The main loop gets to a place where white space is legal, and is there
    at the line and column of that place. *)
Lemma tokenize_from_legal (s1 s2 : list ascii) :
  ws_legal s1 s2 ->
  forall ln col acc,
    exists acc',
      tokenize_from (mkLexer (s1 ++ s2) ln col) acc
      = tokenize_from (mkLexer s2 (fst (move s1 (ln, col)))
                                  (snd (move s1 (ln, col)))) acc'.
Proof.
  intros Hlegal.
  induction Hlegal as [s2|sp r s2 Hsp _ IH
                       |u r s2 ch s0 tok lx' Hhd Hns Hscan Hrest Hlc _ IH];
    intros ln col acc.
  - exists acc; reflexivity.
  - cbn [app]; rewrite (tokenize_from_space_at sp _ ln col acc Hsp).
    destruct (IH (fst (step_position (ln, col) sp))
                 (snd (step_position (ln, col) sp)) acc) as [acc' E].
    exists acc'; rewrite E, <- surjective_pairing; reflexivity.
  - rewrite <- app_assoc.
    rewrite (tokenize_from_scan (mkLexer _ ln col) acc ch s0 Hhd Hns).
    destruct (scan_item_frame _ _ _ _ _ _ _ Hhd Hscan)
      as (u' & Hne & Hu & Hframe).
    assert (u' = u) as ->.
    { rewrite Hrest in Hu; apply app_inv_tail in Hu; congruence. }
    rewrite Hrest in Hframe.
    destruct (Hframe (r ++ s2) ln col (or_introl eq_refl))
      as (tok1 & lx1 & Hscan1 & Hrest1 & _).
    rewrite Hscan1; cbn [rbind].
    destruct (scan_item_reaches _ _ _ _ _ _ _ Hhd Hscan1) as (u1 & Hr1 & Hp1).
    cbn [rest] in Hr1; rewrite Hrest1 in Hr1.
    apply app_inv_tail in Hr1; subst u1.
    unfold position in Hp1; cbn [cur_line cur_column] in Hp1.
    destruct (IH (cur_line lx1) (cur_column lx1) (push_token acc tok1))
      as [acc' E].
    exists acc'.
    rewrite (lexer_eta lx1), Hrest1, E, Hp1, move_app; reflexivity.
Qed.

Lemma move_name (p : list ascii) (ln col : nat) :
  forallb ident_char p = true -> move p (ln, col) = (ln, col + length p).
Proof.
  revert col; induction p as [|a p IH]; intros col Hp; simpl.
  - rewrite Nat.add_0_r; reflexivity.
  - simpl in Hp; apply andb_prop in Hp as [Ha Hp].
    destruct (ident_char_class a Ha) as (_ & _ & Hnl).
    unfold move in *; cbn [fold_left]; unfold step_position at 2.
    rewrite Hnl; cbn [fst snd]; rewrite (IH (S col) Hp).
    f_equal; lia.
Qed.

(** ** Comments *)

Lemma skip_to_close_body (body t : list ascii) (ln col : nat) :
  no_close body = true ->
  exists lx,
    skip_to_close (body ++ "#" :: ">" :: t)%char ln col = Ok lx
    /\ rest lx = t.
Proof.
  revert ln col; induction body as [|c body IH]; intros ln col Hb.
  - eexists; split; reflexivity.
  - simpl in Hb; apply andb_prop in Hb as [Hc Hb].
    apply negb_true_iff in Hc.
    specialize (IH (cur_line (advance_ (mkLexer (c :: body ++ "#" :: ">" :: t)%char ln col)))
                   (cur_column (advance_ (mkLexer (c :: body ++ "#" :: ">" :: t)%char ln col)))
                   Hb).
    cbn [app skip_to_close].
    destruct body as [|a body]; cbn [app nth_error] in *.
    + replace (ascii_eqb "#" ">") with false by reflexivity.
      rewrite andb_false_r; exact IH.
    + rewrite Hc; exact IH.
Qed.

Lemma comment_before_neutral (s2 c : list ascii) :
  comment_before s2 c -> neutral (c ++ s2).
Proof.
  intros [body _|body _ _|body _]; eexists _, _;
    (split; [reflexivity|]); [left | left | right]; reflexivity.
Qed.

(** The main loop at a comment goes on with the text behind it. *)
Lemma tokenize_from_comment (s2 c : list ascii) (ln col : nat)
    (tokens : list Token) :
  comment_before s2 c ->
  exists ln' col',
    tokenize_from (mkLexer (c ++ s2) ln col) tokens
    = tokenize_from (mkLexer s2 ln' col') tokens.
Proof.
  intros [body Hb|body Hb Hs2|body Hb]; cbn [app].
  - rewrite (tokenize_from_scan (mkLexer _ ln col) tokens ":" _ eq_refl eq_refl).
    unfold scan_item, peek_is, peek; cbn [rest nth_error].
    cbn [ascii_eqb Ascii.eqb Bool.eqb andb].
    unfold skip_single_line_comment.
    rewrite !(advance_not_newline ":" _ _ _ eq_refl);
      cbn [rest cur_line cur_column].
    rewrite <- app_assoc.
    rewrite (skip_to_eol_app body _ _ _ Hb) by reflexivity.
    cbn [rbind push_token app].
    apply tokenize_from_space; reflexivity.
  - rewrite (tokenize_from_scan (mkLexer _ ln col) tokens ":" _ eq_refl eq_refl).
    unfold scan_item, peek_is, peek; cbn [rest nth_error].
    cbn [ascii_eqb Ascii.eqb Bool.eqb andb].
    unfold skip_single_line_comment.
    rewrite !(advance_not_newline ":" _ _ _ eq_refl);
      cbn [rest cur_line cur_column].
    rewrite (skip_to_eol_app body _ _ _ Hb Hs2).
    eexists _, _; reflexivity.
  - rewrite (tokenize_from_scan (mkLexer _ ln col) tokens "<" _ eq_refl eq_refl).
    unfold scan_item, peek_is, peek; cbn [rest nth_error].
    cbn [ascii_eqb Ascii.eqb Bool.eqb andb].
    unfold skip_multi_line_comment.
    rewrite (advance_not_newline "<" _ _ _ eq_refl),
      (advance_not_newline "#" _ _ _ eq_refl);
      cbn [rest cur_line cur_column].
    rewrite <- app_assoc; cbn [app].
    destruct (skip_to_close_body body s2 ln (S (S col)) Hb) as (lx & -> & Hr).
    cbn [rbind push_token].
    rewrite (lexer_eta lx), Hr; eexists _, _; reflexivity.
Qed.

(** A comment at a place where white space is legal leaves the tokens as
    they are, up to their positions. *)
Lemma tokenize_from_insert (r s2 c : list ascii) :
  ws_legal r s2 -> comment_before s2 c ->
  forall ln col acc ln2 col2 acc2 ts,
    map erase acc2 = map erase acc ->
    tokenize_from (mkLexer (r ++ s2) ln col) acc = Ok ts ->
    exists ts2,
      tokenize_from (mkLexer (r ++ c ++ s2) ln2 col2) acc2 = Ok ts2
      /\ map erase ts2 = map erase ts.
Proof.
  intros Hlegal Hc.
  induction Hlegal as [s2|sp r s2 Hsp _ IH
                       |u r s2 ch s0 tok lx' Hhd Hns Hscan Hrest Hlc _ IH];
    intros ln col acc ln2 col2 acc2 ts Hacc H.
  - (* at the place itself *)
    cbn [app] in *.
    destruct (tokenize_from_comment s2 c ln2 col2 acc2 Hc) as (l' & c' & ->).
    exact (tokenize_from_shift s2 _ _ _ _ _ _ _ Hacc H).
  - (* white space before it *)
    cbn [app] in *.
    destruct (tokenize_from_space sp (r ++ s2) ln col acc Hsp)
      as (l1 & c1 & E1).
    destruct (tokenize_from_space sp (r ++ c ++ s2) ln2 col2 acc2 Hsp)
      as (l2 & c2 & E2).
    rewrite E1 in H; rewrite E2.
    exact (IH Hc _ _ _ _ _ _ _ Hacc H).
  - (* an item before it *)
    rewrite <- !app_assoc in *.
    rewrite (tokenize_from_scan (mkLexer _ ln col) acc ch s0 Hhd Hns) in H.
    destruct (scan_item_frame _ _ _ _ _ _ _ Hhd Hscan)
      as (u' & Hne & Hu & Hframe).
    assert (u' = u) as ->.
    { rewrite Hrest in Hu; apply app_inv_tail in Hu; congruence. }
    rewrite Hrest in Hframe.
    destruct (Hframe (r ++ s2) ln col (or_introl eq_refl))
      as (tok1 & lx1 & Hscan1 & Hrest1 & Htok1).
    rewrite Hscan1 in H; cbn [rbind] in H.
    assert (Hf : follows (line_comment_start (u ++ r ++ s2)) (r ++ s2)
                   (r ++ c ++ s2)).
    { destruct r as [|r0 r]; [|left; reflexivity].
      destruct (line_comment_start _) eqn:Hl;
        [exfalso; apply Hlc; reflexivity|].
      right; split; [reflexivity | exact (comment_before_neutral s2 c Hc)]. }
    destruct (Hframe (r ++ c ++ s2) ln2 col2 Hf)
      as (tok2 & lx2 & Hscan2 & Hrest2 & Htok2).
    assert (Hhd2 : u ++ r ++ c ++ s2 = ch :: skipn 1 (u ++ r ++ c ++ s2)).
    { destruct u as [|u0 u]; [contradiction|].
      cbn [app] in *; inversion Hhd; reflexivity. }
    rewrite (tokenize_from_scan (mkLexer _ ln2 col2) acc2 ch _ Hhd2 Hns).
    rewrite Hscan2; cbn [rbind].
    rewrite (lexer_eta lx1), Hrest1 in H.
    rewrite (lexer_eta lx2), Hrest2.
    refine (IH Hc _ _ _ _ _ _ _ _ H).
    apply push_token_erase; [exact Hacc | congruence].
Qed.

Lemma tokenize_list (text : string) :
  tokenize text = tokenize_from (mkLexer (list_ascii_of_string text) 1 1) [].
Proof. reflexivity. Qed.

(** Texts whose tokens agree up to positions parse and translate alike. *)
Lemma parse_text_erased (text text' : string) (ts ts' : list Token)
    (nodes : list ASTNode) :
  tokenize text = Ok ts -> tokenize text' = Ok ts' ->
  map erase ts' = map erase ts ->
  parse_text text = Ok nodes ->
  exists nodes',
    parse_text text' = Ok nodes'
    /\ map erase_node nodes' = map erase_node nodes.
Proof.
  intros Hts Hts' Heq; unfold parse_text; rewrite Hts, Hts'; cbn [rbind].
  exact (parse_erased ts ts' nodes Heq).
Qed.

Lemma translate_in_erased (globals : list string) (text text' : string)
    (ts ts' : list Token) (results : dict Value) :
  tokenize text = Ok ts -> tokenize text' = Ok ts' ->
  map erase ts' = map erase ts ->
  translate_in globals text = Ok results ->
  translate_in globals text' = Ok results.
Proof.
  intros Hts Hts' Heq H; unfold translate_in, parse_text in *.
  rewrite Hts in H; rewrite Hts'; cbn [rbind] in *.
  destruct (let* nodes := parse ts in evaluate_all_in globals ∅ nodes)
    as [r|e] eqn:Hr; [|discriminate].
  cbn [map_err] in H; inversion H; subst r.
  rewrite (evaluate_parse_erased globals ts ts' results Heq Hr); reflexivity.
Qed.

Lemma translate_in_tokens (globals : list string) (text : string)
    (results : dict Value) :
  translate_in globals text = Ok results ->
  exists ts, tokenize text = Ok ts.
Proof.
  unfold translate_in; destruct (tokenize text) as [ts|e];
    [exists ts; reflexivity | discriminate].
Qed.

Lemma parse_text_tokens (text : string) (nodes : list ASTNode) :
  parse_text text = Ok nodes -> exists ts, tokenize text = Ok ts.
Proof.
  unfold parse_text; destruct (tokenize text) as [ts|e];
    [exists ts; reflexivity | discriminate].
Qed.

Lemma tokenize_insert_comment (s1 c s2 : string) (ts : list Token) :
  ws_legal (list_ascii_of_string s1) (list_ascii_of_string s2) ->
  comment_before (list_ascii_of_string s2) (list_ascii_of_string c) ->
  tokenize (s1 +:+ s2) = Ok ts ->
  exists ts2,
    tokenize (s1 +:+ c +:+ s2) = Ok ts2 /\ map erase ts2 = map erase ts.
Proof.
  intros Hlegal Hc; rewrite !tokenize_list, !list_ascii_of_string_app.
  exact (tokenize_from_insert _ _ _ Hlegal Hc 1 1 [] 1 1 [] ts eq_refl).
Qed.

(** C9: when a text translates, putting a comment at a place of the text
    where white space is legal (a single-line comment with its line break or
    in front of one, or a block comment) leaves the resolved output mapping
    as it is.  That holds of [translate], which succeeds on the texts
    without a statement, and of the translation in any namespace; and
    whenever the text parses, the text with the comment parses to the same
    statements, up to the positions kept in the tokens of constant
    expressions. *)
Theorem comment_insertion (s1 c s2 : string) :
  ws_legal (list_ascii_of_string s1) (list_ascii_of_string s2) ->
  comment_before (list_ascii_of_string s2) (list_ascii_of_string c) ->
  (forall results,
      translate (s1 +:+ s2) = Ok results ->
      translate (s1 +:+ c +:+ s2) = Ok results)
  /\ (forall globals results,
         translate_in globals (s1 +:+ s2) = Ok results ->
         translate_in globals (s1 +:+ c +:+ s2) = Ok results)
  /\ (forall nodes,
         parse_text (s1 +:+ s2) = Ok nodes ->
         exists nodes',
           parse_text (s1 +:+ c +:+ s2) = Ok nodes'
           /\ map erase_node nodes' = map erase_node nodes).
Proof.
  intros Hlegal Hc.
  assert (Hin : forall globals results,
             translate_in globals (s1 +:+ s2) = Ok results ->
             translate_in globals (s1 +:+ c +:+ s2) = Ok results).
  { intros globals results H.
    destruct (translate_in_tokens _ _ _ H) as [ts Hts].
    destruct (tokenize_insert_comment s1 c s2 ts Hlegal Hc Hts)
      as (ts2 & Hts2 & Herase).
    exact (translate_in_erased globals _ _ ts ts2 results Hts Hts2 Herase H). }
  split; [|split].
  - intros results; exact (Hin evaluator_globals results).
  - exact Hin.
  - intros nodes H.
    destruct (parse_text_tokens _ _ H) as [ts Hts].
    destruct (tokenize_insert_comment s1 c s2 ts Hlegal Hc Hts)
      as (ts2 & Hts2 & Herase).
    exact (parse_text_erased _ _ ts ts2 nodes Hts Hts2 Herase H).
Qed.

Ltac legal_item_step u0 r0 :=
  eapply (legal_item u0 r0);
  [ reflexivity | reflexivity | vm_compute; reflexivity | reflexivity
  | let H := fresh in intros H; vm_compute in H; discriminate H | ].

Lemma comment_insertion_witness :
  translate ":: head
<# the
answer #> "
  = Ok []
  /\ translate_in ("ConstDeclarationNode" :: evaluator_globals)
       "x <- 42.0;:: the answer
 y <- x;"
     = Ok [("x", VNum 42); ("y", VNum 42)]
  /\ exists nodes',
       parse_text "x <-<# the
answer #> 42.0; y <- x;" = Ok nodes'
       /\ map erase_node nodes'
          = map erase_node [ConstDeclarationNode "x" (NumberNode 42);
                            ConstDeclarationNode "y" (NameNode "x")].
Proof.
  split; [|split].
  - refine (proj1 (comment_insertion ":: head
" "<# the
answer #>" " " _ _) _ _).
    + cbv [list_ascii_of_string].
      eapply (legal_item [":"; ":"; " "; "h"; "e"; "a"; "d"]%char
                         ["010"%char]);
        [ reflexivity | reflexivity | vm_compute; reflexivity | reflexivity
        | intros _; discriminate | ].
      apply legal_space; [reflexivity|].
      apply legal_here.
    + apply (block_comment _ (list_ascii_of_string " the
answer ")); reflexivity.
    + vm_compute; reflexivity.
  - refine (proj1 (proj2 (comment_insertion "x <- 42.0;" ":: the answer
" " y <- x;" _ _)) _ _ _).
    + cbv [list_ascii_of_string].
      legal_item_step ["x"%char] [" "; "<"; "-"; " "; "4"; "2"; "."; "0"; ";"]%char.
      apply legal_space; [reflexivity|].
      legal_item_step ["<"; "-"]%char [" "; "4"; "2"; "."; "0"; ";"]%char.
      apply legal_space; [reflexivity|].
      legal_item_step ["4"; "2"; "."; "0"]%char [";"%char].
      legal_item_step [";"%char] (@nil ascii).
      apply legal_here.
    + apply (line_comment_newline _ (list_ascii_of_string " the answer"));
        reflexivity.
    + vm_compute; reflexivity.
  - refine (proj2 (proj2 (comment_insertion "x <-" "<# the
answer #>" " 42.0; y <- x;" _ _)) _ _).
    + cbv [list_ascii_of_string].
      legal_item_step ["x"%char] [" "; "<"; "-"]%char.
      apply legal_space; [reflexivity|].
      legal_item_step ["<"; "-"]%char (@nil ascii).
      apply legal_here.
    + apply (block_comment _ (list_ascii_of_string " the
answer ")); reflexivity.
    + vm_compute; reflexivity.
Defined.

(** Inside a comment white space is comment text, and there the insertion
    of a comment can change the outcome: a block comment put inside a block
    comment closes it early, a block comment that spans lines put at the end
    of a single-line comment ends up half outside of it, and a single-line
    comment with its line break put inside a single-line comment releases
    the rest of the line. *)
Remark comment_inside_comment :
  translate "<# a #>" = Ok []
  /\ translate "<#<#c#> a #>"
     = Err (mkTranslationError Lexical
              (LexerError (UnexpectedCharacter "#") 1 11))
  /\ translate ":: a
" = Ok []
  /\ translate ":: a<#
#>
"
     = Err (mkTranslationError Lexical
              (LexerError (UnexpectedCharacter "#") 2 1))
  /\ translate ":: a [
" = Ok []
  /\ translate ":: a:: c
 [
"
     = Err (mkTranslationError Syntactic
              (ParseError (UnexpectedTokenInValue EOF)
                 (Some (mkToken EOF TNone 3 1)))).
Proof. repeat split; vm_compute; reflexivity. Qed.

(** ** Uppercase letters *)

(** C8, as the lexer has it.  In a text, at a place the main loop gets to,
    an uppercase letter is rejected as an unexpected character; an uppercase
    letter after the lowercase start and further characters of a name that
    begins at such a place is rejected as an invalid character of the name.
    Either error carries the line and column of that letter in the text. *)
Theorem uppercase_letter_rejected (s1 r : list ascii) (u : ascii) :
  isupper u = true ->
  (ws_legal s1 (u :: r) ->
   tokenize (string_of_list_ascii (s1 ++ u :: r))
   = Err (LexerError (UnexpectedCharacter u)
            (fst (position_after s1)) (snd (position_after s1))))
  /\ (forall c0 p,
         islower c0 = true -> forallb ident_char p = true ->
         ws_legal s1 (c0 :: p ++ u :: r) ->
         tokenize (string_of_list_ascii (s1 ++ c0 :: p ++ u :: r))
         = Err (LexerError (InvalidCharacter u)
                  (fst (position_after (s1 ++ c0 :: p)))
                  (snd (position_after (s1 ++ c0 :: p))))).
Proof.
  intros Hu; split.
  - intros Hlegal.
    rewrite tokenize_list, list_ascii_of_string_of_list_ascii.
    destruct (tokenize_from_legal _ _ Hlegal 1 1 []) as [acc' ->].
    exact (uppercase_at_start (mkLexer _ _ _) _ u r Hu eq_refl).
  - intros c0 p Hc0 Hp Hlegal.
    rewrite tokenize_list, list_ascii_of_string_of_list_ascii.
    destruct (tokenize_from_legal _ _ Hlegal 1 1 []) as [acc' ->].
    rewrite (uppercase_in_name (mkLexer _ _ _) _ u r c0 p Hu eq_refl Hc0 Hp).
    cbn [cur_line cur_column].
    unfold position_after; rewrite move_app.
    destruct (islower_class c0 Hc0) as (_ & _ & _ & Hnl0 & _).
    change (move (c0 :: p) (move s1 (1, 1)))
      with (move p (step_position (move s1 (1, 1)) c0)).
    unfold step_position; rewrite Hnl0, (move_name p _ _ Hp).
    cbn [fst snd]; do 2 f_equal; lia.
Qed.

Lemma uppercase_letter_rejected_witness :
  tokenize "a <- 1;
Var <- 2;" = Err (LexerError (UnexpectedCharacter "V") 2 1)
  /\ tokenize "a <- 1;
 myVar <- 2;" = Err (LexerError (InvalidCharacter "V") 2 4).
Proof.
  split.
  - apply (proj1 (uppercase_letter_rejected
                    (list_ascii_of_string "a <- 1;
") (list_ascii_of_string "ar <- 2;") "V" eq_refl)).
    cbv [list_ascii_of_string].
    legal_item_step ["a"%char] [" "; "<"; "-"; " "; "1"; ";"; newline]%char.
    apply legal_space; [reflexivity|].
    legal_item_step ["<"; "-"]%char [" "; "1"; ";"; newline]%char.
    apply legal_space; [reflexivity|].
    legal_item_step ["1"%char] [";"; newline]%char.
    legal_item_step [";"%char] [newline].
    apply legal_space; [reflexivity|].
    apply legal_here.
  - apply (proj2 (uppercase_letter_rejected
                    (list_ascii_of_string "a <- 1;
 ") (list_ascii_of_string "ar <- 2;") "V" eq_refl)
             "m"%char ["y"%char] eq_refl eq_refl).
    cbv [list_ascii_of_string].
    legal_item_step ["a"%char] [" "; "<"; "-"; " "; "1"; ";"; newline; " "]%char.
    apply legal_space; [reflexivity|].
    legal_item_step ["<"; "-"]%char [" "; "1"; ";"; newline; " "]%char.
    apply legal_space; [reflexivity|].
    legal_item_step ["1"%char] [";"; newline; " "]%char.
    legal_item_step [";"%char] [newline; " "%char].
    apply legal_space; [reflexivity|].
    apply legal_space; [reflexivity|].
    apply legal_here.
Defined.

(** C8 as stated fails on the first character: [MyVar] is rejected with the
    unexpected-character error, not the invalid-character one. *)
Lemma uppercase_first_is_unexpected_character :
  tokenize "MyVar" = Err (LexerError (UnexpectedCharacter "M") 1 1)
  /\ tokenize "MyVar" <> Err (LexerError (InvalidCharacter "M") 1 1).
Proof. split; vm_compute; [reflexivity | discriminate]. Qed.

(** ** The fuel of the entry points is enough *)

Lemma skip_to_close_error (s : list ascii) (ln col : nat) (e : Exception) :
  skip_to_close s ln col = Err e -> e <> OutOfFuel.
Proof.
  revert ln col; induction s as [|c s IH]; intros ln col; simpl.
  - intros H; inversion H; discriminate.
  - destruct (ascii_eqb c "#" && _); [discriminate | apply IH].
Qed.

Lemma read_name_loop_error (s : list ascii) (ln col : nat) (e : Exception) :
  read_name_loop s ln col = Err e -> e <> OutOfFuel.
Proof.
  revert ln col; induction s as [|c s IH]; intros ln col; simpl;
    [discriminate|].
  destruct (isalnum c || ascii_eqb c "_"); [|discriminate].
  destruct (isupper c); [intros H; inversion H; discriminate|].
  destruct (read_name_loop s _ _) as [[cs lx]|e'] eqn:Hrec; simpl;
    [discriminate|].
  intros H; inversion H; subst; exact (IH _ _ Hrec).
Qed.

Lemma scan_item_error (lx : Lexer) (c : ascii) (e : Exception) :
  scan_item lx c = Err e -> e <> OutOfFuel.
Proof.
  unfold scan_item.
  destruct (ascii_eqb c ":" && _); [discriminate|].
  destruct (ascii_eqb c "<" && peek_is lx 1 "#").
  { unfold skip_multi_line_comment.
    destruct (skip_to_close _ _ _) as [lx'|e'] eqn:H; simpl; [discriminate|].
    intros He; inversion He; subst; exact (skip_to_close_error _ _ _ _ H). }
  destruct (isdigit c).
  { unfold read_number.
    destruct (read_digits _ _ _) as [ip lx1].
    destruct (match peek lx1 0 with Some _ => _ | None => _ end) as [n lx2].
    destruct (py_float _); simpl; [discriminate|].
    intros He; inversion He; discriminate. }
  destruct (islower c).
  { unfold read_name.
    destruct (advance lx) as [[c0|] lx1];
      [|simpl; intros He; inversion He; discriminate].
    destruct (read_name_loop _ _ _) as [[cs lx2]|e'] eqn:H; cbn [rbind].
    - destruct (String.eqb _ "sort"); discriminate.
    - intros He; inversion He; subst; exact (read_name_loop_error _ _ _ _ H). }
  cbn zeta.
  destruct (ascii_eqb c "<" && peek_is lx 1 "-"); [discriminate|].
  destruct (punctuation c) as [[ty v]|]; [discriminate|].
  intros He; inversion He; discriminate.
Qed.

(** The lexer never runs out of fuel. *)
Lemma tokenize_loop_enough (fuel : nat) (lx : Lexer) (tokens : list Token) :
  length (rest lx) < fuel -> tokenize_loop fuel lx tokens <> Err OutOfFuel.
Proof.
  revert lx tokens; induction fuel as [|fuel IH]; intros lx tokens Hlen;
    [lia|].
  cbn [tokenize_loop].
  destruct (rest lx) as [|c0 s0] eqn:Hr; [discriminate|].
  pose proof (skip_whitespace_loop_length (rest lx) (cur_line lx)
                (cur_column lx)) as Hws.
  fold (skip_whitespace lx) in Hws.
  unfold peek.
  destruct (rest (skip_whitespace lx)) as [|c s] eqn:Hr1; [discriminate|].
  cbn [nth_error].
  destruct (scan_item (skip_whitespace lx) c) as [[t lx']|e] eqn:Hscan;
    cbn [rbind].
  - pose proof (scan_item_shrinks _ _ _ _ _ Hr1 Hscan) as Hsh.
    rewrite Hr in *; simpl in *.
    apply IH; lia.
  - intros He; inversion He; subst; exact (scan_item_error _ _ _ Hscan eq_refl).
Qed.

Lemma tokenize_fuel_enough (text : string) : tokenize text <> Err OutOfFuel.
Proof. apply tokenize_loop_enough; simpl; lia. Qed.

(** What the parser consumes. *)

Tactic Notation "bind_pair" hyp(H) "as" ident(x) ident(y) ident(Hx) :=
  match type of H with
  | rbind ?r _ = _ =>
      destruct r as [[x y]|?] eqn:Hx; cbn [rbind] in H; [|discriminate H]
  end.

Tactic Notation "bind_one" hyp(H) "as" ident(x) ident(Hx) :=
  match type of H with
  | rbind ?r _ = _ =>
      destruct r as [x|?] eqn:Hx; cbn [rbind] in H; [|discriminate H]
  end.

Lemma eat_length (ty : TokenType) (ts ts' : list Token) (t : Token) :
  eat ty ts = Ok (t, ts') -> length ts = S (length ts').
Proof.
  destruct ts as [|t0 ts0]; simpl; [discriminate|].
  destruct (TokenType_eqb (type t0) ty); [|destruct ts0; discriminate].
  intros H; inversion H; reflexivity.
Qed.

Lemma current_type_length (ts : list Token) (ty : TokenType) :
  current_type ts = Ok ty -> 1 <= length ts.
Proof. destruct ts; simpl; [discriminate | lia]. Qed.

Lemma collect_expression_length (ts : list Token) (n : nat)
    (acc expr ts' : list Token) :
  collect_expression ts n acc = Ok (expr, ts') -> length ts' <= length ts.
Proof.
  revert n acc; induction ts as [|t ts IH]; intros n acc H.
  - inversion H; reflexivity.
  - cbn [collect_expression] in H.
    destruct (Nat.ltb 0 _).
    + apply IH in H; simpl; lia.
    + bind_pair H as t1 ts1 H1.
      inversion H; subst; apply eat_length in H1; lia.
Qed.

Lemma parse_const_expression_length (ts ts' : list Token) (node : ASTNode) :
  parse_const_expression ts = Ok (node, ts') -> length ts' < length ts.
Proof.
  unfold parse_const_expression; intros H.
  bind_pair H as t1 ts1 H1; bind_pair H as t2 ts2 H2.
  bind_pair H as expr ts3 H3.
  apply eat_length in H1, H2; apply collect_expression_length in H3.
  destruct ts3 as [|t3 ts3]; [destruct ts2; discriminate|].
  destruct (TokenType_eqb (type t3) DOT); [|discriminate].
  bind_pair H as t4 ts4 H4; apply eat_length in H4.
  inversion H; subst; simpl in *; lia.
Qed.

Lemma parse_value_length_all (fuel : nat) :
  (forall ts node ts',
      parse_value fuel ts = Ok (node, ts') -> length ts' < length ts)
  /\ (forall ts node ts',
         parse_array fuel ts = Ok (node, ts') -> length ts' < length ts)
  /\ (forall ts elements elements' ts',
         parse_array_loop fuel ts elements = Ok (elements', ts') ->
         length ts' < length ts)
  /\ (forall ts node ts',
         parse_dict fuel ts = Ok (node, ts') -> length ts' < length ts)
  /\ (forall ts pairs pairs' ts',
         parse_dict_loop fuel ts pairs = Ok (pairs', ts') ->
         length ts' < length ts).
Proof.
  induction fuel as [|fuel (IHv & IHa & IHal & IHd & IHdl)];
    [repeat split; discriminate|].
  split; [|split; [|split; [|split]]].
  - (* parse_value *)
    intros [|t ts] node ts' H; [discriminate|].
    cbn [parse_value] in H.
    destruct (type t); try (discriminate H).
    + bind_one H as f Hf; inversion H; subst; simpl; lia.
    + bind_one H as s Hs; inversion H; subst; simpl; lia.
    + exact (IHa _ _ _ H).
    + exact (IHd _ _ _ H).
    + exact (parse_const_expression_length _ _ _ H).
  - (* parse_array *)
    intros ts node ts' H; cbn [parse_array] in H.
    bind_pair H as t1 ts1 H1; apply eat_length in H1.
    bind_one H as ty Hty.
    destruct (TokenType_eqb ty RBRACKET).
    + bind_pair H as t2 ts2 H2; apply eat_length in H2.
      inversion H; subst; lia.
    + bind_pair H as els ts2 H2; apply IHal in H2.
      bind_pair H as t3 ts3 H3; apply eat_length in H3.
      inversion H; subst; lia.
  - (* parse_array_loop *)
    intros ts elements elements' ts' H; cbn [parse_array_loop] in H.
    bind_pair H as v ts1 H1; apply IHv in H1.
    bind_one H as ty Hty.
    destruct (TokenType_eqb ty SEMICOLON).
    + bind_pair H as t2 ts2 H2; apply eat_length in H2.
      bind_one H as ty2 Hty2.
      destruct (TokenType_eqb ty2 RBRACKET).
      * inversion H; subst; lia.
      * apply IHal in H; lia.
    + destruct (TokenType_eqb ty RBRACKET); [|destruct ts1; discriminate].
      inversion H; subst; lia.
  - (* parse_dict *)
    intros ts node ts' H; cbn [parse_dict] in H.
    bind_pair H as t1 ts1 H1; apply eat_length in H1.
    bind_one H as ty Hty.
    destruct (TokenType_eqb ty RBRACE).
    + bind_pair H as t2 ts2 H2; apply eat_length in H2.
      inversion H; subst; lia.
    + bind_pair H as prs ts2 H2; apply IHdl in H2.
      bind_pair H as t3 ts3 H3; apply eat_length in H3.
      inversion H; subst; lia.
  - (* parse_dict_loop *)
    intros ts pairs pairs' ts' H; cbn [parse_dict_loop] in H.
    bind_one H as ty Hty.
    destruct (negb (TokenType_eqb ty NAME)); [destruct ts; discriminate|].
    bind_pair H as t1 ts1 H1; apply eat_length in H1.
    bind_one H as key Hkey.
    bind_pair H as t2 ts2 H2; apply eat_length in H2.
    bind_pair H as v ts3 H3; apply IHv in H3.
    bind_one H as ty3 Hty3.
    destruct (TokenType_eqb ty3 SEMICOLON).
    + bind_pair H as t4 ts4 H4; apply eat_length in H4.
      bind_one H as ty4 Hty4.
      destruct (TokenType_eqb ty4 RBRACE).
      * inversion H; subst; lia.
      * apply IHdl in H; lia.
    + destruct (TokenType_eqb ty3 RBRACE); [|destruct ts3; discriminate].
      inversion H; subst; lia.
Qed.

Lemma eat_fuel (ty : TokenType) (ts : list Token) :
  eat ty ts <> Err OutOfFuel.
Proof.
  destruct ts as [|t ts]; simpl; [discriminate|].
  destruct (TokenType_eqb (type t) ty); discriminate.
Qed.

Lemma current_type_fuel (ts : list Token) : current_type ts <> Err OutOfFuel.
Proof. destruct ts; discriminate. Qed.

Lemma token_str_fuel (t : Token) : token_str t <> Err OutOfFuel.
Proof. unfold token_str; destruct (value t); discriminate. Qed.

Lemma token_float_fuel (t : Token) : token_float t <> Err OutOfFuel.
Proof. unfold token_float; destruct (value t); discriminate. Qed.

Lemma parse_error_fuel {A} (ts : list Token) (m : ParseMessage) :
  parse_error (A := A) ts m <> Err OutOfFuel.
Proof. discriminate. Qed.

Tactic Notation "fuel_pair" constr(lem) "as" ident(x) ident(y) ident(Hx) :=
  match goal with
  | |- rbind ?r _ <> _ =>
      let Hoof := fresh in
      destruct r as [[x y]|?] eqn:Hx; cbn [rbind];
      [|intros Hoof; inversion Hoof; subst;
        first [exact (lem Hx) | exact (lem eq_refl)]]
  end.

Tactic Notation "fuel_one" constr(lem) "as" ident(x) ident(Hx) :=
  match goal with
  | |- rbind ?r _ <> _ =>
      let Hoof := fresh in
      destruct r as [x|?] eqn:Hx; cbn [rbind];
      [|intros Hoof; inversion Hoof; subst;
        first [exact (lem Hx) | exact (lem eq_refl)]]
  end.

Lemma collect_expression_fuel (ts : list Token) (n : nat) (acc : list Token) :
  collect_expression ts n acc <> Err OutOfFuel.
Proof.
  revert n acc; induction ts as [|t ts IH]; intros n acc; [discriminate|].
  cbn [collect_expression].
  destruct (Nat.ltb 0 _); [apply IH|].
  fuel_pair (eat_fuel RPAREN (t :: ts)) as t1 ts1 H1; discriminate.
Qed.

Lemma parse_const_expression_fuel (ts : list Token) :
  parse_const_expression ts <> Err OutOfFuel.
Proof.
  unfold parse_const_expression.
  fuel_pair (eat_fuel DOT ts) as t1 ts1 H1.
  fuel_pair (eat_fuel LPAREN ts1) as t2 ts2 H2.
  fuel_pair (collect_expression_fuel ts2 1 []) as expr ts3 H3.
  destruct ts3 as [|t3 ts3]; [discriminate|].
  destruct (TokenType_eqb (type t3) DOT); [|discriminate].
  fuel_pair (eat_fuel DOT (t3 :: ts3)) as t4 ts4 H4; discriminate.
Qed.

(** Three units of fuel per token are enough for a value. *)
Lemma parse_value_fuel_all (fuel : nat) :
  (forall ts,
      3 * length ts <= fuel -> 1 <= fuel ->
      parse_value fuel ts <> Err OutOfFuel)
  /\ (forall ts,
         3 * length ts <= fuel + 1 -> 1 <= fuel ->
         parse_array fuel ts <> Err OutOfFuel)
  /\ (forall ts elements,
         3 * length ts + 1 <= fuel -> 2 <= fuel ->
         parse_array_loop fuel ts elements <> Err OutOfFuel)
  /\ (forall ts,
         3 * length ts <= fuel + 1 -> 1 <= fuel ->
         parse_dict fuel ts <> Err OutOfFuel)
  /\ (forall ts pairs,
         3 * length ts + 1 <= fuel -> 2 <= fuel ->
         parse_dict_loop fuel ts pairs <> Err OutOfFuel).
Proof.
  induction fuel as [|fuel (IHv & IHa & IHal & IHd & IHdl)];
    [repeat split; intros; lia|].
  destruct (parse_value_length_all fuel) as (Lv & _).
  split; [|split; [|split; [|split]]].
  - (* parse_value *)
    intros [|t ts] Hlen _; [discriminate|].
    cbn [parse_value]; simpl in Hlen.
    destruct (type t); try (apply parse_error_fuel).
    + fuel_one (token_float_fuel t) as f Hf; discriminate.
    + fuel_one (token_str_fuel t) as s Hs; discriminate.
    + apply IHa; simpl; lia.
    + apply IHd; simpl; lia.
    + apply parse_const_expression_fuel.
  - (* parse_array *)
    intros ts Hlen _; cbn [parse_array].
    fuel_pair (eat_fuel LBRACKET ts) as t1 ts1 H1; apply eat_length in H1.
    fuel_one (current_type_fuel ts1) as ty Hty.
    apply current_type_length in Hty.
    destruct (TokenType_eqb ty RBRACKET).
    + fuel_pair (eat_fuel RBRACKET ts1) as t2 ts2 H2; discriminate.
    + assert (Hloop := IHal ts1 [] ltac:(lia) ltac:(lia)).
      fuel_pair Hloop as els ts2 H2.
      fuel_pair (eat_fuel RBRACKET ts2) as t3 ts3 H3; discriminate.
  - (* parse_array_loop *)
    intros ts elements Hlen Hf; cbn [parse_array_loop].
    assert (Hval := IHv ts ltac:(lia) ltac:(lia)).
    fuel_pair Hval as v ts1 H1; apply Lv in H1.
    fuel_one (current_type_fuel ts1) as ty Hty.
    apply current_type_length in Hty.
    destruct (TokenType_eqb ty SEMICOLON).
    + fuel_pair (eat_fuel SEMICOLON ts1) as t2 ts2 H2; apply eat_length in H2.
      fuel_one (current_type_fuel ts2) as ty2 Hty2.
      apply current_type_length in Hty2.
      destruct (TokenType_eqb ty2 RBRACKET); [discriminate|].
      apply IHal; lia.
    + destruct (TokenType_eqb ty RBRACKET);
        [discriminate | apply parse_error_fuel].
  - (* parse_dict *)
    intros ts Hlen _; cbn [parse_dict].
    fuel_pair (eat_fuel LBRACE ts) as t1 ts1 H1; apply eat_length in H1.
    fuel_one (current_type_fuel ts1) as ty Hty.
    apply current_type_length in Hty.
    destruct (TokenType_eqb ty RBRACE).
    + fuel_pair (eat_fuel RBRACE ts1) as t2 ts2 H2; discriminate.
    + assert (Hloop := IHdl ts1 [] ltac:(lia) ltac:(lia)).
      fuel_pair Hloop as prs ts2 H2.
      fuel_pair (eat_fuel RBRACE ts2) as t3 ts3 H3; discriminate.
  - (* parse_dict_loop *)
    intros ts pairs Hlen Hf; cbn [parse_dict_loop].
    fuel_one (current_type_fuel ts) as ty Hty.
    destruct (negb (TokenType_eqb ty NAME)); [apply parse_error_fuel|].
    fuel_pair (eat_fuel NAME ts) as t1 ts1 H1; apply eat_length in H1.
    fuel_one (token_str_fuel t1) as key Hkey.
    fuel_pair (eat_fuel EQUALS ts1) as t2 ts2 H2; apply eat_length in H2.
    assert (Hval := IHv ts2 ltac:(lia) ltac:(lia)).
    fuel_pair Hval as v ts3 H3; apply Lv in H3.
    fuel_one (current_type_fuel ts3) as ty3 Hty3.
    apply current_type_length in Hty3.
    destruct (TokenType_eqb ty3 SEMICOLON).
    + fuel_pair (eat_fuel SEMICOLON ts3) as t4 ts4 H4; apply eat_length in H4.
      fuel_one (current_type_fuel ts4) as ty4 Hty4.
      apply current_type_length in Hty4.
      destruct (TokenType_eqb ty4 RBRACE); [discriminate|].
      apply IHdl; lia.
    + destruct (TokenType_eqb ty3 RBRACE);
        [discriminate | apply parse_error_fuel].
Qed.

Lemma parse_statement_fuel (ts : list Token) :
  parse_statement (3 * length ts) ts <> Err OutOfFuel.
Proof.
  destruct (parse_value_fuel_all (3 * length ts)) as (Fv & _).
  unfold parse_statement.
  fuel_one (current_type_fuel ts) as ty Hty.
  apply current_type_length in Hty.
  destruct (TokenType_eqb ty NAME); [|apply Fv; lia].
  fuel_pair (eat_fuel NAME ts) as t1 ts1 H1; apply eat_length in H1.
  fuel_one (current_type_fuel ts1) as ty1 Hty1.
  destruct (TokenType_eqb ty1 ASSIGN); [|apply Fv; lia].
  fuel_pair (eat_fuel ASSIGN ts1) as t2 ts2 H2; apply eat_length in H2.
  assert (Hval := Fv ts2 ltac:(lia) ltac:(lia)).
  fuel_pair Hval as v ts3 H3.
  fuel_one (token_str_fuel t1) as name Hname; discriminate.
Qed.

Lemma parse_statement_length (fuel : nat) (ts ts' : list Token)
    (node : ASTNode) :
  parse_statement fuel ts = Ok (node, ts') -> length ts' < length ts.
Proof.
  destruct (parse_value_length_all fuel) as (Lv & _).
  unfold parse_statement; intros H.
  bind_one H as ty Hty.
  destruct (TokenType_eqb ty NAME); [|exact (Lv _ _ _ H)].
  bind_pair H as t1 ts1 H1; apply eat_length in H1.
  bind_one H as ty1 Hty1.
  destruct (TokenType_eqb ty1 ASSIGN); [|exact (Lv _ _ _ H)].
  bind_pair H as t2 ts2 H2; apply eat_length in H2.
  bind_pair H as v ts3 H3; apply Lv in H3.
  bind_one H as name Hname; inversion H; subst; lia.
Qed.

Lemma parse_loop_enough (fuel : nat) (ts : list Token)
    (statements : list ASTNode) :
  length ts < fuel -> parse_loop fuel ts statements <> Err OutOfFuel.
Proof.
  revert ts statements; induction fuel as [|fuel IH]; intros ts statements Hf;
    [lia|].
  destruct ts as [|t ts]; [discriminate|].
  cbn [parse_loop].
  destruct (TokenType_eqb (type t) EOF); [discriminate|].
  fuel_pair (parse_statement_fuel (t :: ts)) as s ts1 H1.
  apply parse_statement_length in H1.
  destruct ts1 as [|t1 ts1]; [apply IH; simpl in *; lia|].
  destruct (TokenType_eqb (type t1) SEMICOLON);
    [|apply IH; simpl in *; lia].
  fuel_pair (eat_fuel SEMICOLON (t1 :: ts1)) as t2 ts2 H2.
  apply eat_length in H2; apply IH; simpl in *; lia.
Qed.

(** The parser never runs out of fuel. *)
Lemma parse_fuel_enough (tokens : list Token) : parse tokens <> Err OutOfFuel.
Proof. apply parse_loop_enough; lia. Qed.

(** The evaluator uses no fuel. *)
Lemma eval_token_fuel (constants : Env) (token : Token) (stack : list Value) :
  eval_token constants token stack <> Err OutOfFuel.
Proof.
  unfold eval_token.
  destruct (type token); try discriminate.
  - fuel_one (token_float_fuel token) as f Hf; discriminate.
  - fuel_one (token_str_fuel token) as name Hname.
    destruct (String.eqb name "sort").
    + destruct stack as [|[x|items|entries] stack]; try discriminate.
      destruct (sorted items) as [r|e] eqn:Hs; [discriminate|].
      rewrite (sorted_error _ _ Hs); discriminate.
    + destruct (constants !! name); discriminate.
  - destruct stack as [|b [|a stack]]; try discriminate.
    destruct a, b; discriminate.
  - destruct stack as [|b [|a stack]]; try discriminate.
    destruct a, b; discriminate.
Qed.

Lemma evaluate_expression_fuel (constants : Env) (expr_tokens : list Token) :
  evaluate_expression constants expr_tokens <> Err OutOfFuel.
Proof.
  unfold evaluate_expression; generalize (@nil Value) as stack.
  induction expr_tokens as [|t ts IH]; intros stack; cbn [eval_tokens rbind].
  - destruct stack as [|v [|w stack]]; discriminate.
  - pose proof (eval_token_fuel constants t stack) as Ht.
    destruct (eval_token constants t stack) as [stack'|e]; cbn [rbind];
      [apply IH | congruence].
Qed.

Lemma evaluate_node_fuel (constants : Env) (node : ASTNode) :
  evaluate_node constants node <> Err OutOfFuel.
Proof.
  induction node as [v|name|elements IH|pairs IH|name val IH|tokens]
    using ASTNode_nested_ind.
  - discriminate.
  - simpl; destruct (constants !! name); discriminate.
  - cbn [evaluate_node].
    match goal with
    | |- rmap VList ?a <> _ =>
        assert (Hl : a <> Err OutOfFuel);
        [|destruct a; simpl; congruence]
    end.
    induction IH as [|elem elements Helem _ IHl]; [discriminate|].
    destruct (evaluate_node constants elem) as [v|e]; cbn [rbind];
      [|congruence].
    match goal with
    | |- rbind ?b _ <> _ => destruct b; cbn [rbind]; congruence
    end.
  - cbn [evaluate_node].
    match goal with
    | |- rmap VDict ?a <> _ =>
        assert (Hl : a <> Err OutOfFuel);
        [|destruct a; simpl; congruence]
    end.
    induction IH as [|[key val] pairs Hval _ IHl]; [discriminate|].
    cbn [fst snd] in *.
    destruct (evaluate_node constants val) as [v|e]; cbn [rbind];
      [|congruence].
    match goal with
    | |- rbind ?b _ <> _ => destruct b; cbn [rbind]; congruence
    end.
  - discriminate.
  - apply evaluate_expression_fuel.
Qed.

Lemma evaluate_all_fuel (globals : list string) (constants : Env)
    (nodes : list ASTNode) :
  evaluate_all_in globals constants nodes <> Err OutOfFuel.
Proof.
  unfold evaluate_all_in; generalize (constants, @nil (string * Value)).
  induction nodes as [|node nodes IH]; intros [env results];
    [discriminate|].
  cbn [evaluate_statements_in].
  assert (Hst : evaluate_statement_in globals (env, results) node
                <> Err OutOfFuel).
  { destruct (lookup_global_cases globals "ConstDeclarationNode") as [Hg|Hg];
      [|unfold evaluate_statement_in; rewrite Hg; discriminate].
    pose proof (evaluate_node_fuel env node) as Hn.
    destruct (is_declaration node) eqn:Hd.
    - destruct node; try discriminate.
      rewrite (evaluate_statement_declaration _ _ _ _ _ Hg).
      pose proof (evaluate_node_fuel env node) as Hv.
      destruct (evaluate_node env node); cbn [rbind]; congruence.
    - rewrite (evaluate_statement_bare _ _ _ _ Hg Hd).
      destruct (evaluate_node env node); cbn [rbind]; congruence. }
  destruct (evaluate_statement_in globals (env, results) node) as [st'|e];
    cbn [rbind]; [apply IH | simpl; congruence].
Qed.

(** No stage of the translation reports [OutOfFuel]. *)
Lemma translate_in_fuel_enough (globals : list string) (text : string)
    (st : Stage) :
  translate_in globals text <> Err (mkTranslationError st OutOfFuel).
Proof.
  unfold translate_in, parse_text.
  pose proof (tokenize_fuel_enough text) as Hlex.
  destruct (tokenize text) as [ts|e]; cbn [rbind map_err];
    [|intros H; inversion H; subst; apply Hlex; reflexivity].
  pose proof (parse_fuel_enough ts) as Hparse.
  destruct (parse ts) as [nodes|e]; cbn [rbind map_err];
    [|intros H; inversion H; subst; apply Hparse; reflexivity].
  pose proof (evaluate_all_fuel globals ∅ nodes) as Heval.
  destruct (evaluate_all_in globals ∅ nodes) as [r|e]; cbn [map_err];
    [discriminate | intros H; inversion H; subst; apply Heval; reflexivity].
Qed.

Lemma translate_fuel_enough (text : string) (st : Stage) :
  translate text <> Err (mkTranslationError st OutOfFuel).
Proof. exact (translate_in_fuel_enough evaluator_globals text st). Qed.

(** ** The main loop, from any state to its end *)

Lemma tokenize_from_advance (lx : Lexer) (tokens : list Token) (c : ascii)
    (s : list ascii) :
  rest lx = c :: s -> is_space c = true ->
  tokenize_from lx tokens = tokenize_from (advance_ lx) tokens.
Proof.
  intros Hr Hc; unfold tokenize_from at 1; rewrite Hr; cbn [length].
  rewrite (tokenize_loop_space _ lx _ c s Hr Hc).
  apply tokenize_loop_fuel.
  - destruct lx as [r ln col]; cbn [rest] in Hr; subst r.
    rewrite advance_rest; simpl; lia.
  - lia.
Qed.

(** A property of the lexer and its tokens that white space and every
    scanned item keep holds where the loop ends: at the end of the text,
    where the EOF token is added, or at the item that fails. *)
Lemma tokenize_from_run (Inv : Lexer -> list Token -> Prop) :
  (forall lx acc c s,
      rest lx = c :: s -> is_space c = true ->
      Inv lx acc -> Inv (advance_ lx) acc) ->
  (forall lx acc c s tok lx',
      rest lx = c :: s -> is_space c = false ->
      scan_item lx c = Ok (tok, lx') ->
      Inv lx acc -> Inv lx' (push_token acc tok)) ->
  forall lx acc,
    Inv lx acc ->
    match tokenize_from lx acc with
    | Ok ts =>
        exists lx1 acc1,
          rest lx1 = [] /\ Inv lx1 acc1 /\ ts = acc1 ++ [eof_token lx1]
    | Err e =>
        exists lx1 acc1 c s,
          rest lx1 = c :: s /\ is_space c = false /\ Inv lx1 acc1
          /\ scan_item lx1 c = Err e
    end.
Proof.
  intros Hspace Hitem lx.
  remember (length (rest lx)) as n eqn:Hn; revert lx Hn.
  induction n as [n IH] using lt_wf_ind; intros lx Hn acc Hinv.
  destruct (rest lx) as [|c s] eqn:Hr.
  - rewrite (tokenize_from_end lx acc Hr).
    exists lx, acc; repeat split; assumption.
  - destruct (is_space c) eqn:Hc.
    + rewrite (tokenize_from_advance lx acc c s Hr Hc).
      apply (IH (length s)); [subst n; simpl; lia | |].
      * destruct lx as [r ln col]; cbn [rest] in Hr; subst r.
        rewrite advance_rest; reflexivity.
      * exact (Hspace lx acc c s Hr Hc Hinv).
    + rewrite (tokenize_from_scan lx acc c s Hr Hc).
      destruct (scan_item lx c) as [[tok lx']|e] eqn:Hscan; cbn [rbind].
      * pose proof (scan_item_shrinks lx lx' c s tok Hr Hscan) as Hsh.
        apply (IH (length (rest lx'))); [subst n; simpl; lia | reflexivity |].
        exact (Hitem lx acc c s tok lx' Hr Hc Hscan Hinv).
      * exists lx, acc, c, s; repeat split; assumption.
Qed.

(** ** The tokens of a text *)

Lemma punctuation_token (c : ascii) (ty : TokenType) (v : string)
    (ln col : nat) :
  punctuation c = Some (ty, v) ->
  token_ok (mkToken ty (TStr v) ln col) = true
  /\ ty <> EOF /\ ty <> NEWLINE.
Proof.
  unfold punctuation.
  repeat (match goal with
          | |- context [if ?b then _ else _] => destruct b
          end;
          [intros H; inversion H; repeat split; discriminate|]).
  discriminate.
Qed.

Lemma read_number_token (lx lx' : Lexer) (t : Token) :
  read_number lx = Ok (t, lx') ->
  exists f, t = mkToken NUMBER (TNum f) (cur_line lx) (cur_column lx).
Proof.
  unfold read_number.
  destruct (read_digits _ _ _) as [ip lx1].
  destruct (match peek lx1 0 with Some _ => _ | None => _ end) as [n lx2].
  destruct (py_float _) as [f|]; [|discriminate].
  intros H; inversion H; exists f; reflexivity.
Qed.

Lemma is_identifier_chars (c0 : ascii) (cs : list ascii) :
  islower c0 = true -> forallb ident_char cs = true ->
  is_identifier (string_of_list_ascii (c0 :: cs)) = true.
Proof.
  intros H0 Hcs; unfold is_identifier.
  rewrite list_ascii_of_string_of_list_ascii, H0, Hcs; reflexivity.
Qed.

(** The token of one pass of the main loop: well formed, of a type other
    than EOF, at the position the pass began at. *)
Lemma scan_item_token (s : list ascii) (ln col : nat) (ch : ascii)
    (s0 : list ascii) (t : Token) (lx' : Lexer) :
  s = ch :: s0 ->
  scan_item (mkLexer s ln col) ch = Ok (Some t, lx') ->
  token_ok t = true /\ type t <> EOF /\ type t <> NEWLINE
  /\ token_position t = (ln, col).
Proof.
  intros -> H; unfold scan_item in H.
  destruct (ascii_eqb ch ":" && peek_is _ 1 ":"); [discriminate|].
  destruct (ascii_eqb ch "<" && peek_is _ 1 "#").
  { destruct (skip_multi_line_comment _); discriminate. }
  destruct (isdigit ch).
  { destruct (read_number _) as [[t1 lx1]|e] eqn:Hread; cbn [rbind] in H;
      [|discriminate].
    inversion H; subst t1 lx1.
    destruct (read_number_token _ _ _ Hread) as [f ->].
    repeat split; discriminate. }
  destruct (islower ch) eqn:Hlow.
  { destruct (read_name _) as [[t1 lx1]|e] eqn:Hread; cbn [rbind] in H;
      [|discriminate].
    inversion H; subst t1 lx1; clear H.
    unfold read_name, advance in Hread; cbn [rest cur_line cur_column] in Hread.
    destruct (ascii_eqb ch newline); cbn [rest cur_line cur_column] in Hread;
      (destruct (read_name_loop s0 _ _) as [[cs lx2]|e] eqn:Hloop;
       cbn [rbind] in Hread; [|discriminate]);
      destruct (read_name_loop_inv _ _ _ _ _ Hloop) as (_ & Hcs & _);
      pose proof (is_identifier_chars ch cs Hlow Hcs) as Hid;
      (destruct (String.eqb (string_of_list_ascii (ch :: cs)) "sort") eqn:Hs;
       inversion Hread; subst t;
       (repeat split; try discriminate);
       unfold token_ok; cbn [type value symbol];
       cbn [string_of_list_ascii] in Hid, Hs;
       [exact Hs | rewrite Hid, Hs; reflexivity]). }
  cbn zeta in H.
  destruct (ascii_eqb ch "<" && peek_is _ 1 "-").
  { inversion H; subst t; repeat split; discriminate. }
  destruct (punctuation ch) as [[ty v]|] eqn:Hp; [|discriminate].
  inversion H; subst t.
  destruct (punctuation_token ch ty v ln col Hp) as (Hok & Hne1 & Hne2).
  repeat split; assumption.
Qed.

Lemma scan_item_token_lx (lx lx' : Lexer) (c : ascii) (s : list ascii)
    (t : Token) :
  rest lx = c :: s -> scan_item lx c = Ok (Some t, lx') ->
  token_ok t = true /\ type t <> EOF /\ type t <> NEWLINE
  /\ token_position t = position lx.
Proof.
  destruct lx as [r ln col]; cbn [rest]; intros Hr H.
  exact (scan_item_token r ln col c s t lx' Hr H).
Qed.

Lemma scan_item_reaches_lx (lx lx' : Lexer) (c : ascii) (s : list ascii)
    (tok : option Token) :
  rest lx = c :: s -> scan_item lx c = Ok (tok, lx') ->
  exists u, u <> [] /\ reaches u lx lx'.
Proof.
  destruct lx as [r ln col]; cbn [rest]; intros Hr H.
  destruct (scan_item_reaches r ln col c s tok lx' Hr H) as [u Hu].
  exists u; split; [|exact Hu].
  intros ->; destruct Hu as [Hrest _]; cbn [rest app] in Hrest.
  pose proof (scan_item_shrinks (mkLexer r ln col) lx' c s tok Hr H) as Hsh.
  rewrite <- Hrest, Hr in Hsh; simpl in Hsh; lia.
Qed.

Lemma reaches_end (text u : list ascii) (lx : Lexer) :
  reaches u (mkLexer text 1 1) lx -> rest lx = [] ->
  position lx = position_after text.
Proof.
  intros [Hr Hp] Hend; cbn [rest] in Hr.
  rewrite Hend, app_nil_r in Hr; subst u; exact Hp.
Qed.

Lemma advance_reaches (lx : Lexer) (c : ascii) (s : list ascii) (u : list ascii)
    (lx0 : Lexer) :
  rest lx = c :: s -> reaches u lx0 lx -> reaches (u ++ [c]) lx0 (advance_ lx).
Proof.
  intros Hr Hu; apply (reaches_trans u [c] lx0 lx _ Hu).
  exact (reaches_step lx c s Hr).
Qed.

(** X1: the tokens of a text end with the EOF token, which holds no value
    and stands at the line and column behind the last character of the text;
    no token before it is an EOF, and no token is a NEWLINE. *)
Theorem tokens_end_with_eof (text : string) (ts : list Token) :
  tokenize text = Ok ts ->
  exists pre,
    ts = pre ++ [mkToken EOF TNone
                   (fst (position_after (list_ascii_of_string text)))
                   (snd (position_after (list_ascii_of_string text)))]
    /\ Forall (fun t => type t <> EOF /\ type t <> NEWLINE) pre.
Proof.
  intros H; unfold tokenize in H.
  pose proof (tokenize_from_run
                (fun lx acc =>
                   (exists u, reaches u (Lexer_init text) lx)
                   /\ Forall (fun t => type t <> EOF /\ type t <> NEWLINE) acc))
    as Hrun.
  specialize (Hrun
    ltac:(intros lx acc c s Hr Hc [[u Hu] Hacc]; split; [|exact Hacc];
          exists (u ++ [c]); exact (advance_reaches lx c s u _ Hr Hu))).
  specialize (Hrun
    ltac:(intros lx acc c s tok lx' Hr Hc Hscan [[u Hu] Hacc]; split;
          [ destruct (scan_item_reaches_lx lx lx' c s tok Hr Hscan)
              as (v & _ & Hv);
            exists (u ++ v); exact (reaches_trans u v _ lx lx' Hu Hv)
          | destruct tok as [t|]; cbn [push_token]; [|exact Hacc];
            apply Forall_app; split; [exact Hacc|];
            destruct (scan_item_token_lx lx lx' c s t Hr Hscan)
              as (_ & H1 & H2 & _);
            apply List.Forall_cons; [split; assumption | apply List.Forall_nil] ])).
  specialize (Hrun (Lexer_init text) []
                (conj (ex_intro _ [] (reaches_refl _)) (List.Forall_nil _))).
  rewrite H in Hrun.
  destruct Hrun as (lx1 & acc1 & Hend & [[u Hu] Hacc] & ->).
  exists acc1; split; [|exact Hacc].
  pose proof (reaches_end _ u lx1 Hu Hend) as Hp.
  unfold eof_token; rewrite <- Hp; reflexivity.
Qed.

Lemma tokens_end_with_eof_witness :
  exists pre,
    [mkToken NAME (TStr "x") 1 1; mkToken SEMICOLON (TStr ";") 1 2;
     mkToken EOF TNone 2 1]
    = pre ++ [mkToken EOF TNone
                (fst (position_after (list_ascii_of_string "x;
")))
                (snd (position_after (list_ascii_of_string "x;
")))]
    /\ Forall (fun t => type t <> EOF /\ type t <> NEWLINE) pre.
Proof.
  apply (tokens_end_with_eof "x;
"); vm_compute; reflexivity.
Defined.

Lemma tokenize_lexed (text : string) (ts : list Token) :
  tokenize text = Ok ts -> lexed ts.
Proof.
  intros H; unfold tokenize in H.
  pose proof (tokenize_from_run (fun _ acc => forallb token_ok acc = true))
    as Hrun.
  specialize (Hrun ltac:(intros lx acc c s _ _ Hacc; exact Hacc)).
  specialize (Hrun
    ltac:(intros lx acc c s tok lx' Hr Hc Hscan Hacc;
          destruct tok as [t|]; cbn [push_token]; [|exact Hacc];
          rewrite forallb_app, Hacc; cbn [forallb andb];
          destruct (scan_item_token_lx lx lx' c s t Hr Hscan) as (-> & _);
          reflexivity)).
  specialize (Hrun (Lexer_init text) [] eq_refl).
  rewrite H in Hrun.
  destruct Hrun as (lx1 & acc1 & _ & Hacc & ->).
  split; [|rewrite forallb_app, Hacc; reflexivity].
  clear; induction acc1 as [|a acc1 IH]; [reflexivity|].
  cbn [app ends_with_eof].
  destruct (acc1 ++ [eof_token lx1]) eqn:E; [|exact IH].
  destruct acc1; discriminate.
Qed.

(** X2: in every token of a text the value goes with the type: a NUMBER
    holds a float, a NAME an identifier other than [sort] (a lowercase
    letter of [str.islower], then characters of [str.isalnum] or
    underscores, none of them of [str.isupper]; the letters of Latin-1
    count), a SORT the word [sort], a symbol its own text and the EOF
    nothing. *)
Theorem tokens_are_well_formed (text : string) (ts : list Token) :
  tokenize text = Ok ts -> forallb token_ok ts = true.
Proof.
  intros H; destruct (tokenize_lexed text ts H) as [_ Hok]; exact Hok.
Qed.

Lemma tokens_are_well_formed_witness :
  forallb token_ok
    [mkToken NAME (TStr "x") 1 1; mkToken ASSIGN (TStr "<-") 1 3;
     mkToken DOT (TStr ".") 1 6; mkToken LPAREN (TStr "(") 1 7;
     mkToken NUMBER (TNum 1) 1 8; mkToken SORT (TStr "sort") 1 10;
     mkToken RPAREN (TStr ")") 1 14; mkToken DOT (TStr ".") 1 15;
     mkToken EOF TNone 1 16]
  = true
  /\ forallb token_ok
       [mkToken NAME (TStr (String "233" (String "188" "_1"))) 1 1;
        mkToken EOF TNone 1 5]
     = true.
Proof.
  split.
  - apply (tokens_are_well_formed "x <- .(1 sort)."); vm_compute; reflexivity.
  - apply (tokens_are_well_formed (String "233" (String "188" "_1")));
      vm_compute; reflexivity.
Defined.

(** ** The order of the tokens *)

Lemma step_position_lt (p : nat * nat) (c : ascii) :
  position_lt p (step_position p c).
Proof.
  unfold step_position, position_lt; destruct (ascii_eqb c newline);
    cbn [fst snd]; lia.
Qed.

Lemma position_lt_trans (p q r : nat * nat) :
  position_lt p q -> position_lt q r -> position_lt p r.
Proof. unfold position_lt; lia. Qed.

Lemma move_le (u : list ascii) (p : nat * nat) :
  p = move u p \/ position_lt p (move u p).
Proof.
  revert p; induction u as [|c u IH]; intros p; [left; reflexivity|].
  right; change (move (c :: u) p) with (move u (step_position p c)).
  destruct (IH (step_position p c)) as [<-|Hlt].
  - apply step_position_lt.
  - exact (position_lt_trans _ _ _ (step_position_lt p c) Hlt).
Qed.

Lemma move_lt (u : list ascii) (p : nat * nat) :
  u <> [] -> position_lt p (move u p).
Proof.
  destruct u as [|c u]; [contradiction|]; intros _.
  change (move (c :: u) p) with (move u (step_position p c)).
  destruct (move_le u (step_position p c)) as [<-|Hlt].
  - apply step_position_lt.
  - exact (position_lt_trans _ _ _ (step_position_lt p c) Hlt).
Qed.

Lemma move_one_based (u : list ascii) (p : nat * nat) :
  1 <= fst p -> 1 <= snd p ->
  1 <= fst (move u p) /\ 1 <= snd (move u p).
Proof.
  revert p; induction u as [|c u IH]; intros p H1 H2; [split; assumption|].
  change (move (c :: u) p) with (move u (step_position p c)).
  apply IH; unfold step_position; destruct (ascii_eqb c newline);
    cbn [fst snd]; lia.
Qed.

Lemma increasing_snoc (acc : list Token) (t : Token) :
  increasing acc ->
  Forall (fun t0 => position_lt (token_position t0) (token_position t)) acc ->
  increasing (acc ++ [t]).
Proof.
  induction acc as [|a acc IH]; intros Hinc Hall; [split; exact I|].
  destruct Hinc as [Hhd Htl]; inversion Hall as [|? ? Ha Hacc]; subst.
  cbn [app increasing]; split; [|exact (IH Htl Hacc)].
  destruct acc as [|b acc]; [exact Ha | exact Hhd].
Qed.

(** X3: the tokens of a text come in reading order, each at a line and
    column strictly behind those of the token before it, and every line and
    column is at least 1. *)
Theorem tokens_in_reading_order (text : string) (ts : list Token) :
  tokenize text = Ok ts ->
  increasing ts /\ Forall (fun t => 1 <= line t /\ 1 <= column t) ts.
Proof.
  intros H; unfold tokenize in H.
  set (Inv := fun (lx : Lexer) (acc : list Token) =>
                increasing acc
                /\ Forall (fun t => position_lt (token_position t)
                                      (position lx)) acc
                /\ Forall (fun t => 1 <= line t /\ 1 <= column t) acc
                /\ 1 <= cur_line lx /\ 1 <= cur_column lx).
  assert (Hkeep : forall lx lx' u acc,
             u <> [] -> reaches u lx lx' -> Inv lx acc -> Inv lx' acc).
  { intros lx lx' u acc Hne [_ Hp] (Hinc & Hlt & Hone & Hl & Hc).
    pose proof (move_lt u (position lx) Hne) as Hmove.
    pose proof (move_one_based u (position lx) Hl Hc) as [Hl' Hc'].
    rewrite <- Hp in Hmove, Hl', Hc'.
    repeat split; try assumption.
    apply (List.Forall_impl _ (P := fun t => position_lt (token_position t)
                                            (position lx))); [|exact Hlt].
    intros t Ht; exact (position_lt_trans _ _ _ Ht Hmove). }
  assert (Hpush : forall lx acc t,
             token_position t = position lx -> Inv lx acc ->
             increasing (acc ++ [t])
             /\ Forall (fun t => 1 <= line t /\ 1 <= column t) (acc ++ [t])).
  { intros lx acc t Hpos (Hinc & Hlt & Hone & Hl & Hc); split.
    - apply increasing_snoc; [exact Hinc | rewrite Hpos; exact Hlt].
    - apply Forall_app; split; [exact Hone|].
      apply List.Forall_cons; [|apply List.Forall_nil].
      unfold token_position, position in Hpos; inversion Hpos.
      split; lia. }
  pose proof (tokenize_from_run Inv) as Hrun.
  assert (Hspace : forall lx acc c s,
             rest lx = c :: s -> is_space c = true ->
             Inv lx acc -> Inv (advance_ lx) acc).
  { intros lx acc c s Hr Hc Hinv.
    apply (Hkeep lx _ [c] acc); [discriminate | | exact Hinv].
    exact (reaches_step lx c s Hr). }
  assert (Hitem : forall lx acc c s tok lx',
             rest lx = c :: s -> is_space c = false ->
             scan_item lx c = Ok (tok, lx') ->
             Inv lx acc -> Inv lx' (push_token acc tok)).
  { intros lx acc c s tok lx' Hr Hc Hscan Hinv.
    destruct (scan_item_reaches_lx lx lx' c s tok Hr Hscan)
      as (u & Hne & Hu).
    destruct tok as [t|]; cbn [push_token];
      [|exact (Hkeep lx lx' u acc Hne Hu Hinv)].
    destruct (scan_item_token_lx lx lx' c s t Hr Hscan)
      as (_ & _ & _ & Hpos).
    destruct (Hpush lx acc t Hpos Hinv) as [Hinc' Hone'].
    destruct (Hkeep lx lx' u acc Hne Hu Hinv) as (_ & Hlt' & _ & Hl' & Hc').
    split; [exact Hinc' | split; [|split; [exact Hone' | split; assumption]]].
    apply Forall_app; split; [exact Hlt'|].
    apply List.Forall_cons; [|apply List.Forall_nil].
    rewrite Hpos; destruct Hu as [_ ->]; apply move_lt; exact Hne. }
  specialize (Hrun Hspace Hitem (Lexer_init text) []).
  rewrite H in Hrun.
  destruct Hrun as (lx1 & acc1 & _ & Hinv & ->).
  - repeat split; try apply List.Forall_nil; simpl; lia.
  - exact (Hpush lx1 acc1 (eof_token lx1) eq_refl Hinv).
Qed.

Lemma tokens_in_reading_order_witness :
  increasing [mkToken NAME (TStr "x") 1 1; mkToken ASSIGN (TStr "<-") 1 3;
              mkToken NUMBER (TNum 1) 2 2; mkToken SEMICOLON (TStr ";") 2 3;
              mkToken EOF TNone 2 4]
  /\ Forall (fun t => 1 <= line t /\ 1 <= column t)
       [mkToken NAME (TStr "x") 1 1; mkToken ASSIGN (TStr "<-") 1 3;
        mkToken NUMBER (TNum 1) 2 2; mkToken SEMICOLON (TStr ";") 2 3;
        mkToken EOF TNone 2 4].
Proof.
  apply (tokens_in_reading_order "x <-
 1;"); vm_compute; reflexivity.
Defined.

(** ** The errors of the lexer *)

Lemma skip_to_close_failure (s : list ascii) (ln col : nat) (e : Exception) :
  skip_to_close s ln col = Err e ->
  e = LexerError UnterminatedComment (fst (move s (ln, col)))
                 (snd (move s (ln, col))).
Proof.
  revert ln col; induction s as [|c s IH]; intros ln col H.
  - inversion H; reflexivity.
  - cbn [skip_to_close] in H.
    destruct (ascii_eqb c "#" && _); [discriminate|].
    apply IH in H; rewrite H.
    change (move (c :: s) (ln, col)) with (move s (step_position (ln, col) c)).
    unfold advance_, advance, step_position; cbn [rest cur_line cur_column].
    destruct (ascii_eqb c newline); reflexivity.
Qed.

Lemma read_name_loop_failure (s : list ascii) (ln col : nat) (e : Exception) :
  read_name_loop s ln col = Err e ->
  exists p c r,
    s = p ++ c :: r /\ isupper c = true
    /\ e = LexerError (InvalidCharacter c) (fst (move p (ln, col)))
                      (snd (move p (ln, col))).
Proof.
  revert ln col; induction s as [|a s IH]; intros ln col H;
    cbn [read_name_loop] in H; [discriminate|].
  destruct (isalnum a || ascii_eqb a "_"); [|discriminate].
  destruct (isupper a) eqn:Hup.
  - inversion H; exists [], a, s; repeat split; assumption.
  - destruct (read_name_loop s _ _) as [[cs lx]|e'] eqn:Hloop;
      cbn [rbind] in H; [discriminate|].
    inversion H; subst e'.
    destruct (IH _ _ Hloop) as (p & c & r & -> & Hc & ->).
    exists (a :: p), c, r; repeat split; [exact Hc|].
    change (move (a :: p) (ln, col)) with (move p (step_position (ln, col) a)).
    unfold advance_, advance, step_position; cbn [rest cur_line cur_column].
    destruct (ascii_eqb a newline); reflexivity.
Qed.

(** Digits are decimal digits up to the first superscript among them. *)
Lemma digits_superscript (ds : list ascii) :
  forallb isdigit ds = true ->
  forallb isdecimal ds = true
  \/ exists p c r, ds = p ++ c :: r /\ superscript c = true.
Proof.
  induction ds as [|d ds IH]; [left; reflexivity|].
  cbn [forallb]; intros H; apply andb_prop in H as [Hd Hds].
  destruct (isdecimal d) eqn:Hdec.
  - destruct (IH Hds) as [Hall|(p & c & r & -> & Hc)].
    + left; rewrite Hall; reflexivity.
    + right; exists (d :: p), c, r; split; [reflexivity | exact Hc].
  - right; exists [], d, ds; split; [reflexivity|].
    unfold superscript; rewrite Hd, Hdec; reflexivity.
Qed.

(** [float] takes what [read_number] reads unless a superscript digit is in
    it: at a digit, a number is read or [ValueError] is raised. *)
Lemma read_number_outcome (d : ascii) (s0 : list ascii) (ln col : nat) :
  isdigit d = true ->
  (exists tok lx', read_number (mkLexer (d :: s0) ln col) = Ok (tok, lx'))
  \/ (read_number (mkLexer (d :: s0) ln col) = Err ValueError
      /\ exists p c r, d :: s0 = p ++ c :: r /\ superscript c = true).
Proof.
  intros Hd.
  destruct (read_digits_inv (d :: s0) ln col)
    as (ip & r1 & Hsplit & Hip & Hst & Hrd).
  assert (Hne : ip <> []).
  { intros ->; simpl in Hsplit; subst r1; simpl in Hst; congruence. }
  unfold read_number; cbn [rest cur_line cur_column].
  rewrite Hrd; unfold peek; cbn [rest].
  assert (Hraise : forall num_str : list ascii,
             (exists p c r, num_str = p ++ c :: r /\ superscript c = true
                            /\ exists t, d :: s0 = num_str ++ t) ->
             exists p c r, d :: s0 = p ++ c :: r /\ superscript c = true).
  { intros num_str (p & c & r & -> & Hc & t & Ht).
    exists p, c, (r ++ t); split; [|exact Hc].
    rewrite Ht, <- app_assoc; reflexivity. }
  assert (Hfloat : forall num_str : list ascii,
             py_float (string_of_list_ascii num_str) = None
             \/ exists f, py_float (string_of_list_ascii num_str) = Some f).
  { intros num_str; destruct (py_float _) as [f|];
      [right; exists f; reflexivity | left; reflexivity]. }
  assert (Hint : py_float (string_of_list_ascii ip) = None ->
                 exists p c r, ip = p ++ c :: r /\ superscript c = true).
  { intros Hnone.
    destruct (digits_superscript ip Hip) as [Hdec|Hsup]; [|exact Hsup].
    rewrite (py_float_integer ip Hne Hdec) in Hnone; discriminate. }
  destruct r1 as [|c1 r1]; cbn [nth_error].
  - destruct (Hfloat ip) as [Hnone|[f Hf]].
    + right; rewrite Hnone; split; [reflexivity|]; apply (Hraise ip).
      destruct (Hint Hnone) as (p & c & r & -> & Hc).
      exists p, c, r; split; [reflexivity | split; [exact Hc|]].
      exists []; exact Hsplit.
    + left; rewrite Hf; eexists _, _; reflexivity.
  - destruct (ascii_eqb c1 ".") eqn:Hdot.
    + apply Ascii.eqb_eq in Hdot as ->.
      rewrite (advance_not_newline "." _ ln _ eq_refl).
      cbn [rest cur_line cur_column].
      destruct (read_digits_inv r1 ln (S (col + length ip)))
        as (fp & r3 & Hr1 & Hfp & Hst3 & Hrd3).
      rewrite Hrd3.
      destruct (Hfloat (ip ++ "."%char :: fp)) as [Hnone|[f Hf]].
      * right; rewrite Hnone; split; [reflexivity|]; apply (Hraise (ip ++ "."%char :: fp)).
        assert (Htext : exists t, d :: s0 = (ip ++ "."%char :: fp) ++ t).
        { exists r3; rewrite Hsplit, Hr1, <- app_assoc; reflexivity. }
        destruct (digits_superscript ip Hip) as [Hdec|(p & c & r & -> & Hc)].
        -- destruct (digits_superscript fp Hfp)
             as [Hdec'|(p & c & r & -> & Hc)].
           ++ rewrite (py_float_fraction ip fp Hne Hdec Hdec') in Hnone.
              discriminate.
           ++ exists (ip ++ "."%char :: p), c, r.
              split; [rewrite <- app_assoc; reflexivity|].
              split; [exact Hc | exact Htext].
        -- exists p, c, (r ++ "."%char :: fp).
           split; [rewrite <- app_assoc; reflexivity|].
           split; [exact Hc | exact Htext].
      * left; rewrite Hf; eexists _, _; reflexivity.
    + destruct (Hfloat ip) as [Hnone|[f Hf]].
      * right; rewrite Hnone; split; [reflexivity|]; apply (Hraise ip).
        destruct (Hint Hnone) as (p & c & r & -> & Hc).
        exists p, c, r; split; [reflexivity | split; [exact Hc|]].
        exists (c1 :: r1); exact Hsplit.
      * left; rewrite Hf; eexists _, _; reflexivity.
Qed.

(** Where one pass of the main loop fails: in a number with a superscript
    digit in it, at the end of the text in a block comment that is not
    closed, at an uppercase letter in a name, or right where it stands, at a
    character that starts no item. *)
Lemma scan_item_failure (s : list ascii) (ln col : nat) (ch : ascii)
    (s0 : list ascii) (e : Exception) :
  s = ch :: s0 -> is_space ch = false ->
  scan_item (mkLexer s ln col) ch = Err e ->
  (e = ValueError
   /\ exists p c r, s = p ++ c :: r /\ superscript c = true)
  \/ exists p r m,
       s = p ++ r
       /\ e = LexerError m (fst (move p (ln, col))) (snd (move p (ln, col)))
       /\ ((m = UnterminatedComment /\ r = [])
           \/ (exists c r', m = InvalidCharacter c /\ r = c :: r'
                            /\ isupper c = true)
           \/ (exists r', m = UnexpectedCharacter ch /\ p = [] /\ r = ch :: r'
                          /\ starts_item ch r' = false)).
Proof.
  intros -> Hsp H; unfold scan_item in H.
  unfold starts_item.
  destruct (ascii_eqb ch ":" && peek_is _ 1 ":") eqn:HA; [discriminate|].
  destruct (ascii_eqb ch "<" && peek_is _ 1 "#") eqn:HB.
  { right.
    apply andb_prop in HB as [H1 H2].
    destruct s0 as [|c2 s0]; [discriminate|].
    unfold skip_multi_line_comment in H.
    destruct (skip_to_close _ _ _) as [lx1|e1] eqn:Hclose; cbn [rbind] in H;
      [discriminate|].
    inversion H; subst e1.
    apply skip_to_close_failure in Hclose.
    exists (ch :: c2 :: s0), [], UnterminatedComment.
    split; [rewrite app_nil_r; reflexivity|].
    split; [|left; split; reflexivity].
    rewrite Hclose.
    change (move (ch :: c2 :: s0) (ln, col))
      with (move s0 (step_position (step_position (ln, col) ch) c2)).
    unfold advance_, advance, step_position; cbn [rest cur_line cur_column].
    destruct (ascii_eqb ch newline); cbn [rest cur_line cur_column snd fst];
      destruct (ascii_eqb c2 newline); reflexivity. }
  destruct (isdigit ch) eqn:HC.
  { destruct (read_number_outcome ch s0 ln col HC)
      as [(tok & lx' & Hok)|[Hraise Hsup]].
    - rewrite Hok in H; discriminate.
    - rewrite Hraise in H; cbn [rbind] in H; inversion H.
      left; split; [reflexivity | exact Hsup]. }
  right.
  destruct (islower ch) eqn:HD.
  { unfold read_name, advance in H; cbn [rest cur_line cur_column] in H.
    destruct (islower_class ch HD) as (_ & _ & _ & Hnl & _).
    rewrite Hnl in H; cbn [rest cur_line cur_column] in H.
    destruct (read_name_loop s0 ln (S col)) as [[cs lx2]|e1] eqn:Hloop;
      cbn [rbind] in H.
    - destruct (String.eqb _ "sort"); discriminate.
    - inversion H; subst e1.
      destruct (read_name_loop_failure _ _ _ _ Hloop)
        as (p & c & r & -> & Hc & ->).
      exists (ch :: p), (c :: r), (InvalidCharacter c).
      split; [reflexivity|].
      split; [|right; left; exists c, r; repeat split; exact Hc].
      change (move (ch :: p) (ln, col))
        with (move p (step_position (ln, col) ch)).
      unfold step_position; rewrite Hnl; reflexivity. }
  cbn zeta in H.
  destruct (ascii_eqb ch "<" && peek_is _ 1 "-") eqn:HE; [discriminate|].
  destruct (punctuation ch) as [[ty v]|] eqn:HF; [discriminate|].
  inversion H.
  exists [], (ch :: s0), (UnexpectedCharacter ch).
  split; [reflexivity | split; [reflexivity|]].
  right; right; exists s0; repeat split.
  unfold peek_is, peek in HA, HB, HE; cbn [rest nth_error] in HA, HB, HE.
  cbn [orb].
  destruct s0 as [|c1 s0]; cbn [nth_error] in HA, HB, HE.
  - rewrite !andb_false_r; reflexivity.
  - rewrite HA; cbn [orb].
    destruct (ascii_eqb ch "<"); [|reflexivity].
    cbn [andb] in *; rewrite HB, HE; reflexivity.
Qed.

(** Where the lexer fails. *)
Lemma tokenize_failure (text : string) (e : Exception) :
  tokenize text = Err e ->
  (e = ValueError
   /\ exists u c r,
        list_ascii_of_string text = u ++ c :: r /\ superscript c = true)
  \/ exists u r m,
       list_ascii_of_string text = u ++ r
       /\ e = LexerError m (fst (position_after u)) (snd (position_after u))
       /\ ((m = UnterminatedComment /\ r = [])
           \/ (exists c r', m = InvalidCharacter c /\ r = c :: r'
                            /\ isupper c = true)
           \/ (exists c r', m = UnexpectedCharacter c /\ r = c :: r'
                            /\ is_space c = false
                            /\ starts_item c r' = false)).
Proof.
  intros H; unfold tokenize in H.
  pose proof (tokenize_from_run
                (fun lx _ => exists u, reaches u (Lexer_init text) lx))
    as Hrun.
  specialize (Hrun
    ltac:(intros lx acc c s Hr Hc [u Hu];
          exists (u ++ [c]); exact (advance_reaches lx c s u _ Hr Hu))).
  specialize (Hrun
    ltac:(intros lx acc c s tok lx' Hr Hc Hscan [u Hu];
          destruct (scan_item_reaches_lx lx lx' c s tok Hr Hscan)
            as (v & _ & Hv);
          exists (u ++ v); exact (reaches_trans u v _ lx lx' Hu Hv))).
  specialize (Hrun (Lexer_init text) [] (ex_intro _ [] (reaches_refl _))).
  rewrite H in Hrun.
  destruct Hrun as (lx1 & acc1 & c & s & Hr & Hc & [u [Hu Hp]] & Hscan).
  destruct lx1 as [r1 ln col]; cbn [rest] in Hr, Hu.
  unfold Lexer_init in Hu; cbn [rest] in Hu.
  destruct (scan_item_failure r1 ln col c s e Hr Hc Hscan)
    as [(-> & p & c' & r & Hsplit & Hsup)|(p & r & m & Hsplit & He & Hkind)].
  { left; split; [reflexivity|].
    exists (u ++ p), c', r; split; [|exact Hsup].
    rewrite Hu, Hsplit, app_assoc; reflexivity. }
  right; exists (u ++ p), r, m.
  split; [rewrite Hu, Hsplit, app_assoc; reflexivity|].
  split.
  - unfold position_after; rewrite move_app.
    unfold position, Lexer_init in Hp; cbn [cur_line cur_column] in Hp.
    rewrite <- Hp; exact He.
  - destruct Hkind as [Hk|[Hk|(r' & Hm & Hnil & Hrr & Hst)]];
      [left; exact Hk | right; left; exact Hk|].
    right; right; exists c, r'; repeat split; assumption.
Qed.

(** X4: when the lexer fails, it fails in one of two ways.  A number with a
    superscript digit in it, which [isdigit] takes for a digit and [float]
    does not, ends the lexer with the [ValueError] of [float].  Otherwise it
    fails with a LexerError whose line and column are those of a place in
    the text: the end of the text, for a block comment that is not closed;
    an uppercase letter, for an invalid character of a name; or a character
    that is neither white space nor the start of a number, a name, a symbol
    or a comment, for an unexpected character, which is the character the
    error names. *)
Theorem lexer_errors (text : string) (e : Exception) :
  tokenize text = Err e ->
  (e = ValueError
   /\ exists u c r,
        list_ascii_of_string text = u ++ c :: r /\ superscript c = true)
  \/ exists u r m,
       list_ascii_of_string text = u ++ r
       /\ e = LexerError m (fst (position_after u)) (snd (position_after u))
       /\ ((m = UnterminatedComment /\ r = [])
           \/ (exists c r', m = InvalidCharacter c /\ r = c :: r'
                            /\ isupper c = true)
           \/ (exists c r', m = UnexpectedCharacter c /\ r = c :: r'
                            /\ is_space c = false
                            /\ starts_item c r' = false)).
Proof. exact (tokenize_failure text e). Qed.

Lemma lexer_errors_witness :
  tokenize "a <- 1 ? 2" = Err (LexerError (UnexpectedCharacter "?") 1 8)
  /\ tokenize (String "1" (String "178" "")) = Err ValueError
  /\ ((ValueError = ValueError
       /\ exists u c r,
            list_ascii_of_string (String "1" (String "178" "")) = u ++ c :: r
            /\ superscript c = true)
      \/ exists u r m,
           list_ascii_of_string (String "1" (String "178" "")) = u ++ r
           /\ ValueError
              = LexerError m (fst (position_after u)) (snd (position_after u))
           /\ ((m = UnterminatedComment /\ r = [])
               \/ (exists c r', m = InvalidCharacter c /\ r = c :: r'
                                /\ isupper c = true)
               \/ (exists c r', m = UnexpectedCharacter c /\ r = c :: r'
                                /\ is_space c = false
                                /\ starts_item c r' = false))).
Proof.
  split; [vm_compute; reflexivity | split; [vm_compute; reflexivity|]].
  apply (lexer_errors (String "1" (String "178" ""))); vm_compute; reflexivity.
Defined.

(** [float] on digits with a superscript among them. *)
Lemma superscript_split (ds : list ascii) :
  forallb isdigit ds = true -> existsb superscript ds = true ->
  exists p c q,
    ds = p ++ c :: q /\ forallb isdecimal p = true /\ superscript c = true.
Proof.
  induction ds as [|d ds IH]; [discriminate|].
  cbn [forallb existsb]; intros H Hs; apply andb_prop in H as [Hd Hds].
  destruct (isdecimal d) eqn:Hdec.
  - unfold superscript at 1 in Hs; rewrite Hdec, andb_false_r in Hs.
    destruct (IH Hds Hs) as (p & c & q & -> & Hp & Hc).
    exists (d :: p), c, q; cbn [forallb]; rewrite Hdec, Hp.
    repeat split; exact Hc.
  - exists [], d, ds; repeat split.
    unfold superscript; rewrite Hd, Hdec; reflexivity.
Qed.

Lemma py_float_superscript (p : list ascii) (c : ascii) (r : list ascii) :
  forallb isdecimal p = true -> superscript c = true ->
  py_float (string_of_list_ascii (p ++ c :: r)) = None.
Proof.
  intros Hp Hc; unfold superscript in Hc; apply andb_prop in Hc as [Hd Hn].
  apply negb_true_iff in Hn.
  destruct (isdigit_class c Hd) as (_ & _ & _ & _ & Hdot).
  unfold py_float; rewrite list_ascii_of_string_of_list_ascii.
  rewrite (span_digits_app p (c :: r) Hp Hn).
  destruct p; [reflexivity|]; rewrite Hdot; reflexivity.
Qed.

Lemma read_number_superscript (ip r : list ascii) (ln col : nat) :
  forallb isdigit ip = true -> existsb superscript ip = true ->
  stops isdigit r ->
  read_number (mkLexer (ip ++ r) ln col) = Err ValueError.
Proof.
  intros Hip Hs Hr.
  destruct (superscript_split ip Hip Hs) as (p & c & q & Hsplit & Hp & Hc).
  unfold read_number; cbn [rest cur_line cur_column].
  rewrite (read_digits_app ip r ln col Hip Hr).
  unfold peek; cbn [rest].
  assert (Hnone : forall t,
             py_float (string_of_list_ascii (ip ++ t)) = None).
  { intros t; rewrite Hsplit, <- app_assoc.
    exact (py_float_superscript p c (q ++ t) Hp Hc). }
  destruct r as [|c1 r1]; cbn [nth_error].
  - rewrite <- (app_nil_r ip), Hnone; reflexivity.
  - destruct (ascii_eqb c1 ".").
    + destruct (read_digits _ _ _) as [fp lx'']; rewrite Hnone; reflexivity.
    + rewrite <- (app_nil_r ip), Hnone; reflexivity.
Qed.

(** X14: in a text, at a place the main loop gets to, a run of digits of
    [str.isdigit] with a superscript digit among them is taken for a
    number, and the lexer ends with the ValueError that [float] raises on
    it, whatever follows the digits: no LexerError is raised and no
    position is reported. *)
Theorem superscript_digit (s1 ip r : list ascii) :
  ws_legal s1 (ip ++ r) ->
  forallb isdigit ip = true -> existsb superscript ip = true ->
  stops isdigit r ->
  tokenize (string_of_list_ascii (s1 ++ ip ++ r)) = Err ValueError.
Proof.
  intros Hlegal Hip Hs Hr.
  rewrite tokenize_list, list_ascii_of_string_of_list_ascii.
  destruct (tokenize_from_legal _ _ Hlegal 1 1 []) as [acc' ->].
  destruct ip as [|d ip]; [discriminate|].
  pose proof Hip as Hd; cbn [forallb] in Hd; apply andb_prop in Hd as [Hd _].
  destruct (isdigit_class d Hd) as (Hsp & _).
  cbn [app].
  rewrite (tokenize_from_scan (mkLexer (d :: ip ++ r) _ _) acc' d (ip ++ r)
             eq_refl Hsp).
  rewrite (scan_item_digit _ d Hd).
  change (d :: ip ++ r) with ((d :: ip) ++ r).
  rewrite (read_number_superscript (d :: ip) r _ _ Hip Hs Hr); reflexivity.
Qed.

Lemma superscript_digit_witness :
  tokenize ("x <- " +:+ String "1" (String "178" ".5;")) = Err ValueError.
Proof.
  apply (superscript_digit (list_ascii_of_string "x <- ")
           ["1"; "178"]%char (list_ascii_of_string ".5;"));
    try reflexivity.
  cbv [list_ascii_of_string].
  legal_item_step ["x"%char] [" "; "<"; "-"; " "]%char.
  apply legal_space; [reflexivity|].
  legal_item_step ["<"; "-"]%char [" "%char].
  apply legal_space; [reflexivity|].
  apply legal_here.
Defined.

Lemma scan_item_unexpected (c : ascii) (r : list ascii) (ln col : nat) :
  starts_item c r = false ->
  scan_item (mkLexer (c :: r) ln col) c
  = Err (LexerError (UnexpectedCharacter c) ln col).
Proof.
  unfold starts_item; intros H.
  apply orb_false_elim in H as [H HB].
  apply orb_false_elim in H as [H HA].
  apply orb_false_elim in H as [H HP].
  apply orb_false_elim in H as [HD HL].
  unfold scan_item, peek_is, peek; cbn [rest nth_error].
  rewrite HD, HL.
  destruct (punctuation c); [discriminate|].
  destruct r as [|c1 r]; cbn [nth_error].
  - rewrite !andb_false_r; reflexivity.
  - rewrite HA.
    destruct (ascii_eqb c "<"); cbn [andb] in *; [|reflexivity].
    apply orb_false_elim in HB as [-> ->]; reflexivity.
Qed.

(** X5: in a text, at a place the main loop gets to, a character that is
    neither white space nor the start of a number (a digit of
    [str.isdigit]), a name (a letter of [str.islower]), a symbol or a
    comment is rejected as an unexpected character, with the line and
    column of that character. *)
Theorem unexpected_character (s1 r : list ascii) (c : ascii) :
  ws_legal s1 (c :: r) -> is_space c = false -> starts_item c r = false ->
  tokenize (string_of_list_ascii (s1 ++ c :: r))
  = Err (LexerError (UnexpectedCharacter c)
           (fst (position_after s1)) (snd (position_after s1))).
Proof.
  intros Hlegal Hsp Hst.
  rewrite tokenize_list, list_ascii_of_string_of_list_ascii.
  destruct (tokenize_from_legal _ _ Hlegal 1 1 []) as [acc' ->].
  rewrite (tokenize_from_scan (mkLexer (c :: r) _ _) acc' c r eq_refl Hsp).
  rewrite (scan_item_unexpected c r _ _ Hst); reflexivity.
Qed.

Lemma unexpected_character_witness :
  tokenize "a
 < b" = Err (LexerError (UnexpectedCharacter "<") 2 2)
  /\ tokenize (String "215" "")
     = Err (LexerError (UnexpectedCharacter "215") 1 1).
Proof.
  split.
  - apply (unexpected_character (list_ascii_of_string "a
 ") (list_ascii_of_string " b") "<");
      [|reflexivity|reflexivity].
    cbv [list_ascii_of_string].
    legal_item_step ["a"%char] [newline; " "%char].
    apply legal_space; [reflexivity|].
    apply legal_space; [reflexivity|].
    apply legal_here.
  - apply (unexpected_character [] [] "215");
      [apply legal_here | reflexivity | reflexivity].
Defined.

Lemma skip_to_close_open (body : list ascii) (ln col : nat) :
  no_close body = true ->
  skip_to_close body ln col
  = Err (LexerError UnterminatedComment (fst (move body (ln, col)))
           (snd (move body (ln, col)))).
Proof.
  intros Hb.
  destruct (skip_to_close body ln col) as [lx|e] eqn:H;
    [|rewrite (skip_to_close_failure _ _ _ _ H); reflexivity].
  exfalso; revert ln col H; induction body as [|c body IH]; intros ln col H;
    [discriminate|].
  cbn [no_close] in Hb; apply andb_prop in Hb as [Hc Hb].
  cbn [skip_to_close nth_error] in H.
  destruct body as [|c1 body].
  - cbn [nth_error] in H; rewrite andb_false_r in H.
    exact (IH Hb _ _ H).
  - cbn [nth_error] in H.
    apply negb_true_iff in Hc; rewrite Hc in H.
    exact (IH Hb _ _ H).
Qed.

(** X6: a block comment whose text runs to the end of the input without
    [#>] fails with UnterminatedComment, at the line and column behind the
    last character of the text. *)
Theorem unterminated_comment (s1 body : list ascii) :
  ws_legal s1 ("<" :: "#" :: body)%char -> no_close body = true ->
  tokenize (string_of_list_ascii (s1 ++ "<" :: "#" :: body)%char)
  = Err (LexerError UnterminatedComment
           (fst (position_after (s1 ++ "<" :: "#" :: body)%char))
           (snd (position_after (s1 ++ "<" :: "#" :: body)%char))).
Proof.
  intros Hlegal Hb.
  rewrite tokenize_list, list_ascii_of_string_of_list_ascii.
  destruct (tokenize_from_legal _ _ Hlegal 1 1 []) as [acc' ->].
  rewrite (tokenize_from_scan (mkLexer _ _ _) acc' "<" ("#"%char :: body)
             eq_refl eq_refl).
  unfold scan_item, peek_is, peek; cbn [rest nth_error].
  cbn [ascii_eqb Ascii.eqb Bool.eqb andb].
  unfold skip_multi_line_comment.
  rewrite (advance_not_newline "<" _ _ _ eq_refl),
    (advance_not_newline "#" _ _ _ eq_refl);
    cbn [rest cur_line cur_column].
  rewrite (skip_to_close_open body _ _ Hb); cbn [rbind].
  unfold position_after; rewrite move_app.
  change (move ("<" :: "#" :: body)%char (move s1 (1, 1)))
    with (move body (step_position (step_position (move s1 (1, 1)) "<") "#")).
  reflexivity.
Qed.

Lemma unterminated_comment_witness :
  tokenize "x <- 1; <# no
end #" = Err (LexerError UnterminatedComment 2 6).
Proof.
  apply (unterminated_comment (list_ascii_of_string "x <- 1; ")
           (list_ascii_of_string " no
end #")); [|reflexivity].
  cbv [list_ascii_of_string].
  legal_item_step ["x"%char] [" "; "<"; "-"; " "; "1"; ";"; " "]%char.
  apply legal_space; [reflexivity|].
  legal_item_step ["<"; "-"]%char [" "; "1"; ";"; " "]%char.
  apply legal_space; [reflexivity|].
  legal_item_step ["1"%char] [";"; " "]%char.
  legal_item_step [";"%char] [" "%char].
  apply legal_space; [reflexivity|].
  apply legal_here.
Defined.

(** X7: an identifier on its own is read back whole: the lexer returns one
    token holding the text of the identifier, of type SORT for the word
    [sort] and NAME for any other identifier, at line 1, column 1, and then
    the EOF token in the column behind the identifier. *)
Theorem identifier_token (s : string) :
  is_identifier s = true ->
  tokenize s
  = Ok [mkToken (if String.eqb s "sort" then SORT else NAME) (TStr s) 1 1;
        mkToken EOF TNone 1 (1 + String.length s)].
Proof.
  unfold is_identifier; intros H.
  destruct (list_ascii_of_string s) as [|c0 cs] eqn:Hs; [discriminate|].
  apply andb_prop in H as [H0 Hcs].
  destruct (islower_class c0 H0) as (Hsp & Hd & _ & Hnl & Hc & Hlt).
  assert (Hname : string_of_list_ascii (c0 :: cs) = s)
    by (rewrite <- Hs; apply string_of_list_ascii_of_string).
  assert (Hlen : String.length s = S (length cs)).
  { rewrite <- (length_list_ascii_of_string s), Hs; reflexivity. }
  rewrite tokenize_list, Hs.
  rewrite (tokenize_from_scan (mkLexer (c0 :: cs) 1 1) [] c0 cs eq_refl Hsp).
  unfold scan_item; rewrite Hc, Hlt, Hd, H0; cbn [andb].
  unfold read_name, advance; cbn [rest cur_line cur_column].
  rewrite Hnl; cbn [rest cur_line cur_column].
  rewrite <- (app_nil_r cs) at 1.
  rewrite (read_name_loop_app cs [] 1 2 Hcs I); cbn [rbind].
  rewrite Hname, Hlen.
  destruct (String.eqb s "sort"); cbn [rbind push_token app];
    rewrite tokenize_from_end by reflexivity; reflexivity.
Qed.

Lemma identifier_token_witness :
  tokenize "sorted_2" = Ok [mkToken NAME (TStr "sorted_2") 1 1;
                            mkToken EOF TNone 1 9]
  /\ tokenize "sort" = Ok [mkToken SORT (TStr "sort") 1 1;
                           mkToken EOF TNone 1 5].
Proof.
  split.
  - exact (identifier_token "sorted_2" eq_refl).
  - exact (identifier_token "sort" eq_refl).
Defined.

(** ** What the parser raises *)

Lemma within_bind {A B} (E : Exception -> Prop) (P : A -> Prop)
    (Q : B -> Prop) (r : res A) (k : A -> res B) :
  within E P r -> (forall x, P x -> within E Q (k x)) ->
  within E Q (rbind r k).
Proof. destruct r as [x|e]; simpl; auto. Qed.

Lemma within_impl {A} (E : Exception -> Prop) (P Q : A -> Prop) (r : res A) :
  within E P r -> (forall x, P x -> Q x) -> within E Q r.
Proof. destruct r as [x|e]; simpl; auto. Qed.

Lemma TokenType_eqb_eq (a b : TokenType) :
  TokenType_eqb a b = true <-> a = b.
Proof. destruct a, b; simpl; split; congruence. Qed.

Lemma lexed_tail (t : Token) (ts : list Token) :
  lexed (t :: ts) -> type t <> EOF -> lexed ts.
Proof.
  intros [Heof Hok] Hty; cbn [forallb] in Hok.
  apply andb_prop in Hok as [_ Hok]; split; [|exact Hok].
  destruct ts as [|t' ts]; [|exact Heof].
  simpl in Heof; apply TokenType_eqb_eq in Heof; contradiction.
Qed.

Lemma lexed_head (t : Token) (ts : list Token) :
  lexed (t :: ts) -> token_ok t = true.
Proof. intros [_ Hok]; cbn [forallb] in Hok; apply andb_prop in Hok; tauto. Qed.

Lemma lexed_nonempty (ts : list Token) :
  lexed ts -> exists t ts', ts = t :: ts'.
Proof. intros [H _]; destruct ts as [|t ts']; [discriminate | eauto]. Qed.

Lemma eat_within (ty : TokenType) (ts : list Token) :
  lexed ts -> ty <> EOF ->
  within parser_stop
    (fun r => lexed (snd r) /\ type (fst r) = ty /\ token_ok (fst r) = true)
    (eat ty ts).
Proof.
  intros Hl Hty; destruct (lexed_nonempty ts Hl) as (t & ts' & ->).
  cbn [eat]; destruct (TokenType_eqb (type t) ty) eqn:Heq; simpl.
  - apply TokenType_eqb_eq in Heq.
    split; [apply (lexed_tail t ts' Hl); congruence|].
    split; [exact Heq | exact (lexed_head t ts' Hl)].
  - destruct ty; exact I.
Qed.

Lemma current_type_within (ts : list Token) :
  lexed ts ->
  within parser_stop (fun ty => exists t ts', ts = t :: ts' /\ type t = ty)
    (current_type ts).
Proof.
  intros Hl; destruct (lexed_nonempty ts Hl) as (t & ts' & ->); simpl; eauto.
Qed.

Lemma parse_error_within {A} (P : A -> Prop) (t : Token) (ts : list Token)
    (m : ParseMessage) :
  within parser_stop P (parse_error (t :: ts) m).
Proof. destruct m; exact I. Qed.

Lemma token_ok_number (t : Token) :
  token_ok t = true -> type t = NUMBER -> exists f, value t = TNum f.
Proof.
  unfold token_ok; intros H Hty; rewrite Hty in H.
  destruct (value t) as [f|s|]; try discriminate; eauto.
Qed.

Lemma token_ok_name (t : Token) :
  token_ok t = true -> type t = NAME ->
  exists s, value t = TStr s /\ s <> "sort".
Proof.
  unfold token_ok; intros H Hty; rewrite Hty in H.
  destruct (value t) as [f|s|]; try discriminate.
  apply andb_prop in H as [_ H]; apply negb_true_iff in H.
  exists s; split; [reflexivity|].
  intros ->; discriminate.
Qed.

Lemma collect_expression_within (ts : list Token) (n : nat)
    (acc : list Token) :
  (ts = [] \/ ends_with_eof ts = true) -> forallb token_ok ts = true ->
  forallb token_ok acc = true ->
  within parser_stop
    (fun r => (snd r = [] \/ ends_with_eof (snd r) = true)
              /\ forallb token_ok (snd r) = true
              /\ forallb token_ok (fst r) = true)
    (collect_expression ts n acc).
Proof.
  revert n acc; induction ts as [|t ts IH]; intros n acc Heof Hok Hacc.
  - simpl; repeat split; [left; reflexivity | exact Hacc].
  - cbn [collect_expression].
    cbn [forallb] in Hok; apply andb_prop in Hok as [Ht Hts].
    destruct (Nat.ltb 0 _).
    + apply IH; [| exact Hts |].
      * destruct ts as [|t' ts]; [left; reflexivity | right].
        destruct Heof as [Heof|Heof]; [discriminate | exact Heof].
      * rewrite forallb_app, Hacc; simpl; rewrite Ht; reflexivity.
    + cbn [eat].
      destruct (TokenType_eqb (type t) RPAREN) eqn:Heq; simpl; [|exact I].
      repeat split; try assumption.
      destruct ts as [|t' ts]; [left; reflexivity | right].
      destruct Heof as [Heof|Heof]; [discriminate | exact Heof].
Qed.

Lemma parse_const_expression_within (ts : list Token) :
  lexed ts ->
  within parser_stop
    (fun r => lexed (snd r) /\ node_ok (fst r) = true)
    (parse_const_expression ts).
Proof.
  intros Hl; unfold parse_const_expression.
  eapply within_bind; [apply (eat_within DOT ts Hl); discriminate|].
  intros [t1 ts1] (Hl1 & _ & _); cbn [fst snd] in *.
  eapply within_bind; [apply (eat_within LPAREN ts1 Hl1); discriminate|].
  intros [t2 ts2] (Hl2 & _ & _); cbn [fst snd] in *.
  eapply within_bind.
  { apply (collect_expression_within ts2 1 []);
      [right; apply Hl2 | apply Hl2 | reflexivity]. }
  intros [expr ts3] (Heof & Hok & Hexpr); cbn [fst snd] in *.
  destruct ts3 as [|t3 ts3]; [exact I|].
  assert (Hl3 : lexed (t3 :: ts3)).
  { split; [|exact Hok]. destruct Heof as [Heof|Heof];
      [discriminate | exact Heof]. }
  destruct (TokenType_eqb (type t3) DOT); [|exact I].
  eapply within_bind; [apply (eat_within DOT _ Hl3); discriminate|].
  intros [t4 ts4] (Hl4 & _ & _); cbn [fst snd] in *.
  split; [exact Hl4 | exact Hexpr].
Qed.

Lemma dict_set_ok (pairs : dict ASTNode) (k : string) (v : ASTNode) :
  forallb (fun kv => node_ok (snd kv)) pairs = true -> node_ok v = true ->
  forallb (fun kv => node_ok (snd kv)) (dict_set pairs k v) = true.
Proof.
  intros Hp Hv; induction pairs as [|[k' v'] pairs IH]; simpl.
  - rewrite Hv; reflexivity.
  - simpl in Hp; apply andb_prop in Hp as [H1 H2].
    destruct (String.eqb k' k); simpl.
    + rewrite Hv, H2; reflexivity.
    + rewrite H1, (IH H2); reflexivity.
Qed.

Lemma parse_value_within_all (fuel : nat) :
  (forall ts,
      lexed ts ->
      within parser_stop (fun r => lexed (snd r) /\ node_ok (fst r) = true)
        (parse_value fuel ts))
  /\ (forall ts,
         lexed ts ->
         within parser_stop (fun r => lexed (snd r) /\ node_ok (fst r) = true)
           (parse_array fuel ts))
  /\ (forall ts elements,
         lexed ts -> forallb node_ok elements = true ->
         within parser_stop
           (fun r => lexed (snd r) /\ forallb node_ok (fst r) = true)
           (parse_array_loop fuel ts elements))
  /\ (forall ts,
         lexed ts ->
         within parser_stop (fun r => lexed (snd r) /\ node_ok (fst r) = true)
           (parse_dict fuel ts))
  /\ (forall ts pairs,
         lexed ts -> forallb (fun kv => node_ok (snd kv)) pairs = true ->
         within parser_stop
           (fun r => lexed (snd r)
                     /\ forallb (fun kv => node_ok (snd kv)) (fst r) = true)
           (parse_dict_loop fuel ts pairs)).
Proof.
  induction fuel as [|fuel (IHv & IHa & IHal & IHd & IHdl)];
    [repeat split; intros; exact I|].
  split; [|split; [|split; [|split]]].
  - (* parse_value *)
    intros ts Hl; destruct (lexed_nonempty ts Hl) as (t & ts' & ->).
    cbn [parse_value].
    pose proof (lexed_head t ts' Hl) as Hok.
    destruct (type t) eqn:Hty; try (apply parse_error_within).
    + destruct (token_ok_number t Hok Hty) as [f Hf].
      unfold token_float; rewrite Hf; simpl.
      split; [apply (lexed_tail t ts' Hl); congruence | reflexivity].
    + destruct (token_ok_name t Hok Hty) as (s & Hs & _).
      unfold token_str; rewrite Hs; simpl.
      split; [apply (lexed_tail t ts' Hl); congruence | reflexivity].
    + exact (IHa _ Hl).
    + exact (IHd _ Hl).
    + exact (parse_const_expression_within _ Hl).
  - (* parse_array *)
    intros ts Hl; cbn [parse_array].
    eapply within_bind; [apply (eat_within LBRACKET ts Hl); discriminate|].
    intros [t1 ts1] (Hl1 & _ & _); cbn [fst snd] in *.
    eapply within_bind; [exact (current_type_within ts1 Hl1)|].
    intros ty _.
    destruct (TokenType_eqb ty RBRACKET).
    + eapply within_bind; [apply (eat_within RBRACKET ts1 Hl1); discriminate|].
      intros [t2 ts2] (Hl2 & _ & _); cbn [fst snd] in *.
      split; [exact Hl2 | reflexivity].
    + eapply within_bind; [exact (IHal ts1 [] Hl1 eq_refl)|].
      intros [els ts2] (Hl2 & Hels); cbn [fst snd] in *.
      eapply within_bind; [apply (eat_within RBRACKET ts2 Hl2); discriminate|].
      intros [t3 ts3] (Hl3 & _ & _); cbn [fst snd] in *.
      split; [exact Hl3 | exact Hels].
  - (* parse_array_loop *)
    intros ts elements Hl Hels; cbn [parse_array_loop].
    eapply within_bind; [exact (IHv ts Hl)|].
    intros [v ts1] (Hl1 & Hv); cbn [fst snd] in *.
    assert (Hels' : forallb node_ok (elements ++ [v]) = true)
      by (rewrite forallb_app, Hels; simpl; rewrite Hv; reflexivity).
    eapply within_bind; [exact (current_type_within ts1 Hl1)|].
    intros ty (t & ts' & -> & _).
    destruct (TokenType_eqb ty SEMICOLON).
    + eapply within_bind; [apply (eat_within SEMICOLON _ Hl1); discriminate|].
      intros [t2 ts2] (Hl2 & _ & _); cbn [fst snd] in *.
      eapply within_bind; [exact (current_type_within ts2 Hl2)|].
      intros ty2 _.
      destruct (TokenType_eqb ty2 RBRACKET).
      * split; [exact Hl2 | exact Hels'].
      * exact (IHal ts2 _ Hl2 Hels').
    + destruct (TokenType_eqb ty RBRACKET).
      * split; [exact Hl1 | exact Hels'].
      * apply parse_error_within.
  - (* parse_dict *)
    intros ts Hl; cbn [parse_dict].
    eapply within_bind; [apply (eat_within LBRACE ts Hl); discriminate|].
    intros [t1 ts1] (Hl1 & _ & _); cbn [fst snd] in *.
    eapply within_bind; [exact (current_type_within ts1 Hl1)|].
    intros ty _.
    destruct (TokenType_eqb ty RBRACE).
    + eapply within_bind; [apply (eat_within RBRACE ts1 Hl1); discriminate|].
      intros [t2 ts2] (Hl2 & _ & _); cbn [fst snd] in *.
      split; [exact Hl2 | reflexivity].
    + eapply within_bind; [exact (IHdl ts1 [] Hl1 eq_refl)|].
      intros [pairs ts2] (Hl2 & Hpairs); cbn [fst snd] in *.
      eapply within_bind; [apply (eat_within RBRACE ts2 Hl2); discriminate|].
      intros [t3 ts3] (Hl3 & _ & _); cbn [fst snd] in *.
      split; [exact Hl3 | exact Hpairs].
  - (* parse_dict_loop *)
    intros ts pairs Hl Hpairs; cbn [parse_dict_loop].
    eapply within_bind; [exact (current_type_within ts Hl)|].
    intros ty (t & ts' & -> & _).
    destruct (negb (TokenType_eqb ty NAME)); [apply parse_error_within|].
    eapply within_bind; [apply (eat_within NAME _ Hl); discriminate|].
    intros [key_token ts1] (Hl1 & Hkty & Hkok); cbn [fst snd] in *.
    destruct (token_ok_name key_token Hkok Hkty) as (key_name & Hkey & _).
    unfold token_str at 1; rewrite Hkey; cbn [rbind].
    eapply within_bind; [apply (eat_within EQUALS ts1 Hl1); discriminate|].
    intros [t2 ts2] (Hl2 & _ & _); cbn [fst snd] in *.
    eapply within_bind; [exact (IHv ts2 Hl2)|].
    intros [v ts3] (Hl3 & Hv); cbn [fst snd] in *.
    pose proof (dict_set_ok pairs key_name v Hpairs Hv) as Hpairs'.
    eapply within_bind; [exact (current_type_within ts3 Hl3)|].
    intros ty3 (t3 & ts3' & -> & _).
    destruct (TokenType_eqb ty3 SEMICOLON).
    + eapply within_bind; [apply (eat_within SEMICOLON _ Hl3); discriminate|].
      intros [t4 ts4] (Hl4 & _ & _); cbn [fst snd] in *.
      eapply within_bind; [exact (current_type_within ts4 Hl4)|].
      intros ty4 _.
      destruct (TokenType_eqb ty4 RBRACE).
      * split; [exact Hl4 | exact Hpairs'].
      * exact (IHdl ts4 _ Hl4 Hpairs').
    + destruct (TokenType_eqb ty3 RBRACE).
      * split; [exact Hl3 | exact Hpairs'].
      * apply parse_error_within.
Qed.

Lemma parse_statement_within (fuel : nat) (ts : list Token) :
  lexed ts ->
  within parser_stop (fun r => lexed (snd r) /\ node_ok (fst r) = true)
    (parse_statement fuel ts).
Proof.
  intros Hl; unfold parse_statement.
  destruct (parse_value_within_all fuel) as (Hv & _).
  eapply within_bind; [exact (current_type_within ts Hl)|].
  intros ty _.
  destruct (TokenType_eqb ty NAME); [|exact (Hv ts Hl)].
  eapply within_bind; [apply (eat_within NAME ts Hl); discriminate|].
  intros [name_token ts1] (Hl1 & Hnty & Hnok); cbn [fst snd] in *.
  eapply within_bind; [exact (current_type_within ts1 Hl1)|].
  intros ty1 _.
  destruct (TokenType_eqb ty1 ASSIGN); [|exact (Hv ts Hl)].
  eapply within_bind; [apply (eat_within ASSIGN ts1 Hl1); discriminate|].
  intros [t2 ts2] (Hl2 & _ & _); cbn [fst snd] in *.
  eapply within_bind; [exact (Hv ts2 Hl2)|].
  intros [v ts3] (Hl3 & Hvok); cbn [fst snd] in *.
  destruct (token_ok_name name_token Hnok Hnty) as (name & Hname & _).
  unfold token_str; rewrite Hname; cbn [rbind].
  split; [exact Hl3 | exact Hvok].
Qed.

Lemma parse_loop_within (fuel : nat) (ts : list Token)
    (statements : list ASTNode) :
  lexed ts -> forallb node_ok statements = true ->
  within parser_stop (fun nodes => forallb node_ok nodes = true)
    (parse_loop fuel ts statements).
Proof.
  revert ts statements; induction fuel as [|fuel IH];
    intros ts statements Hl Hst; [exact I|].
  cbn [parse_loop].
  destruct ts as [|t ts']; [exact Hst|].
  destruct (TokenType_eqb (type t) EOF); [exact Hst|].
  eapply within_bind; [exact (parse_statement_within _ _ Hl)|].
  intros [s ts1] (Hl1 & Hs); cbn [fst snd] in *.
  assert (Hst' : forallb node_ok (statements ++ [s]) = true)
    by (rewrite forallb_app, Hst; simpl; rewrite Hs; reflexivity).
  destruct (lexed_nonempty ts1 Hl1) as (t1 & ts1' & ->).
  destruct (TokenType_eqb (type t1) SEMICOLON); [|exact (IH _ _ Hl1 Hst')].
  eapply within_bind; [apply (eat_within SEMICOLON _ Hl1); discriminate|].
  intros [t2 ts2] (Hl2 & _ & _); cbn [fst snd] in *.
  exact (IH _ _ Hl2 Hst').
Qed.

(** What [parse_text] raises. *)
Lemma parse_text_failure (text : string) (e : Exception) :
  parse_text text = Err e ->
  e = ValueError
  \/ (exists m ln col, e = LexerError m ln col)
  \/ (exists m t, e = ParseError m (Some t))
  \/ e = ParseError ExpectedDotAfterExpression None.
Proof.
  unfold parse_text; intros H.
  destruct (tokenize text) as [ts|e1] eqn:Hlex; cbn [rbind] in H.
  - right; right.
    pose proof (parse_loop_within (S (length ts)) ts []
                  (tokenize_lexed text ts Hlex) eq_refl) as Hp.
    fold (parse ts) in Hp; rewrite H in Hp; cbn [within] in Hp.
    pose proof (parse_fuel_enough ts) as Hfuel; rewrite H in Hfuel.
    destruct e as [m0 l0 c0|m t| | | | | | |]; simpl in Hp;
      try contradiction.
    destruct t as [t|]; [left; eauto | right].
    destruct m; try contradiction; reflexivity.
  - inversion H; subst e1.
    destruct (tokenize_failure text e Hlex)
      as [[-> _] | (u & r & m & _ & -> & _)]; [left; reflexivity|].
    right; left; eauto.
Qed.

(** X8: whatever the text, the parser never reads the type of a missing
    token: [parse_text] does not end with an AttributeError.  Where it
    raises a ParseError, the error carries the token the parser stood at,
    except when a constant expression has run to the end of the input: then
    it carries no token and asks for the closing dot. *)
Theorem parse_text_errors (text : string) (e : Exception) :
  parse_text text = Err e ->
  e <> AttributeError
  /\ (forall m, e = ParseError m None -> m = ExpectedDotAfterExpression).
Proof.
  intros H.
  destruct (parse_text_failure text e H)
    as [-> | [(m0 & ln & col & ->) | [(m0 & t & ->) | ->]]];
    (split; [discriminate|]); intros m Hm; try discriminate.
  inversion Hm; reflexivity.
Qed.

Lemma parse_text_errors_witness :
  parse_text ".(1 2 +" = Err (ParseError ExpectedDotAfterExpression None)
  /\ ParseError ExpectedDotAfterExpression None <> AttributeError
  /\ (forall m,
         ParseError ExpectedDotAfterExpression None = ParseError m None ->
         m = ExpectedDotAfterExpression).
Proof.
  split; [vm_compute; reflexivity|].
  apply (parse_text_errors ".(1 2 +"); vm_compute; reflexivity.
Defined.

Lemma parse_text_nodes_ok (text : string) (nodes : list ASTNode) :
  parse_text text = Ok nodes -> forallb node_ok nodes = true.
Proof.
  unfold parse_text; intros H.
  destruct (tokenize text) as [ts|e1] eqn:Hlex; cbn [rbind] in H;
    [|discriminate].
  pose proof (parse_loop_within (S (length ts)) ts []
                (tokenize_lexed text ts Hlex) eq_refl) as Hp.
  fold (parse ts) in Hp; rewrite H in Hp; exact Hp.
Qed.

(** ** What the evaluator raises *)

Lemma eval_token_within (constants : Env) (token : Token)
    (stack : list Value) :
  token_ok token = true ->
  within evaluator_stop (fun _ => True) (eval_token constants token stack).
Proof.
  intros Hok; unfold eval_token.
  destruct (type token) eqn:Hty; try exact I.
  - destruct (token_ok_number token Hok Hty) as [f Hf].
    unfold token_float; rewrite Hf; exact I.
  - destruct (token_ok_name token Hok Hty) as (s & Hs & Hsort).
    unfold token_str; rewrite Hs; cbn [rbind].
    apply String.eqb_neq in Hsort; rewrite Hsort.
    destruct (constants !! s); exact I.
  - destruct stack as [|b [|a stack]]; try exact I.
    destruct a, b; exact I.
  - destruct stack as [|b [|a stack]]; try exact I.
    destruct a, b; exact I.
Qed.

Lemma evaluate_expression_within (constants : Env) (tokens : list Token) :
  forallb token_ok tokens = true ->
  within evaluator_stop (fun _ => True)
    (evaluate_expression constants tokens).
Proof.
  unfold evaluate_expression; generalize (@nil Value) as stack.
  induction tokens as [|t ts IH]; intros stack Hok; cbn [eval_tokens rbind].
  - destruct stack as [|v [|w stack]]; exact I.
  - cbn [forallb] in Hok; apply andb_prop in Hok as [Ht Hts].
    pose proof (eval_token_within constants t stack Ht) as Hstep.
    destruct (eval_token constants t stack) as [stack'|e]; cbn [rbind];
      [exact (IH stack' Hts) | exact Hstep].
Qed.

(** What the evaluation of an expression of lexed tokens raises. *)
Lemma evaluation_closed (constants : Env) (tokens : list Token)
    (e : Exception) :
  forallb token_ok tokens = true ->
  evaluate_expression constants tokens = Err e ->
  exists m t,
    e = EvaluationError m t /\ m <> SortUnderflow /\ m <> SortExpectsArray.
Proof.
  intros Hok H.
  pose proof (evaluate_expression_within constants tokens Hok) as Hw.
  rewrite H in Hw; cbn [within] in Hw.
  destruct e as [| |m t| | | | | |]; try contradiction.
  exists m, t; split; [reflexivity|].
  destruct m; try contradiction; split; discriminate.
Qed.

(** X9: an expression made of tokens of the lexer, whichever of them and in
    whatever order, evaluates in any environment to a value or to an
    EvaluationError, and not to one of the two errors of [sort]: every
    token has the value its type promises, and no NAME token of the lexer
    is [sort], so that the branch of [sort] is not entered, [sorted] is not
    called and no TypeError escapes. *)
Theorem evaluation_errors (text : string) (ts tokens : list Token)
    (constants : Env) (e : Exception) :
  tokenize text = Ok ts ->
  incl tokens ts ->
  evaluate_expression constants tokens = Err e ->
  exists m t,
    e = EvaluationError m t /\ m <> SortUnderflow /\ m <> SortExpectsArray.
Proof.
  intros Hlex Hincl H.
  apply (evaluation_closed constants tokens e); [|exact H].
  destruct (tokenize_lexed text ts Hlex) as [_ Hok].
  apply forallb_forall; intros t Ht.
  exact (proj1 (forallb_forall _ _) Hok t (Hincl t Ht)).
Qed.

Lemma evaluation_errors_witness :
  exists m t,
    EvaluationError (UnexpectedToken SORT)
      (Some (mkToken SORT (TStr "sort") 1 18))
    = EvaluationError m t /\ m <> SortUnderflow /\ m <> SortExpectsArray.
Proof.
  apply (evaluation_errors "a <- [2; 1]; .(a sort()).;"
           [mkToken NAME (TStr "a") 1 1; mkToken ASSIGN (TStr "<-") 1 3;
            mkToken LBRACKET (TStr "[") 1 6; mkToken NUMBER (TNum 2) 1 7;
            mkToken SEMICOLON (TStr ";") 1 8; mkToken NUMBER (TNum 1) 1 10;
            mkToken RBRACKET (TStr "]") 1 11;
            mkToken SEMICOLON (TStr ";") 1 12;
            mkToken DOT (TStr ".") 1 14; mkToken LPAREN (TStr "(") 1 15;
            mkToken NAME (TStr "a") 1 16; mkToken SORT (TStr "sort") 1 18;
            mkToken LPAREN (TStr "(") 1 22; mkToken RPAREN (TStr ")") 1 23;
            mkToken RPAREN (TStr ")") 1 24; mkToken DOT (TStr ".") 1 25;
            mkToken SEMICOLON (TStr ";") 1 26; mkToken EOF TNone 1 27]
           [mkToken NAME (TStr "a") 1 16;
            mkToken SORT (TStr "sort") 1 18;
            mkToken LPAREN (TStr "(") 1 22;
            mkToken RPAREN (TStr ")") 1 23]
           {["a" := VList [VNum 2; VNum 1]]}).
  - vm_compute; reflexivity.
  - intros t Ht; cbn [In] in *.
    repeat (destruct Ht as [<-|Ht]; [tauto|]); contradiction.
  - vm_compute; reflexivity.
Defined.

(** ** The stages of a translation *)

Lemma translate_parse_text (text : string) :
  translate text
  = map_err (fun e => mkTranslationError (stage_of e) e)
      (let* ast_nodes := parse_text text in evaluate_all ∅ ast_nodes).
Proof.
  unfold translate, translate_in, parse_text.
  destruct (tokenize text); reflexivity.
Qed.

(** What [translate] does, parse result by parse result. *)
Lemma translate_cases (text : string) :
  (parse_text text = Ok [] /\ translate text = Ok [])
  \/ (exists node nodes,
         parse_text text = Ok (node :: nodes)
         /\ translate text
            = Err (mkTranslationError Unexpected
                     (NameError "ConstDeclarationNode")))
  \/ (exists e,
         parse_text text = Err e
         /\ translate text = Err (mkTranslationError (stage_of e) e)).
Proof.
  rewrite translate_parse_text.
  destruct (parse_text text) as [[|node nodes]|e]; cbn [rbind].
  - left; split; reflexivity.
  - right; left; exists node, nodes; split; [reflexivity|].
    rewrite evaluate_all_nonempty; reflexivity.
  - right; right; exists e; split; reflexivity.
Qed.

(** X10: [translate] succeeds exactly on the texts without a statement, and
    then with the empty mapping.  On a text that parses to one statement or
    more it fails with an error labelled unexpected (in the embedding, the
    NameError of the unbound [ConstDeclarationNode]), and no failure is
    labelled as an evaluation error.  A failure of the lexer is labelled
    lexical when it is a LexerError and unexpected when it is the
    ValueError of [float]; and a failure labelled syntactic is a ParseError
    of the parser on the tokens of the text. *)
Theorem translate_stages (text : string) :
  (forall results,
      translate text = Ok results
      <-> parse_text text = Ok [] /\ results = [])
  /\ (forall node nodes,
         parse_text text = Ok (node :: nodes) ->
         exists e, translate text = Err (mkTranslationError Unexpected e))
  /\ (forall e, translate text <> Err (mkTranslationError Evaluation e))
  /\ (forall m ln col,
         tokenize text = Err (LexerError m ln col) ->
         translate text
         = Err (mkTranslationError Lexical (LexerError m ln col)))
  /\ (tokenize text = Err ValueError ->
      translate text = Err (mkTranslationError Unexpected ValueError))
  /\ (forall e,
         translate text = Err (mkTranslationError Syntactic e) ->
         exists ts m t,
           tokenize text = Ok ts /\ parse ts = Err e /\ e = ParseError m t).
Proof.
  split; [|split; [|split; [|split; [|split]]]].
  - intros results; split.
    + intros H.
      destruct (translate_cases text)
        as [[Hp Ht]|[(node & nodes & _ & Ht)|(e & _ & Ht)]];
        rewrite Ht in H; try discriminate.
      inversion H; split; [exact Hp | reflexivity].
    + intros [Hp ->]; rewrite translate_parse_text, Hp; reflexivity.
  - intros node nodes Hp; eexists; exact (translate_parsed text node nodes Hp).
  - intros e H.
    destruct (translate_cases text)
      as [[_ Ht]|[(node & nodes & _ & Ht)|(e1 & Hp & Ht)]];
      rewrite Ht in H; try discriminate.
    inversion H as [[Hst He]]; subst e1.
    destruct (parse_text_failure text e Hp)
      as [-> | [(m0 & ln & col & ->) | [(m0 & t & ->) | ->]]];
      discriminate.
  - intros m ln col Hlex; unfold translate, translate_in.
    rewrite Hlex; reflexivity.
  - intros Hlex; unfold translate, translate_in; rewrite Hlex; reflexivity.
  - intros e H.
    destruct (translate_cases text)
      as [[_ Ht]|[(node & nodes & _ & Ht)|(e1 & Hp & Ht)]];
      rewrite Ht in H; try discriminate.
    inversion H as [[Hst He]]; subst e1.
    unfold parse_text in Hp.
    destruct (tokenize text) as [ts|e1] eqn:Hlex; cbn [rbind] in Hp.
    + destruct e; try discriminate.
      exists ts, message, token; repeat split; exact Hp.
    + inversion Hp; subst e1.
      destruct (tokenize_failure text e Hlex)
        as [[-> _] | (u & r & m & _ & -> & _)]; discriminate.
Qed.

Lemma translate_stages_witness :
  translate "x <- 1;"
  = Err (mkTranslationError Unexpected (NameError "ConstDeclarationNode"))
  /\ translate ":: nothing" = Ok []
  /\ translate "x <- Y;"
     = Err (mkTranslationError Lexical
              (LexerError (UnexpectedCharacter "Y") 1 6))
  /\ translate (String "179" "")
     = Err (mkTranslationError Unexpected ValueError)
  /\ translate "x <- ;"
     = Err (mkTranslationError Syntactic
              (ParseError (UnexpectedTokenInValue SEMICOLON)
                 (Some (mkToken SEMICOLON (TStr ";") 1 6))))
  /\ exists e, translate "[1; 2]" = Err (mkTranslationError Unexpected e).
Proof.
  split; [vm_compute; reflexivity|].
  split; [apply (proj1 (translate_stages ":: nothing")); split; reflexivity|].
  split; [apply (proj1 (proj2 (proj2 (proj2 (translate_stages "x <- Y;")))));
          vm_compute; reflexivity|].
  split; [apply (proj1 (proj2 (proj2 (proj2 (proj2
                   (translate_stages (String "179" "")))))));
          vm_compute; reflexivity|].
  split; [vm_compute; reflexivity|].
  apply (proj1 (proj2 (translate_stages "[1; 2]"))
           (ArrayNode [NumberNode 1; NumberNode 2]) []).
  vm_compute; reflexivity.
Defined.

(** ** Postfix expressions, piece by piece *)

Lemma eval_tokens_app (constants : Env) (ts1 ts2 : list Token)
    (stack : list Value) :
  eval_tokens constants (ts1 ++ ts2) stack
  = let* stack' := eval_tokens constants ts1 stack in
    eval_tokens constants ts2 stack'.
Proof.
  revert stack; induction ts1 as [|t ts1 IH]; intros stack; [reflexivity|].
  cbn [app eval_tokens].
  destruct (eval_token constants t stack) as [stack'|e]; cbn [rbind];
    [apply IH | reflexivity].
Qed.

(** A token that succeeds on a stack does the same on top of a deeper
    one. *)
Lemma eval_token_frame (constants : Env) (token : Token)
    (stack stack' base : list Value) :
  eval_token constants token stack = Ok stack' ->
  eval_token constants token (stack ++ base) = Ok (stack' ++ base).
Proof.
  unfold eval_token; intros H.
  destruct (type token).
  all: try discriminate H.
  - destruct (token_float token); cbn [rbind] in *; [|discriminate].
    inversion H; reflexivity.
  - destruct (token_str token) as [name|]; cbn [rbind] in *; [|discriminate].
    destruct (String.eqb name "sort").
    + destruct stack as [|[x|items|entries] stack]; try discriminate.
      cbn [app].
      destruct (sorted items); cbn [rbind] in *; [|discriminate].
      inversion H; reflexivity.
    + destruct (constants !! name); [|discriminate].
      inversion H; reflexivity.
  - destruct stack as [|b [|a stack]]; try discriminate.
    cbn [app]; destruct a, b; try discriminate; inversion H; reflexivity.
  - destruct stack as [|b [|a stack]]; try discriminate.
    cbn [app]; destruct a, b; try discriminate; inversion H; reflexivity.
Qed.

Lemma eval_tokens_frame (constants : Env) (tokens : list Token)
    (stack stack' base : list Value) :
  eval_tokens constants tokens stack = Ok stack' ->
  eval_tokens constants tokens (stack ++ base) = Ok (stack' ++ base).
Proof.
  revert stack; induction tokens as [|t ts IH]; intros stack H.
  - inversion H; reflexivity.
  - cbn [eval_tokens] in *.
    destruct (eval_token constants t stack) as [st1|e] eqn:Ht;
      cbn [rbind] in H; [|discriminate].
    rewrite (eval_token_frame _ _ _ _ base Ht); cbn [rbind].
    exact (IH st1 H).
Qed.

Lemma evaluate_expression_stack (constants : Env) (tokens : list Token)
    (v : Value) :
  evaluate_expression constants tokens = Ok v ->
  eval_tokens constants tokens [] = Ok [v].
Proof.
  unfold evaluate_expression; intros H.
  destruct (eval_tokens constants tokens []) as [stack|e]; cbn [rbind] in H;
    [|discriminate].
  apply final_stack_single in H; rewrite H; reflexivity.
Qed.

(** X11: postfix expressions compose.  When the runs [e1] and [e2] are
    expressions with the values [a] and [b], the run [e1 e2 op] is the
    expression that applies the token [op] to the stack holding [b] on top
    of [a], and the run [e1 op] the one that applies [op] to the stack
    holding [a]; a run that succeeds never reads below the values it has
    pushed. *)
Theorem postfix_composition (constants : Env) (e1 e2 : list Token)
    (a b : Value) (op : Token) :
  evaluate_expression constants e1 = Ok a ->
  evaluate_expression constants e2 = Ok b ->
  evaluate_expression constants (e1 ++ e2 ++ [op])
  = (let* stack := eval_token constants op [b; a] in final_stack stack)
  /\ evaluate_expression constants (e1 ++ [op])
     = (let* stack := eval_token constants op [a] in final_stack stack)
  /\ forall base,
      eval_tokens constants (e1 ++ e2) base = Ok (b :: a :: base).
Proof.
  intros H1 H2.
  apply evaluate_expression_stack in H1, H2.
  assert (Hboth : forall base,
             eval_tokens constants (e1 ++ e2) base = Ok (b :: a :: base)).
  { intros base; rewrite eval_tokens_app.
    pose proof (eval_tokens_frame constants e1 [] [a] base H1) as F1.
    pose proof (eval_tokens_frame constants e2 [] [b] (a :: base) H2) as F2.
    cbn [app] in F1, F2; rewrite F1; cbn [rbind]; exact F2. }
  split; [|split; [|exact Hboth]]; unfold evaluate_expression.
  - rewrite app_assoc, eval_tokens_app, (Hboth []); cbn [rbind eval_tokens].
    destruct (eval_token constants op [b; a]); reflexivity.
  - rewrite eval_tokens_app, H1; cbn [rbind eval_tokens].
    destruct (eval_token constants op [a]); reflexivity.
Qed.

Lemma postfix_composition_witness :
  evaluate_expression ∅
    ([number_token 10; number_token 5; mkToken PLUS (TStr "+") 0 0]
     ++ [number_token 3] ++ [mkToken MINUS (TStr "-") 0 0])
  = Ok (VNum (10 + 5 - 3)).
Proof.
  apply (proj1 (postfix_composition ∅
                  [number_token 10; number_token 5;
                   mkToken PLUS (TStr "+") 0 0]
                  [number_token 3] (VNum (10 + 5)) (VNum 3)
                  (mkToken MINUS (TStr "-") 0 0) eq_refl eq_refl)).
Defined.

(** ** [sort] on a sequence of numbers *)

Lemma SFcompare_asym (x y : SpecFloat.spec_float) :
  SpecFloat.SFcompare x y = Some Lt -> SpecFloat.SFcompare y x = Some Gt.
Proof.
  destruct x as [sx|sx| |sx mx ex], y as [sy|sy| |sy my ey]; simpl;
    try discriminate;
    try (destruct sx; discriminate || reflexivity);
    try (destruct sy; discriminate || reflexivity).
  - destruct sx, sy; discriminate || reflexivity.
  - destruct sx, sy; try discriminate; try reflexivity;
      rewrite (Z.compare_antisym ex ey);
      destruct (ex ?= ey)%Z; simpl; try discriminate; try reflexivity;
      change (Pos.compare_cont Eq my mx) with (Pos.compare my mx);
      change (Pos.compare_cont Eq mx my) with (Pos.compare mx my);
      rewrite (Pos.compare_antisym mx my);
      destruct (mx ?= my)%positive; simpl; discriminate || reflexivity.
Qed.

Lemma ltb_asym (x y : float) :
  PrimFloat.ltb x y = true -> PrimFloat.ltb y x = false.
Proof.
  rewrite !FloatAxioms.ltb_spec; unfold SpecFloat.SFltb.
  destruct (SpecFloat.SFcompare (Prim2SF x) (Prim2SF y)) as [[| |]|] eqn:H;
    try discriminate.
  rewrite (SFcompare_asym _ _ H); reflexivity.
Qed.





Section Sorting.
Context {A : Type} (inj : A -> Value) (lt : A -> A -> bool).
Hypothesis py_lt_inj : forall a b, py_lt (inj a) (inj b) = Ok (lt a b).
Hypothesis lt_asym : forall a b, lt a b = true -> lt b a = false.

Lemma sorted_insert_by (x : A) (l : list A) :
  sorted_insert (inj x) (map inj l) = Ok (map inj (insert_by lt x l)).
Proof.
  induction l as [|y l IH]; [reflexivity|].
  cbn [map sorted_insert insert_by]; rewrite py_lt_inj; cbn [rbind].
  destruct (lt y x); [rewrite IH|]; reflexivity.
Qed.

Lemma sorted_by (l : list A) :
  sorted (map inj l) = Ok (map inj (sort_by lt l)).
Proof.
  induction l as [|x l IH]; [reflexivity|].
  cbn [map sorted sort_by]; rewrite IH; cbn [rbind].
  apply sorted_insert_by.
Qed.

Lemma insert_by_perm (x : A) (l : list A) :
  Permutation (insert_by lt x l) (x :: l).
Proof.
  induction l as [|y l IH]; simpl; [apply Permutation_refl|].
  destruct (lt y x); [|apply Permutation_refl].
  apply Permutation_trans with (y :: x :: l);
    [apply perm_skip; exact IH | apply perm_swap].
Qed.

Lemma sort_by_perm (l : list A) : Permutation (sort_by lt l) l.
Proof.
  induction l as [|x l IH]; [apply Permutation_refl|].
  cbn [sort_by].
  apply Permutation_trans with (x :: sort_by lt l);
    [apply insert_by_perm | apply perm_skip; exact IH].
Qed.

Lemma insert_by_ascending (x : A) (l : list A) :
  ascending lt l = true -> ascending lt (insert_by lt x l) = true.
Proof.
  induction l as [|y l IH]; intros Hl; [reflexivity|].
  cbn [insert_by].
  destruct (lt y x) eqn:Hyx.
  - cbn [ascending] in Hl; apply andb_prop in Hl as [Hhd Htl].
    specialize (IH Htl).
    cbn [ascending]; rewrite IH, andb_true_r.
    destruct l as [|z l]; cbn [insert_by].
    + rewrite (lt_asym y x Hyx); reflexivity.
    + destruct (lt z x); [exact Hhd|].
      rewrite (lt_asym y x Hyx); reflexivity.
  - cbn [ascending] in *; rewrite Hyx, Hl; reflexivity.
Qed.

Lemma sort_by_ascending (l : list A) : ascending lt (sort_by lt l) = true.
Proof.
  induction l as [|x l IH]; [reflexivity|].
  exact (insert_by_ascending x _ IH).
Qed.

Lemma sort_by_fixed (l : list A) :
  ascending lt l = true -> sort_by lt l = l.
Proof.
  induction l as [|x l IH]; intros Hl; [reflexivity|].
  cbn [ascending] in Hl; apply andb_prop in Hl as [Hhd Htl].
  cbn [sort_by]; rewrite (IH Htl).
  destruct l as [|y l]; [reflexivity|].
  cbn [insert_by]; apply negb_true_iff in Hhd; rewrite Hhd; reflexivity.
Qed.

End Sorting.

(** What a NAME token whose value is [sort] does. *)
Lemma sort_token_step (constants : Env) (token : Token) (operand : Value)
    (stack : list Value) :
  type token = NAME -> value token = TStr "sort" ->
  eval_token constants token (operand :: stack)
  = match operand with
    | VList items => let* r := sorted items in Ok (VList r :: stack)
    | _ => eval_error SortExpectsArray token
    end.
Proof.
  intros Hty Hval; unfold eval_token, token_str; rewrite Hty, Hval.
  reflexivity.
Qed.





(** X12: in the postfix evaluator, a NAME token whose value is [sort]
    replaces a sequence of numbers (no NaN among them) on top of the stack
    by the same numbers rearranged so that none is greater than the one
    after it; a sequence that is in that order already is left as it is,
    equal numbers such as 0.0 and -0.0 included, and so is the result of
    the token when the token is applied again. *)
Theorem sort_numbers (constants : Env) (token : Token) (xs : list float)
    (stack : list Value) :
  type token = NAME -> value token = TStr "sort" ->
  forallb not_nan xs = true ->
  exists ys,
    eval_token constants token (VList (map VNum xs) :: stack)
    = Ok (VList (map VNum ys) :: stack)
    /\ Permutation ys xs /\ ascending PrimFloat.ltb ys = true
    /\ (ascending PrimFloat.ltb xs = true -> ys = xs)
    /\ eval_token constants token (VList (map VNum ys) :: stack)
       = Ok (VList (map VNum ys) :: stack).
Proof.
  intros Hty Hval _.
  assert (Hstep : forall l,
             eval_token constants token (VList (map VNum l) :: stack)
             = Ok (VList (map VNum (sort_by PrimFloat.ltb l)) :: stack)).
  { intros l; rewrite (sort_token_step _ _ _ _ Hty Hval).
    rewrite (sorted_by VNum PrimFloat.ltb (fun a b => eq_refl) l).
    reflexivity. }
  exists (sort_by PrimFloat.ltb xs); split; [exact (Hstep xs)|].
  split; [apply sort_by_perm|].
  split; [exact (sort_by_ascending PrimFloat.ltb ltb_asym xs)|].
  split; [exact (sort_by_fixed PrimFloat.ltb xs)|].
  rewrite Hstep.
  rewrite (sort_by_fixed PrimFloat.ltb _
             (sort_by_ascending PrimFloat.ltb ltb_asym xs)).
  reflexivity.
Qed.

Lemma sort_numbers_witness :
  (exists ys,
      eval_token ∅ (name_token "sort") [VList (map VNum [3; 1; 2]%float)]
      = Ok [VList (map VNum ys)]
      /\ Permutation ys [3; 1; 2]%float
      /\ ascending PrimFloat.ltb ys = true)
  /\ eval_token ∅ (name_token "sort") [VList (map VNum [0; -0; 1]%float)]
     = Ok [VList (map VNum [0; -0; 1]%float)].
Proof.
  split.
  - destruct (sort_numbers ∅ (name_token "sort") [3; 1; 2]%float []
                eq_refl eq_refl eq_refl) as (ys & Hys & Hperm & Hasc & _).
    exists ys; split; [exact Hys | split; [exact Hperm | exact Hasc]].
  - destruct (sort_numbers ∅ (name_token "sort") [0; -0; 1]%float []
                eq_refl eq_refl eq_refl) as (ys & Hys & _ & _ & Hfix & _).
    rewrite Hys, (Hfix eq_refl); reflexivity.
Defined.

(** ** The output mapping *)

Lemma dict_get_set_eq {V} (d : dict V) (k : string) (v : V) :
  dict_get (dict_set d k v) k = Some v.
Proof.
  induction d as [|[k' v'] d IH]; simpl.
  - rewrite String.eqb_refl; reflexivity.
  - destruct (String.eqb k' k) eqn:E; simpl.
    + rewrite String.eqb_refl; reflexivity.
    + rewrite E; exact IH.
Qed.

Lemma dict_get_set_ne {V} (d : dict V) (k k' : string) (v : V) :
  k <> k' -> dict_get (dict_set d k v) k' = dict_get d k'.
Proof.
  intros Hne; induction d as [|[k0 v0] d IH]; simpl.
  - apply String.eqb_neq in Hne; rewrite Hne; reflexivity.
  - destruct (String.eqb k0 k) eqn:E; simpl.
    + apply String.eqb_eq in E; subst k0.
      apply String.eqb_neq in Hne; rewrite Hne; reflexivity.
    + destruct (String.eqb k0 k'); [reflexivity | exact IH].
Qed.

Lemma dict_get_keys {V} (d : dict V) (k : string) :
  dict_get d k = None <-> ~ In k (map fst d).
Proof.
  induction d as [|[k0 v0] d IH]; simpl; [tauto|].
  destruct (String.eqb k0 k) eqn:E.
  - apply String.eqb_eq in E; split; [discriminate | tauto].
  - apply String.eqb_neq in E; rewrite IH; tauto.
Qed.

(** Assigning to a key that is absent adds it at the end; assigning to a
    key that is present leaves the keys as they are. *)
Lemma dict_set_fresh {V} (d : dict V) (k : string) (v : V) :
  dict_get d k = None -> dict_set d k v = d ++ [(k, v)].
Proof.
  induction d as [|[k0 v0] d IH]; simpl; [reflexivity|].
  destruct (String.eqb k0 k); [discriminate|].
  intros H; rewrite (IH H); reflexivity.
Qed.

Lemma dict_set_present {V} (d : dict V) (k : string) (v w : V) :
  dict_get d k = Some w -> map fst (dict_set d k v) = map fst d.
Proof.
  induction d as [|[k0 v0] d IH]; simpl; [discriminate|].
  destruct (String.eqb k0 k) eqn:E; simpl.
  - apply String.eqb_eq in E; subst; reflexivity.
  - intros H; rewrite (IH H); reflexivity.
Qed.

Lemma dict_set_keys {V} (d : dict V) (k : string) (v : V) :
  map fst (dict_set d k v)
  = match dict_get d k with
    | Some _ => map fst d
    | None => map fst d ++ [k]
    end.
Proof.
  destruct (dict_get d k) as [w|] eqn:H.
  - exact (dict_set_present d k v w H).
  - rewrite (dict_set_fresh d k v H), map_app; reflexivity.
Qed.

Lemma dict_set_NoDup {V} (d : dict V) (k : string) (v : V) :
  NoDup (map fst d) -> NoDup (map fst (dict_set d k v)).
Proof.
  intros Hd; rewrite dict_set_keys.
  destruct (dict_get d k) as [w|] eqn:H; [exact Hd|].
  apply dict_get_keys in H.
  apply NoDup_app; split; [exact Hd|].
  split; [|apply NoDup_singleton].
  intros x Hx Hin; apply list_elem_of_singleton in Hin; subst x.
  apply H, list_elem_of_In; exact Hx.
Qed.

Lemma declarations_state (globals : list string) (nodes : list ASTNode) :
  forallb is_declaration nodes = true ->
  forall st st',
    evaluate_statements_in globals st nodes = Ok st' ->
    (forall n, dict_get (snd st) n = fst st !! n) ->
    (forall n, dict_get (snd st') n = fst st' !! n)
    /\ map fst (snd st')
       = fold_left (fun keys n => if in_dec String.string_dec n keys
                                  then keys else keys ++ [n])
                   (declared nodes) (map fst (snd st)).
Proof.
  induction nodes as [|node nodes IH]; intros Hd [constants results] st' Hev
    Hst.
  - inversion Hev; subst; split; [exact Hst | reflexivity].
  - cbn [forallb] in Hd; apply andb_prop in Hd as [Hnode Hnodes].
    destruct node as [| | | |name val|]; try discriminate.
    cbn [evaluate_statements_in] in Hev.
    destruct (evaluate_statement_in globals (constants, results)
                (ConstDeclarationNode name val)) as [st1|e] eqn:H1;
      cbn [rbind] in Hev; [|discriminate].
    pose proof (evaluate_statement_in_ok _ _ _ _ H1) as Hg.
    rewrite (evaluate_statement_declaration _ _ _ _ _ Hg) in H1.
    destruct (evaluate_node constants val) as [v|e]; cbn [rbind] in H1;
      [|discriminate].
    inversion H1; subst st1; clear H1.
    destruct (IH Hnodes _ st' Hev) as [Hget Hkeys].
    + intros n; cbn [fst snd] in *.
      destruct (String.string_dec name n) as [->|Hne].
      * rewrite dict_get_set_eq, lookup_insert_eq; reflexivity.
      * rewrite (dict_get_set_ne _ _ _ _ Hne), lookup_insert_ne by exact Hne.
        apply Hst.
    + split; [exact Hget|].
      rewrite Hkeys; cbn [declared fold_left fst snd].
      f_equal; rewrite dict_set_keys.
      destruct (in_dec String.string_dec name (map fst results)) as [Hin|Hout].
      * destruct (dict_get results name) eqn:Hgr; [reflexivity|].
        apply dict_get_keys in Hgr; contradiction.
      * apply dict_get_keys in Hout; rewrite Hout; reflexivity.
Qed.

Lemma fold_keys_fresh (names keys : list string) :
  NoDup (keys ++ names) ->
  fold_left (fun keys n => if in_dec String.string_dec n keys
                           then keys else keys ++ [n]) names keys
  = keys ++ names.
Proof.
  revert keys; induction names as [|n names IH]; intros keys Hnd;
    cbn [fold_left]; [rewrite app_nil_r; reflexivity|].
  destruct (in_dec String.string_dec n keys) as [Hin|Hout].
  - exfalso; apply NoDup_app in Hnd as (_ & Hdisj & _).
    apply (Hdisj n); [apply list_elem_of_In; exact Hin | left].
  - rewrite IH; [rewrite <- app_assoc; reflexivity|].
    rewrite <- app_assoc; exact Hnd.
Qed.

Lemma evaluate_statements_keys (globals : list string)
    (nodes : list ASTNode) (st st' : Env * dict Value) :
  evaluate_statements_in globals st nodes = Ok st' ->
  NoDup (map fst (snd st)) -> NoDup (map fst (snd st')).
Proof.
  revert st; induction nodes as [|node nodes IH]; intros [constants results]
    Hev Hnd.
  - inversion Hev; subst; exact Hnd.
  - cbn [evaluate_statements_in] in Hev.
    destruct (evaluate_statement_in globals (constants, results) node)
      as [st1|e] eqn:H1; cbn [rbind] in Hev; [|discriminate].
    apply (IH st1 Hev).
    pose proof (evaluate_statement_in_ok _ _ _ _ H1) as Hg.
    destruct (is_declaration node) eqn:Hd.
    + destruct node; try discriminate.
      rewrite (evaluate_statement_declaration _ _ _ _ _ Hg) in H1.
      destruct (evaluate_node constants node); cbn [rbind] in H1;
        inversion H1; subst st1; apply dict_set_NoDup; exact Hnd.
    + rewrite (evaluate_statement_bare _ _ _ _ Hg Hd) in H1.
      destruct (evaluate_node constants node); cbn [rbind] in H1;
        inversion H1; subst st1; apply dict_set_NoDup; exact Hnd.
Qed.

(** X13: the loop of [evaluate_all], namespace by namespace.  As the module
    is, it returns the empty mapping for no statement and raises NameError
    at the first node of any other list, before anything is evaluated or
    bound: [ConstDeclarationNode] is not a name of the module.  A loop that
    gets through one node or more has found the class in its namespace;
    then the output mapping never holds a key twice, and for a program made
    of declarations only it holds the declared names and no others, each
    with the value the environment ends with (that of its last
    declaration), and, when no name is declared twice, in the order of the
    declarations. *)
Theorem output_of_declarations (globals : list string)
    (nodes : list ASTNode) (constants : Env) (results : dict Value) :
  evaluate_statements_in globals (∅, []) nodes = Ok (constants, results) ->
  (forall env, evaluate_all env [] = Ok [])
  /\ (forall env node rest,
         evaluate_all env (node :: rest)
         = Err (NameError "ConstDeclarationNode"))
  /\ (nodes <> [] -> lookup_global globals "ConstDeclarationNode" = Ok tt)
  /\ NoDup (map fst results)
  /\ (forallb is_declaration nodes = true ->
      (forall n, dict_get results n = constants !! n)
      /\ (forall n, In n (map fst results) <-> In n (declared nodes))
      /\ (NoDup (declared nodes) -> map fst results = declared nodes)).
Proof.
  intros Hev.
  split; [reflexivity|].
  split; [intros env node rest; apply evaluate_all_nonempty|].
  split; [|split].
  - intros Hne; destruct nodes as [|node nodes]; [contradiction|].
    cbn [evaluate_statements_in] in Hev.
    destruct (evaluate_statement_in globals (∅, []) node) as [st1|e] eqn:H1;
      [|discriminate].
    exact (evaluate_statement_in_ok _ _ _ _ H1).
  - exact (evaluate_statements_keys globals nodes _ _ Hev NoDup_nil_2).
  - intros Hd.
    destruct (declarations_state globals nodes Hd _ _ Hev) as [Hget Hkeys];
      [intros n; cbn [fst snd dict_get]; rewrite lookup_empty; reflexivity|].
    cbn [fst snd] in *; split; [exact Hget | split].
    + intros n; split.
      * intros Hin.
        destruct (in_dec String.string_dec n (declared nodes)) as [H|H];
          [exact H | exfalso].
        pose proof (evaluate_statements_constants _ _ _ nodes n Hev H) as Hc.
        cbn [fst] in Hc; rewrite lookup_empty, <- Hget in Hc.
        apply dict_get_keys in Hc; contradiction.
      * intros Hin.
        destruct (evaluate_statements_declared _ _ _ nodes n Hev Hin)
          as [v Hv].
        cbn [fst] in Hv; rewrite <- Hget in Hv.
        destruct (in_dec String.string_dec n (map fst results)) as [H|H];
          [exact H|].
        apply dict_get_keys in H; congruence.
    + intros Hnd; rewrite Hkeys.
      exact (fold_keys_fresh (declared nodes) [] Hnd).
Qed.

Lemma output_of_declarations_witness :
  evaluate_all ∅ [ConstDeclarationNode "a" (NumberNode 1);
                  ConstDeclarationNode "b" (NumberNode 2)]
  = Err (NameError "ConstDeclarationNode")
  /\ evaluate_statements_in ("ConstDeclarationNode" :: evaluator_globals)
       (∅, []) [ConstDeclarationNode "a" (NumberNode 1);
                ConstDeclarationNode "b" (NumberNode 2)]
     = Ok (<["b" := VNum 2]> (<["a" := VNum 1]> ∅),
           [("a", VNum 1); ("b", VNum 2)])
  /\ NoDup (map fst [("a", VNum 1); ("b", VNum 2)])
  /\ (forall n, dict_get [("a", VNum 1); ("b", VNum 2)] n
                = (<["b" := VNum 2]> (<["a" := VNum 1]> (∅ : Env))) !! n)
  /\ map fst [("a", VNum 1); ("b", VNum 2)] = ["a"; "b"].
Proof.
  destruct (output_of_declarations
              ("ConstDeclarationNode" :: evaluator_globals)
              [ConstDeclarationNode "a" (NumberNode 1);
               ConstDeclarationNode "b" (NumberNode 2)] _ _ eq_refl)
    as (_ & Hraise & _ & Hkeys & Hdecl).
  destruct (Hdecl eq_refl) as (Hget & _ & Horder).
  split; [apply Hraise | split; [reflexivity|]].
  split; [exact Hkeys | split; [exact Hget | reflexivity]].
Defined.

(** ** What a value depends on *)

Lemma eval_token_agree (c1 c2 : Env) (t : Token) (stack : list Value) :
  (forall n, In n (token_name t) -> c1 !! n = c2 !! n) ->
  eval_token c1 t stack = eval_token c2 t stack.
Proof.
  unfold eval_token, token_name, token_str; intros H.
  destruct (type t); try reflexivity.
  destruct (value t) as [f|s|]; try reflexivity; cbn [rbind].
  destruct (String.eqb s "sort"); [reflexivity|].
  rewrite (H s) by (left; reflexivity); reflexivity.
Qed.

Lemma eval_tokens_agree (c1 c2 : Env) (tokens : list Token)
    (stack : list Value) :
  (forall n, In n (concat (map token_name tokens)) -> c1 !! n = c2 !! n) ->
  eval_tokens c1 tokens stack = eval_tokens c2 tokens stack.
Proof.
  revert stack; induction tokens as [|t ts IH]; intros stack H;
    [reflexivity|].
  cbn [eval_tokens map concat] in *.
  rewrite (eval_token_agree c1 c2 t stack)
    by (intros n Hn; apply H, in_or_app; left; exact Hn).
  destruct (eval_token c2 t stack) as [stack'|e]; cbn [rbind];
    [|reflexivity].
  apply IH; intros n Hn; apply H, in_or_app; right; exact Hn.
Qed.

Lemma evaluate_node_agree (c1 c2 : Env) (node : ASTNode) :
  (forall n, In n (mentions node) -> c1 !! n = c2 !! n) ->
  evaluate_node c1 node = evaluate_node c2 node.
Proof.
  induction node as [v|name|elements IH|pairs IH|name val IH|tokens]
    using ASTNode_nested_ind; intros H.
  - reflexivity.
  - simpl; rewrite (H name) by (left; reflexivity); reflexivity.
  - cbn [evaluate_node mentions] in *; f_equal.
    induction IH as [|elem l Helem _ IHl]; [reflexivity|].
    cbn [map concat] in H.
    rewrite Helem by (intros n Hn; apply H, in_or_app; left; exact Hn).
    rewrite IHl by (intros n Hn; apply H, in_or_app; right; exact Hn).
    reflexivity.
  - cbn [evaluate_node mentions] in *; f_equal.
    induction IH as [|[key val] l Hval _ IHl]; [reflexivity|].
    cbn [map concat snd] in H, Hval.
    rewrite Hval by (intros n Hn; apply H, in_or_app; left; exact Hn).
    rewrite IHl by (intros n Hn; apply H, in_or_app; right; exact Hn).
    reflexivity.
  - reflexivity.
  - cbn [evaluate_node mentions] in *; unfold evaluate_expression.
    rewrite (eval_tokens_agree c1 c2 tokens [] H); reflexivity.
Qed.

(** X15: the value of a node, or the error of its evaluation, depends on
    the environment only at the names the node refers to (its Name nodes and
    the NAME tokens of its constant expressions): two environments that bind
    those names alike give the same outcome, and so a declaration of a name
    the node does not refer to leaves its value as it was. *)
Theorem value_depends_on_mentions (c1 c2 : Env) (node : ASTNode) :
  (forall n, In n (mentions node) -> c1 !! n = c2 !! n) ->
  evaluate_node c1 node = evaluate_node c2 node
  /\ forall name (v : Value),
      ~ In name (mentions node) ->
      evaluate_node (<[name := v]> c1) node = evaluate_node c2 node.
Proof.
  intros H; split; [exact (evaluate_node_agree c1 c2 node H)|].
  intros name v Hname; apply evaluate_node_agree.
  intros n Hn; rewrite lookup_insert_ne; [exact (H n Hn)|].
  intros ->; exact (Hname Hn).
Qed.

Lemma value_depends_on_mentions_witness :
  evaluate_node (<["b" := VNum 7]> (<["a" := VNum 1]> ∅))
    (ArrayNode [NameNode "a";
                ConstExpressionNode [name_token "a"; number_token 2;
                                     mkToken PLUS (TStr "+") 0 0]])
  = evaluate_node (<["a" := VNum 1]> ∅)
      (ArrayNode [NameNode "a";
                  ConstExpressionNode [name_token "a"; number_token 2;
                                       mkToken PLUS (TStr "+") 0 0]]).
Proof.
  apply (proj2 (value_depends_on_mentions (<["a" := VNum 1]> ∅)
                  (<["a" := VNum 1]> ∅)
                  (ArrayNode [NameNode "a";
                              ConstExpressionNode
                                [name_token "a"; number_token 2;
                                 mkToken PLUS (TStr "+") 0 0]])
                  (fun n _ => eq_refl)) "b" (VNum 7)).
  vm_compute; intros [H|[H|[]]]; discriminate H.
Defined.

(** ** The parser reads back what the grammar writes *)

Lemma tokens_of_start (trailing : bool) (node : ASTNode) :
  is_value node = true ->
  exists t ts, tokens_of trailing node = t :: ts /\ value_start (type t) = true.
Proof.
  destruct node; intros H; try discriminate; eexists _, _; split;
    reflexivity.
Qed.

Lemma collect_expression_balanced (ts rest acc : list Token) (depth : nat)
    (close : Token) :
  type close = RPAREN -> balanced depth ts = true ->
  collect_expression (ts ++ close :: rest) (S depth) acc
  = Ok (acc ++ ts, rest).
Proof.
  intros Hclose; revert depth acc; induction ts as [|t ts IH];
    intros depth acc Hb.
  - cbn [balanced] in Hb; apply Nat.eqb_eq in Hb; subst depth.
    cbn [app collect_expression eat]; rewrite Hclose, app_nil_r; reflexivity.
  - cbn [app collect_expression balanced] in *.
    replace (acc ++ t :: ts) with ((acc ++ [t]) ++ ts)
      by (rewrite <- app_assoc; reflexivity).
    destruct (type t); cbn [TokenType_eqb Nat.pred Nat.ltb Nat.leb];
      try exact (IH depth _ Hb).
    + exact (IH (S depth) _ Hb).
    + destruct depth as [|depth]; [discriminate|].
      exact (IH depth _ Hb).
Qed.

Lemma parse_const_expression_written (tokens rest : list Token) :
  balanced 0 tokens = true ->
  parse_const_expression
    (sym DOT :: sym LPAREN :: tokens ++ [sym RPAREN; sym DOT] ++ rest)
  = Ok (ConstExpressionNode tokens, rest).
Proof.
  intros Hb; unfold parse_const_expression; cbn [eat sym type TokenType_eqb rbind].
  change ([sym RPAREN; sym DOT] ++ rest)
    with (sym RPAREN :: sym DOT :: rest).
  rewrite (collect_expression_balanced tokens (sym DOT :: rest) [] 0
             (sym RPAREN) eq_refl Hb).
  reflexivity.
Qed.

Lemma dict_get_app {V} (d1 d2 : dict V) (k : string) :
  dict_get (d1 ++ d2) k
  = match dict_get d1 k with
    | Some v => Some v
    | None => dict_get d2 k
    end.
Proof.
  induction d1 as [|[k0 v0] d1 IH]; simpl; [reflexivity|].
  destruct (String.eqb k0 k); [reflexivity | exact IH].
Qed.

Section Written.

Variable trailing : bool.

Lemma parse_array_loop_written (elements : list ASTNode) :
  Forall (reads_back trailing) elements -> forallb is_value elements = true ->
  elements <> [] ->
  forall fuel acc rest,
    3 * length (separated trailing (map (tokens_of trailing) elements)
                ++ sym RBRACKET :: rest) + 1 <= fuel ->
    parse_array_loop fuel
      (separated trailing (map (tokens_of trailing) elements)
       ++ sym RBRACKET :: rest) acc
    = Ok (acc ++ elements, sym RBRACKET :: rest).
Proof.
  induction 1 as [|e els He Hels IH]; intros Hv Hne fuel acc rest Hfuel;
    [exfalso; apply Hne; reflexivity|].
  cbn [forallb] in Hv; apply andb_prop in Hv as [Hve Hvels].
  destruct fuel as [|fuel]; [lia|].
  destruct els as [|e2 els].
  - (* the last element *)
    cbn [map separated] in *; rewrite <- app_assoc in *.
    cbn [parse_array_loop].
    rewrite (He Hve fuel _) by lia; cbn [rbind].
    destruct trailing; cbn [app current_type sym type TokenType_eqb rbind eat];
      reflexivity.
  - (* an element and a semicolon *)
    change (separated trailing (map (tokens_of trailing) (e :: e2 :: els)))
      with (tokens_of trailing e ++ sym SEMICOLON
            :: separated trailing (map (tokens_of trailing) (e2 :: els)))
      in *.
    rewrite <- app_assoc in *; cbn [app] in *.
    cbn [parse_array_loop].
    rewrite (He Hve fuel _) by lia; cbn [rbind].
    cbn [current_type sym type TokenType_eqb rbind eat].
    destruct (tokens_of_start trailing e2) as (t2 & ts2 & Ht2 & Hstart);
      [cbn [forallb] in Hvels; apply andb_prop in Hvels; tauto|].
    assert (Hlen : 1 <= length (tokens_of trailing e)).
    { destruct (tokens_of_start trailing e Hve) as (t & ts & -> & _).
      simpl; lia. }
    rewrite length_app in Hfuel; cbn [length] in Hfuel.
    rewrite (IH Hvels ltac:(discriminate) fuel (acc ++ [e]) rest) by lia.
    rewrite <- app_assoc; cbn [app].
    cbn [map separated]; rewrite Ht2.
    destruct els; cbn [map app current_type rbind];
      destruct (type t2); try discriminate; reflexivity.
Qed.

(** The loop of [parse_dict] assigns the pairs to the dict one after the
    other, whatever their keys. *)
Lemma parse_dict_loop_assigns (pairs : dict ASTNode) :
  Forall (fun kv => reads_back trailing (snd kv)) pairs ->
  forallb (fun kv => is_value (snd kv)) pairs = true ->
  pairs <> [] ->
  forall fuel acc rest,
    3 * length (separated trailing
                  (map (fun kv => name_token (fst kv) :: sym EQUALS
                                  :: tokens_of trailing (snd kv)) pairs)
                ++ sym RBRACE :: rest) + 1 <= fuel ->
    parse_dict_loop fuel
      (separated trailing
         (map (fun kv => name_token (fst kv) :: sym EQUALS
                         :: tokens_of trailing (snd kv)) pairs)
       ++ sym RBRACE :: rest) acc
    = Ok (fold_left (fun d kv => dict_set d (fst kv) (snd kv)) pairs acc,
          sym RBRACE :: rest).
Proof.
  induction 1 as [|[k v] ps Hv Hps IH]; intros Hval Hne fuel acc rest
    Hfuel; [exfalso; apply Hne; reflexivity|].
  cbn [forallb snd] in Hval, Hv; apply andb_prop in Hval as [Hvv Hvps].
  destruct fuel as [|fuel]; [lia|].
  destruct ps as [|[k2 v2] ps].
  - cbn [map separated fst snd] in *; rewrite <- app_assoc in *;
      cbn [app] in *.
    cbn [parse_dict_loop current_type name_token sym type TokenType_eqb negb
           rbind eat token_str value].
    cbn [length] in Hfuel.
    rewrite (Hv Hvv fuel _) by lia; cbn [rbind].
    destruct trailing; cbn [app current_type sym type TokenType_eqb rbind eat];
      reflexivity.
  - set (pair_tokens := fun kv : string * ASTNode =>
                          name_token (fst kv) :: sym EQUALS
                          :: tokens_of trailing (snd kv)) in *.
    change (separated trailing (map pair_tokens ((k, v) :: (k2, v2) :: ps)))
      with ((name_token k :: sym EQUALS :: tokens_of trailing v)
            ++ sym SEMICOLON
            :: separated trailing (map pair_tokens ((k2, v2) :: ps))) in *.
    rewrite <- app_assoc in *; cbn [app] in *.
    cbn [parse_dict_loop current_type name_token sym type TokenType_eqb negb
           rbind eat token_str value].
    cbn [length] in Hfuel.
    rewrite (Hv Hvv fuel _) by lia; cbn [rbind].
    cbn [current_type sym type TokenType_eqb rbind eat].
    rewrite length_app in Hfuel; cbn [length] in Hfuel.
    rewrite (IH Hvps ltac:(discriminate) fuel (dict_set acc k v) rest) by lia.
    cbn [map separated fst snd].
    destruct ps; reflexivity.
Qed.

Lemma fold_dict_set_fresh {V} (pairs acc : dict V) :
  keys_distinct pairs = true ->
  (forall kv, In kv pairs -> dict_get acc (fst kv) = None) ->
  fold_left (fun d kv => dict_set d (fst kv) (snd kv)) pairs acc
  = acc ++ pairs.
Proof.
  revert acc; induction pairs as [|[k v] ps IH]; intros acc Hkeys Hacc;
    cbn [fold_left fst snd]; [rewrite app_nil_r; reflexivity|].
  cbn [keys_distinct] in Hkeys.
  destruct (dict_get ps k) eqn:Hk; [discriminate|].
  rewrite (dict_set_fresh acc k v) by (apply (Hacc (k, v)); left; reflexivity).
  rewrite IH; [rewrite <- app_assoc; reflexivity | exact Hkeys |].
  intros kv Hin; rewrite dict_get_app, (Hacc kv) by (right; exact Hin).
  cbn [dict_get].
  destruct (String.eqb k (fst kv)) eqn:E; [|reflexivity].
  apply String.eqb_eq in E; subst k.
  apply dict_get_keys in Hk; exfalso; apply Hk.
  apply in_map; exact Hin.
Qed.

Lemma parse_dict_loop_written (pairs : dict ASTNode) :
  Forall (fun kv => reads_back trailing (snd kv)) pairs ->
  forallb (fun kv => is_value (snd kv)) pairs = true ->
  keys_distinct pairs = true -> pairs <> [] ->
  forall fuel acc rest,
    (forall kv, In kv pairs -> dict_get acc (fst kv) = None) ->
    3 * length (separated trailing
                  (map (fun kv => name_token (fst kv) :: sym EQUALS
                                  :: tokens_of trailing (snd kv)) pairs)
                ++ sym RBRACE :: rest) + 1 <= fuel ->
    parse_dict_loop fuel
      (separated trailing
         (map (fun kv => name_token (fst kv) :: sym EQUALS
                         :: tokens_of trailing (snd kv)) pairs)
       ++ sym RBRACE :: rest) acc
    = Ok (acc ++ pairs, sym RBRACE :: rest).
Proof.
  intros Hall Hval Hkeys Hne fuel acc rest Hacc Hfuel.
  rewrite (parse_dict_loop_assigns pairs Hall Hval Hne fuel acc rest Hfuel).
  rewrite (fold_dict_set_fresh pairs acc Hkeys Hacc); reflexivity.
Qed.

Lemma parse_value_written (node : ASTNode) : reads_back trailing node.
Proof.
  induction node as [v|name|elements IH|pairs IH|name val IH|tokens]
    using ASTNode_nested_ind; intros Hval fuel rest Hfuel.
  - destruct fuel as [|fuel]; [simpl in Hfuel; lia | reflexivity].
  - destruct fuel as [|fuel]; [simpl in Hfuel; lia | reflexivity].
  - (* an array *)
    cbn [is_value tokens_of] in *.
    rewrite <- !app_comm_cons, <- app_assoc in *; cbn [length app] in Hfuel.
    destruct fuel as [|[|fuel]]; try lia.
    cbn [parse_value sym type parse_array eat TokenType_eqb rbind].
    destruct elements as [|e els].
    + cbn [map separated app current_type sym type TokenType_eqb rbind eat].
      reflexivity.
    + destruct (tokens_of_start trailing e) as (t & ts & Ht & Hstart);
        [cbn [forallb] in Hval; apply andb_prop in Hval; tauto|].
      assert (Hcur : exists ts',
                 separated trailing (map (tokens_of trailing) (e :: els))
                 = t :: ts').
      { cbn [map separated]; rewrite Ht; destruct els; cbn [app]; eauto. }
      destruct Hcur as [ts' Hcur].
      pose proof (parse_array_loop_written (e :: els) IH Hval
                    ltac:(discriminate) fuel [] rest) as Hloop.
      rewrite Hcur in *; cbn [app current_type rbind] in *.
      replace (TokenType_eqb (type t) RBRACKET) with false
        by (destruct (type t); try discriminate; reflexivity).
      rewrite Hloop by (cbn [length] in *; lia).
      reflexivity.
  - (* a dict *)
    cbn [is_value tokens_of] in *.
    apply andb_prop in Hval as [Hkeys Hval].
    rewrite <- !app_comm_cons, <- app_assoc in *; cbn [length app] in Hfuel.
    destruct fuel as [|[|fuel]]; try lia.
    cbn [parse_value sym type parse_dict eat TokenType_eqb rbind].
    destruct pairs as [|[k v] ps].
    + cbn [map separated app current_type sym type TokenType_eqb rbind eat].
      reflexivity.
    + pose proof (parse_dict_loop_written ((k, v) :: ps) IH Hval Hkeys
                    ltac:(discriminate) fuel [] rest
                    ltac:(intros; reflexivity)) as Hloop.
      assert (Hcur : exists ts',
                 separated trailing
                   (map (fun kv => name_token (fst kv) :: sym EQUALS
                                   :: tokens_of trailing (snd kv))
                        ((k, v) :: ps))
                 = name_token k :: ts').
      { cbn [map separated fst]; destruct ps; cbn [app]; eauto. }
      destruct Hcur as [ts' Hcur].
      rewrite Hcur in *; cbn [app current_type rbind name_token type] in *.
      cbn [TokenType_eqb].
      rewrite Hloop by (cbn [length] in *; lia).
      reflexivity.
  - discriminate.
  - (* a constant expression *)
    cbn [is_value tokens_of] in *.
    destruct fuel as [|fuel]; [simpl in Hfuel; lia|].
    cbn [app parse_value sym type].
    rewrite <- app_assoc.
    exact (parse_const_expression_written tokens rest Hval).
Qed.

End Written.

Lemma tokens_of_length (trailing : bool) (node : ASTNode) :
  1 <= length (tokens_of trailing node).
Proof. destruct node; simpl; lia. Qed.

Lemma statement_start (trailing : bool) (node : ASTNode) :
  is_statement node = true ->
  exists t ts,
    tokens_of trailing node = t :: ts /\ value_start (type t) = true.
Proof.
  destruct node; intros H; try discriminate; eexists _, _; split;
    reflexivity.
Qed.

(** A statement is read back when the token behind it is no [<-]. *)
Lemma parse_statement_written (trailing : bool) (node : ASTNode)
    (fuel : nat) (next : Token) (rest : list Token) :
  is_statement node = true ->
  TokenType_eqb (type next) ASSIGN = false ->
  3 * length (tokens_of trailing node ++ next :: rest) <= fuel ->
  parse_statement fuel (tokens_of trailing node ++ next :: rest)
  = Ok (node, next :: rest).
Proof.
  intros Hst Hnext Hfuel; unfold parse_statement.
  destruct node as [v|name|elements|pairs|name val|tokens];
    cbn [is_statement] in Hst.
  - exact (parse_value_written trailing (NumberNode v) Hst fuel _ Hfuel).
  - cbn [tokens_of app current_type name_token type TokenType_eqb rbind eat].
    rewrite Hnext.
    exact (parse_value_written trailing (NameNode name) Hst fuel _ Hfuel).
  - exact (parse_value_written trailing (ArrayNode elements) Hst fuel _ Hfuel).
  - exact (parse_value_written trailing (DictNode pairs) Hst fuel _ Hfuel).
  - cbn [tokens_of app current_type name_token sym type TokenType_eqb rbind
           eat].
    cbn [tokens_of app length] in Hfuel.
    rewrite (parse_value_written trailing val Hst fuel _) by lia.
    reflexivity.
  - exact (parse_value_written trailing (ConstExpressionNode tokens) Hst fuel
             _ Hfuel).
Qed.

Lemma parse_loop_written (trailing semicolons : bool)
    (nodes : list ASTNode) :
  forallb is_statement nodes = true ->
  forall fuel acc,
    length (program_tokens trailing semicolons nodes) <= fuel ->
    parse_loop fuel (program_tokens trailing semicolons nodes) acc
    = Ok (acc ++ nodes).
Proof.
  unfold program_tokens.
  induction nodes as [|node nodes IH]; intros Hst fuel acc Hfuel.
  - destruct fuel as [|fuel]; [simpl in Hfuel; lia|].
    rewrite app_nil_r; reflexivity.
  - cbn [forallb] in Hst; apply andb_prop in Hst as [Hnode Hnodes].
    destruct fuel as [|fuel];
      [pose proof (tokens_of_length trailing node);
       cbn [map concat] in Hfuel; rewrite !length_app in Hfuel; lia|].
    cbn [map concat] in *; rewrite <- !app_assoc in *.
    set (more := concat (map (fun node => tokens_of trailing node
                                          ++ (if semicolons
                                              then [sym SEMICOLON] else []))
                             nodes) ++ [mkToken EOF TNone 0 0]) in *.
    destruct (statement_start trailing node Hnode) as (t & ts & Ht & Hstart).
    assert (Hmore : exists next rest,
               more = next :: rest
               /\ TokenType_eqb (type next) ASSIGN = false
               /\ TokenType_eqb (type next) SEMICOLON = false).
    { unfold more; destruct nodes as [|n2 nodes];
        [eexists _, _; repeat split|].
      cbn [forallb] in Hnodes; apply andb_prop in Hnodes as [Hn2 _].
      destruct (statement_start trailing n2 Hn2) as (t2 & ts2 & Ht2 & Hs2).
      cbn [map concat]; rewrite Ht2; cbn [app].
      eexists _, _; split; [reflexivity|].
      destruct (type t2); try discriminate; split; reflexivity. }
    destruct Hmore as (next & rest & Hmore & Hassign & Hsemi).
    assert (Hhead : forall tail,
               parse_loop (S fuel) (tokens_of trailing node ++ tail) acc
               = (if TokenType_eqb (type t) EOF then Ok acc
                  else
                    let* (s, ts1) :=
                      parse_statement
                        (3 * length (tokens_of trailing node ++ tail))
                        (tokens_of trailing node ++ tail) in
                    let statements := acc ++ [s] in
                    match ts1 with
                    | t1 :: _ =>
                        if TokenType_eqb (type t1) SEMICOLON
                        then let* (_, ts2) := eat SEMICOLON ts1 in
                             parse_loop fuel ts2 statements
                        else parse_loop fuel ts1 statements
                    | [] => parse_loop fuel ts1 statements
                    end)).
    { intros tail; rewrite Ht; reflexivity. }
    rewrite Hhead.
    replace (TokenType_eqb (type t) EOF) with false
      by (destruct (type t); try discriminate; reflexivity).
    pose proof (tokens_of_length trailing node) as Hlen.
    rewrite !length_app in Hfuel.
    destruct semicolons; cbn [app] in *.
    + rewrite (parse_statement_written trailing node _ (sym SEMICOLON) more
                 Hnode eq_refl) by lia.
      cbn [rbind sym type TokenType_eqb eat].
      rewrite (IH Hnodes fuel (acc ++ [node])) by (cbn [length] in Hfuel; lia).
      rewrite <- app_assoc; reflexivity.
    + rewrite Hmore in *.
      rewrite (parse_statement_written trailing node _ next rest Hnode Hassign)
        by lia.
      cbn [rbind]; rewrite Hsemi.
      rewrite (IH Hnodes fuel (acc ++ [node])) by lia.
      rewrite <- app_assoc; reflexivity.
Qed.

(** X16: the parser reads back what the grammar writes.  Take statements
    that are values or declarations of values (arrays and dicts of values,
    no key twice in a dict, constant expressions with balanced parentheses)
    and write them out as tokens: elements and pairs separated by
    semicolons, with or without one before the closing bracket or brace;
    statements each followed by a semicolon, or none of them; the EOF token
    last.  Then [parse] returns exactly these statements. *)
Theorem parse_reads_back (trailing semicolons : bool)
    (nodes : list ASTNode) :
  forallb is_statement nodes = true ->
  parse (program_tokens trailing semicolons nodes) = Ok nodes.
Proof.
  intros Hst; unfold parse.
  rewrite (parse_loop_written trailing semicolons nodes Hst _ []) by lia.
  reflexivity.
Qed.

Lemma parse_reads_back_witness :
  parse (program_tokens true false
           [ConstDeclarationNode "a"
              (DictNode [("k", ArrayNode [NumberNode 1; NameNode "b"]);
                         ("e", ConstExpressionNode
                                 [number_token 1; sym LPAREN; sym RPAREN])]);
            NameNode "a"])
  = Ok [ConstDeclarationNode "a"
          (DictNode [("k", ArrayNode [NumberNode 1; NameNode "b"]);
                     ("e", ConstExpressionNode
                             [number_token 1; sym LPAREN; sym RPAREN])]);
        NameNode "a"].
Proof.
  apply (parse_reads_back true false
           [ConstDeclarationNode "a"
              (DictNode [("k", ArrayNode [NumberNode 1; NameNode "b"]);
                         ("e", ConstExpressionNode
                                 [number_token 1; sym LPAREN; sym RPAREN])]);
            NameNode "a"]).
  reflexivity.
Defined.

(** ** White space *)

Lemma tokenize_from_blanks (w s2 : list ascii) (tokens : list Token) :
  forallb is_space w = true ->
  forall ln col,
    exists ln' col',
      tokenize_from (mkLexer (w ++ s2) ln col) tokens
      = tokenize_from (mkLexer s2 ln' col') tokens.
Proof.
  induction w as [|c w IH]; intros Hw ln col; [eexists _, _; reflexivity|].
  cbn [forallb] in Hw; apply andb_prop in Hw as [Hc Hw].
  destruct (tokenize_from_space c (w ++ s2) ln col tokens Hc)
    as (l1 & c1 & E1).
  destruct (IH Hw l1 c1) as (l2 & c2 & E2).
  exists l2, c2; cbn [app]; rewrite E1; exact E2.
Qed.

(** White space at a place where white space is legal leaves the tokens as
    they are, up to their positions. *)
Lemma tokenize_from_insert_blanks (r s2 w : list ascii) :
  ws_legal r s2 -> forallb is_space w = true ->
  forall ln col acc ln2 col2 acc2 ts,
    map erase acc2 = map erase acc ->
    tokenize_from (mkLexer (r ++ s2) ln col) acc = Ok ts ->
    exists ts2,
      tokenize_from (mkLexer (r ++ w ++ s2) ln2 col2) acc2 = Ok ts2
      /\ map erase ts2 = map erase ts.
Proof.
  intros Hlegal Hw.
  induction Hlegal as [s2|sp r s2 Hsp _ IH
                       |u r s2 ch s0 tok lx' Hhd Hns Hscan Hrest Hlc _ IH];
    intros ln col acc ln2 col2 acc2 ts Hacc H.
  - (* at the place itself *)
    cbn [app] in *.
    destruct (tokenize_from_blanks w s2 acc2 Hw ln2 col2) as (l' & c' & ->).
    exact (tokenize_from_shift s2 _ _ _ _ _ _ _ Hacc H).
  - (* white space before it *)
    cbn [app] in *.
    destruct (tokenize_from_space sp (r ++ s2) ln col acc Hsp)
      as (l1 & c1 & E1).
    destruct (tokenize_from_space sp (r ++ w ++ s2) ln2 col2 acc2 Hsp)
      as (l2 & c2 & E2).
    rewrite E1 in H; rewrite E2.
    exact (IH _ _ _ _ _ _ _ Hacc H).
  - (* an item before it *)
    rewrite <- !app_assoc in *.
    rewrite (tokenize_from_scan (mkLexer _ ln col) acc ch s0 Hhd Hns) in H.
    destruct (scan_item_resumes _ _ _ _ _ _ _ Hhd Hscan)
      as (u' & Hne & Hu & Hframe).
    assert (u' = u) as ->.
    { rewrite Hrest in Hu; apply app_inv_tail in Hu; congruence. }
    rewrite Hrest in Hframe.
    destruct (Hframe (r ++ s2) ln col (or_introl (or_introl eq_refl)))
      as (tok1 & lx1 & Hscan1 & Hrest1 & Htok1).
    rewrite Hscan1 in H; cbn [rbind] in H.
    assert (Hf : continues (line_comment_start (u ++ r ++ s2)) (r ++ s2)
                   (r ++ w ++ s2)).
    { destruct r as [|r0 r]; [|left; left; reflexivity].
      destruct w as [|w0 w]; [left; left; reflexivity|].
      cbn [forallb] in Hw; apply andb_prop in Hw as [Hw0 _].
      destruct (line_comment_start _) eqn:Hl;
        [exfalso; apply Hlc; reflexivity|].
      right; split; [reflexivity | exists w0, (w ++ s2); split; trivial]. }
    destruct (Hframe (r ++ w ++ s2) ln2 col2 Hf)
      as (tok2 & lx2 & Hscan2 & Hrest2 & Htok2).
    assert (Hhd2 : u ++ r ++ w ++ s2 = ch :: skipn 1 (u ++ r ++ w ++ s2)).
    { destruct u as [|u0 u]; [contradiction|].
      cbn [app] in *; inversion Hhd; reflexivity. }
    rewrite (tokenize_from_scan (mkLexer _ ln2 col2) acc2 ch _ Hhd2 Hns).
    rewrite Hscan2; cbn [rbind].
    rewrite (lexer_eta lx1), Hrest1 in H.
    rewrite (lexer_eta lx2), Hrest2.
    refine (IH _ _ _ _ _ _ _ _ H).
    apply push_token_erase; [exact Hacc | congruence].
Qed.

Lemma tokenize_insert_blanks (s1 w s2 : string) (ts : list Token) :
  ws_legal (list_ascii_of_string s1) (list_ascii_of_string s2) ->
  forallb is_space (list_ascii_of_string w) = true ->
  tokenize (s1 +:+ s2) = Ok ts ->
  exists ts2,
    tokenize (s1 +:+ w +:+ s2) = Ok ts2 /\ map erase ts2 = map erase ts.
Proof.
  intros Hlegal Hw; rewrite !tokenize_list, !list_ascii_of_string_app.
  exact (tokenize_from_insert_blanks _ _ _ Hlegal Hw 1 1 [] 1 1 [] ts eq_refl).
Qed.

(** X17: when a text translates, putting white space (spaces, tabs,
    carriage returns, line breaks) at a place of the text where white space
    is legal leaves the resolved output mapping as it is.  That holds of
    [translate], which succeeds on the texts without a statement, and of
    the translation in any namespace; and whenever the text parses, the
    text with the white space parses to the same statements, up to the
    positions kept in the tokens of constant expressions. *)
Theorem white_space_insertion (s1 w s2 : string) :
  ws_legal (list_ascii_of_string s1) (list_ascii_of_string s2) ->
  forallb is_space (list_ascii_of_string w) = true ->
  (forall results,
      translate (s1 +:+ s2) = Ok results ->
      translate (s1 +:+ w +:+ s2) = Ok results)
  /\ (forall globals results,
         translate_in globals (s1 +:+ s2) = Ok results ->
         translate_in globals (s1 +:+ w +:+ s2) = Ok results)
  /\ (forall nodes,
         parse_text (s1 +:+ s2) = Ok nodes ->
         exists nodes',
           parse_text (s1 +:+ w +:+ s2) = Ok nodes'
           /\ map erase_node nodes' = map erase_node nodes).
Proof.
  intros Hlegal Hw.
  assert (Hin : forall globals results,
             translate_in globals (s1 +:+ s2) = Ok results ->
             translate_in globals (s1 +:+ w +:+ s2) = Ok results).
  { intros globals results H.
    destruct (translate_in_tokens _ _ _ H) as [ts Hts].
    destruct (tokenize_insert_blanks s1 w s2 ts Hlegal Hw Hts)
      as (ts2 & Hts2 & Herase).
    exact (translate_in_erased globals _ _ ts ts2 results Hts Hts2 Herase H). }
  split; [|split].
  - intros results; exact (Hin evaluator_globals results).
  - exact Hin.
  - intros nodes H.
    destruct (parse_text_tokens _ _ H) as [ts Hts].
    destruct (tokenize_insert_blanks s1 w s2 ts Hlegal Hw Hts)
      as (ts2 & Hts2 & Herase).
    exact (parse_text_erased _ _ ts ts2 nodes Hts Hts2 Herase H).
Qed.

Lemma white_space_insertion_witness :
  translate ("<# head #>"
             +:+ String "013" (String "010" (String "009" " "))
             +:+ ":: end")
  = Ok []
  /\ translate_in ("ConstDeclarationNode" :: evaluator_globals)
       ("x <-" +:+ String "013" (String "010" (String "009" " "))
        +:+ "42.0; y <- x;")
     = Ok [("x", VNum 42); ("y", VNum 42)]
  /\ exists nodes',
       parse_text ("x <-" +:+ String "013" (String "010" (String "009" " "))
                   +:+ "42.0; y <- x;") = Ok nodes'
       /\ map erase_node nodes'
          = map erase_node [ConstDeclarationNode "x" (NumberNode 42);
                            ConstDeclarationNode "y" (NameNode "x")].
Proof.
  assert (Hlegal : ws_legal (list_ascii_of_string "x <-")
                     (list_ascii_of_string "42.0; y <- x;")).
  { cbv [list_ascii_of_string].
    legal_item_step ["x"%char] [" "; "<"; "-"]%char.
    apply legal_space; [reflexivity|].
    legal_item_step ["<"; "-"]%char (@nil ascii).
    apply legal_here. }
  split; [|split].
  - refine (proj1 (white_space_insertion "<# head #>"
                     (String "013" (String "010" (String "009" " ")))
                     ":: end" _ _) _ _).
    + cbv [list_ascii_of_string].
      legal_item_step ["<"; "#"; " "; "h"; "e"; "a"; "d"; " "; "#"; ">"]%char
                      (@nil ascii).
      apply legal_here.
    + reflexivity.
    + vm_compute; reflexivity.
  - refine (proj1 (proj2 (white_space_insertion "x <-"
                     (String "013" (String "010" (String "009" " ")))
                     "42.0; y <- x;" Hlegal _)) _ _ _);
      [reflexivity | vm_compute; reflexivity].
  - refine (proj2 (proj2 (white_space_insertion "x <-"
                     (String "013" (String "010" (String "009" " ")))
                     "42.0; y <- x;" Hlegal _)) _ _);
      [reflexivity | vm_compute; reflexivity].
Defined.

(** ** A key written twice *)

Lemma dict_get_fold_set {V} (pairs acc : dict V) (k : string) :
  dict_get (fold_left (fun d kv => dict_set d (fst kv) (snd kv)) pairs acc) k
  = match dict_get (rev pairs) k with
    | Some v => Some v
    | None => dict_get acc k
    end.
Proof.
  revert acc; induction pairs as [|[k0 v0] ps IH]; intros acc;
    [reflexivity|].
  cbn [fold_left fst snd rev]; rewrite IH, dict_get_app.
  destruct (dict_get (rev ps) k); [reflexivity|].
  cbn [dict_get].
  destruct (String.eqb k0 k) eqn:E.
  - apply String.eqb_eq in E; subst k0; apply dict_get_set_eq.
  - apply String.eqb_neq in E; apply dict_get_set_ne; exact E.
Qed.

Lemma fold_dict_set_NoDup {V} (pairs acc : dict V) :
  NoDup (map fst acc) ->
  NoDup (map fst (fold_left (fun d kv => dict_set d (fst kv) (snd kv))
                            pairs acc)).
Proof.
  revert acc; induction pairs as [|[k v] ps IH]; intros acc Hacc;
    [exact Hacc|].
  cbn [fold_left fst snd]; apply IH, dict_set_NoDup; exact Hacc.
Qed.

Lemma parse_dict_assigns (trailing : bool) (pairs : dict ASTNode)
    (fuel : nat) (rest : list Token) :
  forallb (fun kv => is_value (snd kv)) pairs = true ->
  3 * length (tokens_of trailing (DictNode pairs) ++ rest) <= fuel ->
  parse_value fuel (tokens_of trailing (DictNode pairs) ++ rest)
  = Ok (DictNode (fold_left (fun d kv => dict_set d (fst kv) (snd kv))
                            pairs []), rest).
Proof.
  intros Hval Hfuel.
  cbn [tokens_of] in *.
  rewrite <- !app_comm_cons, <- app_assoc in *; cbn [length app] in Hfuel.
  destruct fuel as [|[|fuel]]; try lia.
  cbn [parse_value sym type parse_dict eat TokenType_eqb rbind].
  destruct pairs as [|[k v] ps].
  - cbn [map separated app current_type sym type TokenType_eqb rbind eat].
    reflexivity.
  - assert (Hall : Forall (fun kv => reads_back trailing (snd kv))
                     ((k, v) :: ps)).
    { apply List.Forall_forall; intros kv _.
      apply parse_value_written. }
    pose proof (parse_dict_loop_assigns trailing ((k, v) :: ps) Hall Hval
                  ltac:(discriminate) fuel [] rest) as Hloop.
    assert (Hcur : exists ts',
               separated trailing
                 (map (fun kv => name_token (fst kv) :: sym EQUALS
                                 :: tokens_of trailing (snd kv))
                      ((k, v) :: ps))
               = name_token k :: ts').
    { cbn [map separated fst]; destruct ps; cbn [app]; eauto. }
    destruct Hcur as [ts' Hcur].
    rewrite Hcur in *; cbn [app current_type rbind name_token type] in *.
    cbn [TokenType_eqb].
    rewrite Hloop by (cbn [length] in *; lia).
    reflexivity.
Qed.

Lemma parse_loop_step (fuel : nat) (t : Token) (ts : list Token)
    (statements : list ASTNode) (s : ASTNode) (ts1 : list Token) :
  TokenType_eqb (type t) EOF = false ->
  parse_statement (3 * length (t :: ts)) (t :: ts) = Ok (s, ts1) ->
  parse_loop (S fuel) (t :: ts) statements
  = match ts1 with
    | t1 :: _ =>
        if TokenType_eqb (type t1) SEMICOLON
        then let* (_, ts2) := eat SEMICOLON ts1 in
             parse_loop fuel ts2 (statements ++ [s])
        else parse_loop fuel ts1 (statements ++ [s])
    | [] => parse_loop fuel ts1 (statements ++ [s])
    end.
Proof. intros H1 H2; cbn [parse_loop]; rewrite H1, H2; reflexivity. Qed.

(** X18: a dict may be written with a key more than once.  The parser then
    assigns the pairs in the order they are written: the dict node has every
    key once, and each key holds the value of the last pair written with
    it. *)
Theorem dict_key_written_twice (trailing : bool) (pairs : dict ASTNode) :
  forallb (fun kv => is_value (snd kv)) pairs = true ->
  exists parsed,
    parse (tokens_of trailing (DictNode pairs) ++ [mkToken EOF TNone 0 0])
    = Ok [DictNode parsed]
    /\ NoDup (map fst parsed)
    /\ forall k, dict_get parsed k = dict_get (rev pairs) k.
Proof.
  intros Hval.
  exists (fold_left (fun d kv => dict_set d (fst kv) (snd kv)) pairs []).
  split; [|split].
  - unfold parse.
    remember (tokens_of trailing (DictNode pairs) ++ [mkToken EOF TNone 0 0])
      as ts eqn:Hts.
    assert (Hhd : exists ts', ts = sym LBRACE :: ts')
      by (subst ts; eexists; reflexivity).
    destruct Hhd as [ts' Hhd].
    assert (Hst : parse_statement (3 * length ts) ts
                  = Ok (DictNode
                          (fold_left
                             (fun d kv => dict_set d (fst kv) (snd kv))
                             pairs []), [mkToken EOF TNone 0 0])).
    { assert (Hct : current_type ts = Ok LBRACE)
        by (rewrite Hhd; reflexivity).
      unfold parse_statement; rewrite Hct.
      cbn [TokenType_eqb rbind].
      rewrite Hts.
      apply (parse_dict_assigns trailing pairs _ _ Hval); lia. }
    rewrite Hhd in Hst |- *.
    rewrite (parse_loop_step _ (sym LBRACE) ts' [] _ _ eq_refl Hst).
    reflexivity.
  - apply fold_dict_set_NoDup; exact NoDup_nil_2.
  - intros k; rewrite dict_get_fold_set.
    destruct (dict_get (rev pairs) k); reflexivity.
Qed.

Lemma dict_key_written_twice_witness :
  exists parsed,
    parse (tokens_of false
             (DictNode [("a", NumberNode 1); ("b", NumberNode 2);
                        ("a", NumberNode 3)])
           ++ [mkToken EOF TNone 0 0])
    = Ok [DictNode parsed]
    /\ NoDup (map fst parsed)
    /\ forall k,
        dict_get parsed k
        = dict_get (rev [("a", NumberNode 1); ("b", NumberNode 2);
                         ("a", NumberNode 3)]) k.
Proof.
  apply (dict_key_written_twice false
           [("a", NumberNode 1); ("b", NumberNode 2); ("a", NumberNode 3)]).
  reflexivity.
Defined.

(** ** A constant expression that is not closed *)

Lemma collect_expression_open (ts acc : list Token) (depth : nat) :
  never_closes depth ts = true ->
  collect_expression ts (S depth) acc = Ok (acc ++ ts, []).
Proof.
  revert depth acc; induction ts as [|t ts IH]; intros depth acc Hn.
  - rewrite app_nil_r; reflexivity.
  - cbn [collect_expression never_closes] in *.
    replace (acc ++ t :: ts) with ((acc ++ [t]) ++ ts)
      by (rewrite <- app_assoc; reflexivity).
    destruct (type t); cbn [TokenType_eqb Nat.pred Nat.ltb Nat.leb];
      try exact (IH depth _ Hn).
    + exact (IH (S depth) _ Hn).
    + destruct depth as [|depth]; [discriminate|].
      exact (IH depth _ Hn).
Qed.

Lemma parse_loop_never_closed (trailing semicolons : bool)
    (nodes : list ASTNode) (dot paren : Token) (ts : list Token) :
  forallb is_statement nodes = true ->
  type dot = DOT -> type paren = LPAREN -> never_closes 0 ts = true ->
  forall fuel acc,
    length (concat (map (fun node =>
                           tokens_of trailing node
                           ++ (if semicolons then [sym SEMICOLON] else []))
                        nodes)
            ++ dot :: paren :: ts) <= fuel ->
    parse_loop fuel
      (concat (map (fun node =>
                      tokens_of trailing node
                      ++ (if semicolons then [sym SEMICOLON] else []))
                   nodes)
       ++ dot :: paren :: ts) acc
    = Err (ParseError ExpectedDotAfterExpression None).
Proof.
  intros Hst Hdot Hparen Hopen.
  set (tail := dot :: paren :: ts).
  assert (Htail : forall fuel acc,
             2 <= fuel ->
             parse_loop fuel tail acc
             = Err (ParseError ExpectedDotAfterExpression None)).
  { intros [|fuel] acc Hfuel; [lia|].
    unfold tail; cbn [parse_loop]; rewrite Hdot; cbn [TokenType_eqb].
    unfold parse_statement; cbn [current_type rbind]; rewrite Hdot.
    cbn [TokenType_eqb length Nat.mul Nat.add parse_value]; rewrite Hdot.
    unfold parse_const_expression; cbn [eat]; rewrite Hdot.
    cbn [TokenType_eqb rbind eat]; rewrite Hparen.
    cbn [TokenType_eqb rbind].
    rewrite (collect_expression_open ts [] 0 Hopen); reflexivity. }
  induction nodes as [|node nodes IH]; intros fuel acc Hfuel.
  - apply Htail; simpl in Hfuel; lia.
  - cbn [forallb] in Hst; apply andb_prop in Hst as [Hnode Hnodes].
    cbn [map concat] in *; rewrite <- !app_assoc in *.
    set (more := concat (map (fun node => tokens_of trailing node
                                          ++ (if semicolons
                                              then [sym SEMICOLON] else []))
                             nodes) ++ tail) in *.
    assert (Hmore : exists next rest,
               more = next :: rest
               /\ TokenType_eqb (type next) ASSIGN = false
               /\ TokenType_eqb (type next) SEMICOLON = false).
    { unfold more; destruct nodes as [|n2 nodes].
      - exists dot, (paren :: ts); rewrite Hdot; repeat split.
      - cbn [forallb] in Hnodes; apply andb_prop in Hnodes as [Hn2 _].
        destruct (statement_start trailing n2 Hn2) as (t2 & ts2 & Ht2 & Hs2).
        cbn [map concat]; rewrite Ht2; cbn [app].
        eexists _, _; split; [reflexivity|].
        destruct (type t2); try discriminate; split; reflexivity. }
    destruct Hmore as (next & rest & Hmore & Hassign & Hsemi).
    destruct (statement_start trailing node Hnode) as (t & tn & Ht & Hstart).
    assert (Heof : TokenType_eqb (type t) EOF = false)
      by (destruct (type t); try discriminate; reflexivity).
    specialize (IH Hnodes).
    rewrite !length_app in Hfuel.
    destruct fuel as [|fuel]; [rewrite Ht in Hfuel; simpl in Hfuel; lia|].
    destruct semicolons; cbn [app] in *.
    + assert (Hps := parse_statement_written trailing node
                       (3 * length (tokens_of trailing node
                                    ++ sym SEMICOLON :: more))
                       (sym SEMICOLON) more Hnode eq_refl (le_n _)).
      rewrite Ht in Hps, Hfuel |- *; cbn [app length] in Hps, Hfuel |- *.
      rewrite (parse_loop_step _ t _ acc node _ Heof Hps).
      cbn [sym type TokenType_eqb eat rbind].
      apply IH; lia.
    + assert (Hps := parse_statement_written trailing node
                       (3 * length (tokens_of trailing node ++ more))
                       next rest Hnode Hassign).
      rewrite <- Hmore in Hps; specialize (Hps (le_n _)).
      rewrite Ht in Hps, Hfuel |- *; cbn [app length] in Hps, Hfuel |- *.
      rewrite (parse_loop_step _ t _ acc node _ Heof Hps).
      rewrite Hmore, Hsemi, <- Hmore.
      apply IH; lia.
Qed.

(** X19: a constant expression whose opening parenthesis is never closed
    takes every token that is left, the EOF token included, and the parser
    then fails asking for the closing dot, with no token to point at; this
    holds after any statements written before it. *)
Theorem expression_never_closed (trailing semicolons : bool)
    (nodes : list ASTNode) (dot paren : Token) (ts : list Token) :
  forallb is_statement nodes = true ->
  type dot = DOT -> type paren = LPAREN -> never_closes 0 ts = true ->
  parse (concat (map (fun node =>
                        tokens_of trailing node
                        ++ (if semicolons then [sym SEMICOLON] else []))
                     nodes)
         ++ dot :: paren :: ts)
  = Err (ParseError ExpectedDotAfterExpression None).
Proof.
  intros Hst Hdot Hparen Hopen; unfold parse.
  apply (parse_loop_never_closed trailing semicolons nodes dot paren ts
           Hst Hdot Hparen Hopen); lia.
Qed.

Lemma expression_never_closed_witness :
  parse ([name_token "x"; sym ASSIGN; number_token 1; sym SEMICOLON]
         ++ [sym DOT; sym LPAREN; name_token "x"; sym LPAREN; sym RPAREN;
             mkToken EOF TNone 0 0])
  = Err (ParseError ExpectedDotAfterExpression None).
Proof.
  exact (expression_never_closed false true
           [ConstDeclarationNode "x" (NumberNode 1)] (sym DOT) (sym LPAREN)
           [name_token "x"; sym LPAREN; sym RPAREN; mkToken EOF TNone 0 0]
           eq_refl eq_refl eq_refl eq_refl).
Defined.

(** ** A text of white space *)

Lemma tokenize_from_all_space (w : list ascii) (tokens : list Token) :
  forallb is_space w = true ->
  forall ln col,
    tokenize_from (mkLexer w ln col) tokens
    = Ok (tokens ++ [mkToken EOF TNone (fst (move w (ln, col)))
                       (snd (move w (ln, col)))]).
Proof.
  induction w as [|c w IH]; intros Hw ln col.
  - rewrite tokenize_from_end by reflexivity; reflexivity.
  - cbn [forallb] in Hw; apply andb_prop in Hw as [Hc Hw].
    rewrite (tokenize_from_space_at c w ln col tokens Hc), (IH Hw).
    change (move (c :: w) (ln, col)) with (move w (step_position (ln, col) c)).
    rewrite <- surjective_pairing; reflexivity.
Qed.

(** X20: a text of white space only (the empty text included) lexes to the
    EOF token alone, at the line and column behind the last character, and
    translates to the empty mapping. *)
Theorem blank_text (text : string) :
  forallb is_space (list_ascii_of_string text) = true ->
  tokenize text
  = Ok [mkToken EOF TNone (fst (position_after (list_ascii_of_string text)))
          (snd (position_after (list_ascii_of_string text)))]
  /\ parse_text text = Ok []
  /\ translate text = Ok [].
Proof.
  intros Hw.
  assert (Hlex : tokenize text
                 = Ok [mkToken EOF TNone
                         (fst (position_after (list_ascii_of_string text)))
                         (snd (position_after (list_ascii_of_string text)))]).
  { rewrite tokenize_list.
    exact (tokenize_from_all_space _ [] Hw 1 1). }
  split; [exact Hlex|].
  unfold translate, translate_in, parse_text; rewrite Hlex; split; reflexivity.
Qed.

Lemma blank_text_witness :
  tokenize " 
	 " = Ok [mkToken EOF TNone 2 3]
  /\ parse_text " 
	 " = Ok []
  /\ translate " 
	 " = Ok [].
Proof.
  exact (blank_text " 
	 " eq_refl).
Defined.

(** ** Arrays and dicts, item by item *)

(** X21: an array evaluates its elements from left to right and a dict its
    values in the order of its keys: when all of them have a value, the
    result holds these values in the same order (under the same keys, for a
    dict); when one fails after the ones before it have a value, the result
    is its error, and what comes behind it is not evaluated. *)
Theorem items_in_order (constants : Env) :
  (forall elements values,
      Forall2 (fun e v => evaluate_node constants e = Ok v) elements values ->
      evaluate_node constants (ArrayNode elements) = Ok (VList values))
  /\ (forall before e behind values err,
         Forall2 (fun e v => evaluate_node constants e = Ok v) before values ->
         evaluate_node constants e = Err err ->
         evaluate_node constants (ArrayNode (before ++ e :: behind))
         = Err err)
  /\ (forall pairs values,
         Forall2 (fun kv v => evaluate_node constants (snd kv) = Ok v)
                 pairs values ->
         evaluate_node constants (DictNode pairs)
         = Ok (VDict (combine (map fst pairs) values)))
  /\ (forall before k e behind values err,
         Forall2 (fun kv v => evaluate_node constants (snd kv) = Ok v)
                 before values ->
         evaluate_node constants e = Err err ->
         evaluate_node constants (DictNode (before ++ (k, e) :: behind))
         = Err err).
Proof.
  split; [|split; [|split]].
  - intros elements values H; cbn [evaluate_node].
    induction H as [|e v es vs He _ IH]; [reflexivity|].
    rewrite He; cbn [rbind].
    match goal with
    | H : rmap VList ?r = _ |- context [rbind ?r' _] =>
        change r' with r; destruct r; inversion H
    end.
    reflexivity.
  - intros before e behind values err H He; cbn [evaluate_node].
    induction H as [|e0 v es vs He0 _ IH]; cbn [app].
    + rewrite He; reflexivity.
    + rewrite He0; cbn [rbind].
      match goal with
      | H : rmap VList ?r = _ |- context [rbind ?r' _] =>
          change r' with r; destruct r; inversion H
      end.
      reflexivity.
  - intros pairs values H; cbn [evaluate_node].
    induction H as [|[k e] v es vs He _ IH]; [reflexivity|].
    cbn [snd] in He; rewrite He; cbn [rbind map fst combine].
    match goal with
    | H : rmap VDict ?r = _ |- context [rbind ?r' _] =>
        change r' with r; destruct r; inversion H
    end.
    reflexivity.
  - intros before k e behind values err H He; cbn [evaluate_node].
    induction H as [|[k0 e0] v es vs He0 _ IH]; cbn [app].
    + rewrite He; reflexivity.
    + cbn [snd] in He0; rewrite He0; cbn [rbind].
      match goal with
      | H : rmap VDict ?r = _ |- context [rbind ?r' _] =>
          change r' with r; destruct r; inversion H
      end.
      reflexivity.
Qed.

Lemma items_in_order_witness :
  evaluate_node (<["a" := VNum 1]> ∅)
    (ArrayNode [NameNode "a"; NumberNode 2]) = Ok (VList [VNum 1; VNum 2])
  /\ evaluate_node (<["a" := VNum 1]> ∅)
       (ArrayNode ([NameNode "a"] ++ NameNode "b" :: [NameNode "c"]))
     = Err (EvaluationError (UnknownConstant "b") None).
Proof.
  split.
  - apply (proj1 (items_in_order (<["a" := VNum 1]> ∅))).
    repeat constructor.
  - apply (proj1 (proj2 (items_in_order (<["a" := VNum 1]> ∅)))
             [NameNode "a"] (NameNode "b") [NameNode "c"] [VNum 1]).
    + repeat constructor.
    + reflexivity.
Defined.

(** ** Tokens the postfix evaluator does not take *)

(** X22: a constant expression holding a token that is neither a NUMBER, a
    NAME, a PLUS nor a MINUS (a SORT, which is what the lexer makes of the
    word [sort], a parenthesis, ...) never has a value: the tokens before it
    are processed, and unless one of them fails first, the expression fails
    at that token with UnexpectedToken naming its type. *)
Theorem unexpected_token_in_expression (constants : Env)
    (before behind : list Token) (token : Token) :
  expression_token (type token) = false ->
  (forall stack,
      eval_tokens constants before [] = Ok stack ->
      evaluate_expression constants (before ++ token :: behind)
      = Err (EvaluationError (UnexpectedToken (type token)) (Some token)))
  /\ (forall e,
         eval_tokens constants before [] = Err e ->
         evaluate_expression constants (before ++ token :: behind) = Err e)
  /\ exists e,
      evaluate_expression constants (before ++ token :: behind) = Err e.
Proof.
  intros Hty.
  assert (Htoken : forall stack,
             eval_token constants token stack
             = Err (EvaluationError (UnexpectedToken (type token))
                      (Some token))).
  { intros stack; unfold eval_token.
    destruct (type token); try discriminate; reflexivity. }
  assert (Hok : forall stack,
             eval_tokens constants before [] = Ok stack ->
             evaluate_expression constants (before ++ token :: behind)
             = Err (EvaluationError (UnexpectedToken (type token))
                      (Some token))).
  { intros stack H; unfold evaluate_expression.
    rewrite eval_tokens_app, H; cbn [rbind eval_tokens].
    rewrite Htoken; reflexivity. }
  assert (Herr : forall e,
             eval_tokens constants before [] = Err e ->
             evaluate_expression constants (before ++ token :: behind)
             = Err e).
  { intros e H; unfold evaluate_expression.
    rewrite eval_tokens_app, H; reflexivity. }
  split; [exact Hok | split; [exact Herr|]].
  destruct (eval_tokens constants before []) as [stack|e] eqn:H.
  - eexists; exact (Hok stack eq_refl).
  - exists e; exact (Herr e eq_refl).
Qed.

Lemma unexpected_token_in_expression_witness :
  evaluate_expression (<["arr" := VList [VNum 2; VNum 1]]> ∅)
    ([name_token "arr"] ++ mkToken SORT (TStr "sort") 1 8
                        :: [sym LPAREN; sym RPAREN])
  = Err (EvaluationError (UnexpectedToken SORT)
           (Some (mkToken SORT (TStr "sort") 1 8))).
Proof.
  exact (proj1 (unexpected_token_in_expression
                  (<["arr" := VList [VNum 2; VNum 1]]> ∅)
                  [name_token "arr"] [sym LPAREN; sym RPAREN]
                  (mkToken SORT (TStr "sort") 1 8) eq_refl)
           [VList [VNum 2; VNum 1]] eq_refl).
Defined.
